(** * InSAR processing core: SBAS network, inversion, coherence, unwrapping

    A shallow embedding of the numerical core of the Python service
    ([sbas_inversion.py], [sar_algorithms.py], [snaphu_unwrapper.py]) and the
    properties its specification states about it.

    Conventions of the embedding.
    - A [datetime] produced by [strptime(d, "%Y-%m-%d")] is a midnight
      timestamp; it is represented by its proleptic Gregorian ordinal
      ([datetime.toordinal]), so that [(a - b).days] is the difference of
      ordinals.
    - Python exceptions are values of [exn]; a function that may raise
      returns [result A].
    - [float64] values that only ever hold day counts are integers ([Z]);
      the simulated perpendicular baseline is a rational ([Q]).
    - Every other [float64] is idealised: a finite value is a real number
      ([R]), and the special values are kept where the code can produce or
      test them (type [fl]: finite, infinite, not-a-number).  Rounding,
      overflow and the sign of zero are not modelled. *)

From Stdlib Require Import ZArith List Bool Arith Lia String Ascii QArith.
From Stdlib Require Import Sorting.Sorted.
From Stdlib Require Import Reals Lra.
Import ListNotations.

Close Scope Q_scope.
Set Implicit Arguments.

(** ** Exceptions *)

Inductive exn : Type :=
| ValueError
| IndexError
| LinAlgError.

Definition result (A : Type) : Type := (exn + A)%type.

Definition ret {A} (a : A) : result A := inr a.
Definition raise {A} (e : exn) : result A := inl e.
Definition bind {A B} (m : result A) (k : A -> result B) : result B :=
  match m with
  | inl e => inl e
  | inr a => k a
  end.

Declare Scope result_scope.
Delimit Scope result_scope with result.
Notation "x <- m ;; k" := (bind m (fun x => k))
  (at level 61, m at next level, right associativity) : result_scope.

(** ** Calendar dates *)

Module Datetime.

Open Scope Z_scope.

Definition is_leap (y : Z) : bool :=
  ((y mod 4 =? 0) && negb (y mod 100 =? 0)) || (y mod 400 =? 0).

Definition days_in_month (y m : Z) : Z :=
  if m =? 2 then (if is_leap y then 29 else 28)
  else if (m =? 4) || (m =? 6) || (m =? 9) || (m =? 11) then 30
  else 31.

Definition days_before_year (y : Z) : Z :=
  let p := y - 1 in p * 365 + p / 4 - p / 100 + p / 400.

Fixpoint days_before_month_aux (y : Z) (k : nat) : Z :=
  match k with
  | O => 0
  | S k' => days_before_month_aux y k' + days_in_month y (Z.of_nat k)
  end.

(** Number of days of year [y] that precede the first day of month [m]. *)
Definition days_before_month (y m : Z) : Z :=
  days_before_month_aux y (Z.to_nat (m - 1)).

Definition ymd2ord (y m d : Z) : Z :=
  days_before_year y + days_before_month y m + d.

(** *** Parsing ["%Y-%m-%d"] *)

Definition digit_of (c : ascii) : option Z :=
  let n := Z.of_nat (nat_of_ascii c) in
  if (48 <=? n) && (n <=? 57) then Some (n - 48) else None.

Fixpoint number_of (acc : Z) (s : string) : option Z :=
  match s with
  | EmptyString => Some acc
  | String c s' =>
      match digit_of c with
      | Some d => number_of (10 * acc + d) s'
      | None => None
      end
  end.

Fixpoint split_dash (cur : string) (s : string) : list string :=
  match s with
  | EmptyString => [cur]
  | String c s' =>
      if Ascii.eqb c "-"%char then cur :: split_dash EmptyString s'
      else split_dash (cur ++ String c EmptyString)%string s'
  end.

Definition field (lo hi : nat) (s : string) : option Z :=
  let n := String.length s in
  if (lo <=? n)%nat && (n <=? hi)%nat then number_of 0 s else None.

(** The day field of ["%d"]: one or two digits, or a space and one digit
    from 1 to 9. *)
Definition day_field (s : string) : option Z :=
  match s with
  | String c1 (String c2 EmptyString) =>
      if Ascii.eqb c1 " "%char then
        match digit_of c2 with
        | Some d => if 1 <=? d then Some d else None
        | None => None
        end
      else field 1 2 s
  | _ => field 1 2 s
  end.

(** [strptime s] is the ordinal of the date written in the ASCII text [s]
    as year-month-day (four-digit year, one- or two-digit month, day as in
    [day_field]), and [None] where [datetime.strptime] raises
    [ValueError]. *)
Definition strptime (s : string) : option Z :=
  match split_dash EmptyString s with
  | [ys; ms; ds] =>
      match field 4 4 ys, field 1 2 ms, day_field ds with
      | Some y, Some m, Some d =>
          if (1 <=? y) && (1 <=? m) && (m <=? 12)
             && (1 <=? d) && (d <=? days_in_month y m)
          then Some (ymd2ord y m d) else None
      | _, _, _ => None
      end
  | _ => None
  end.

End Datetime.

(** ** Small list utilities mirroring numpy indexing *)

Section ListOps.
Context {A : Type}.

(** [arr[i] = v] on a one-dimensional array; [None] is [IndexError]. *)
Fixpoint set_nth (l : list A) (i : nat) (v : A) : option (list A) :=
  match l, i with
  | [], _ => None
  | _ :: t, O => Some (v :: t)
  | h :: t, S i' => option_map (cons h) (set_nth t i' v)
  end.

End ListOps.

(** [arr[i, j] = v] on a two-dimensional array. *)
Definition set_nth2 {A} (m : list (list A)) (i j : nat) (v : A)
  : option (list (list A)) :=
  match nth_error m i with
  | Some row =>
      match set_nth row j v with
      | Some row' => set_nth m i row'
      | None => None
      end
  | None => None
  end.

Definition of_option {A} (e : exn) (o : option A) : result A :=
  match o with
  | Some a => inr a
  | None => inl e
  end.

(** Python's [sorted] on datetimes (a stable sort; on ordinals every stable
    sort returns the same list). *)
Fixpoint insert_sorted (x : Z) (l : list Z) : list Z :=
  match l with
  | [] => [x]
  | h :: t => if (x <? h)%Z then x :: l else h :: insert_sorted x t
  end.

Definition sorted (l : list Z) : list Z :=
  fold_right insert_sorted [] (rev l).

(** ** [SBASNetwork] *)

Module SBASNetwork.

Record pair : Type := mk_pair {
  master_idx : nat;
  slave_idx : nat;
  temporal_baseline : Z;
  perpendicular_baseline : Q
}.

(** The object state: the attributes [dates], [baseline_threshold] and
    [pairs].  The attribute [n_dates] is assigned once, to [len(dates)],
    and is therefore a derived quantity here; the [baselines] dictionary
    only duplicates what [pairs] holds and is read by nothing. *)
Record t : Type := mk {
  dates : list Z;
  baseline_threshold : Q;
  pairs : list pair
}.

Definition n_dates (self : t) : nat := List.length (dates self).

(** [__init__] once the date strings are parsed. *)
Definition of_datetimes (ds : list Z) (threshold : Q) : t :=
  {| dates := sorted ds; baseline_threshold := threshold; pairs := [] |}.

Fixpoint parse_all (l : list string) : option (list Z) :=
  match l with
  | [] => Some []
  | s :: l' =>
      match Datetime.strptime s, parse_all l' with
      | Some d, Some ds => Some (d :: ds)
      | _, _ => None
      end
  end.

(** [SBASNetwork(dates, baseline_threshold)]. *)
Definition init (ds : list string) (threshold : Q) : result t :=
  match parse_all ds with
  | Some l => ret (of_datetimes l threshold)
  | None => raise ValueError
  end.

Record connectivity : Type := mk_connectivity {
  is_connected : bool;
  n_connected : nat;
  n_disconnected : nat
}.

(** *** [_check_connectivity] *)

Definition zeros2 (n m : nat) : list (list bool) :=
  repeat (repeat false m) n.

(** The loop filling the adjacency matrix. *)
Fixpoint fill_adj (adj : list (list bool)) (ps : list pair)
  : result (list (list bool)) :=
  match ps with
  | [] => ret adj
  | p :: ps' =>
      match set_nth2 adj (master_idx p) (slave_idx p) true with
      | Some adj1 =>
          match set_nth2 adj1 (slave_idx p) (master_idx p) true with
          | Some adj2 => fill_adj adj2 ps'
          | None => raise IndexError
          end
      | None => raise IndexError
      end
  end.

(** The inner [for neighbor in range(n_dates)] loop, from [neighbor] up. *)
Fixpoint scan_neighbors (row : list bool) (neighbor : nat)
    (visited : list bool) (queue : list nat) : list bool * list nat :=
  match row with
  | [] => (visited, queue)
  | a :: row' =>
      if a && negb (nth neighbor visited true) then
        match set_nth visited neighbor true with
        | Some visited' =>
            scan_neighbors row' (S neighbor) visited' (queue ++ [neighbor])
        | None => (visited, queue)
        end
      else scan_neighbors row' (S neighbor) visited queue
  end.

(** The [while queue] loop; [fuel] bounds the number of iterations and
    [None] means the bound was too small. *)
Fixpoint bfs (fuel : nat) (adj : list (list bool))
    (visited : list bool) (queue : list nat) : option (list bool) :=
  match queue with
  | [] => Some visited
  | node :: queue' =>
      match fuel with
      | O => None
      | S fuel' =>
          let '(visited', queue'') :=
            scan_neighbors (nth node adj []) 0 visited queue' in
          bfs fuel' adj visited' queue''
      end
  end.

Definition count_true (l : list bool) : nat :=
  List.length (filter (fun b => b) l).

(** Every date enters the queue at most once, so [2 * n_dates + 1]
    iterations always suffice: lemma [bfs_terminates] below shows that
    the [None] branch is never taken. *)
Definition bfs_run (adj : list (list bool)) (visited : list bool)
    (queue : list nat) : list bool :=
  match bfs (2 * List.length visited + 1) adj visited queue with
  | Some v => v
  | None => visited
  end.

Definition check_connectivity (self : t) : result connectivity :=
  let n := n_dates self in
  (adj <- fill_adj (zeros2 n n) (pairs self) ;;
   visited0 <- of_option IndexError (set_nth (repeat false n) 0 true) ;;
   let visited := bfs_run adj visited0 [0%nat] in
   ret {| is_connected := forallb (fun b => b) visited;
          n_connected := count_true visited;
          n_disconnected := count_true (map negb visited) |})%result.

(** *** [build_network] *)

Record network_info : Type := mk_info {
  info_n_dates : nat;
  info_n_pairs : nat;
  info_pairs : list pair;
  info_connectivity : connectivity
}.

Section Build.
(** [rng k] is the value returned by the [k]-th call of
    [np.random.uniform(0, max_perpendicular_baseline)]. *)
Variable rng : nat -> Q.
Variable max_temporal_baseline : Z.
Variable max_perpendicular_baseline : Q.

(** One iteration of the inner loop; the state is the number of random
    draws made so far and the list [self.pairs]. *)
Definition consider_pair (ds : list Z) (i j : nat)
    (st : nat * list pair) : nat * list pair :=
  let '(c, ps) := st in
  let tb := (nth j ds 0 - nth i ds 0)%Z in
  if (max_temporal_baseline <? tb)%Z then st
  else
    let perp := rng c in
    if negb (Qle_bool perp max_perpendicular_baseline) then (S c, ps)
    else (S c, ps ++ [mk_pair i j tb perp]).

Definition inner_loop (ds : list Z) (n i : nat)
    (st : nat * list pair) : nat * list pair :=
  fold_left (fun st j => consider_pair ds i j st) (seq (S i) (n - S i)) st.

Definition outer_loop (ds : list Z) (n : nat)
    (st : nat * list pair) : nat * list pair :=
  fold_left (fun st i => inner_loop ds n i st) (seq 0 n) st.

(** The returned dictionary ([inl e] is [{"status": "error", ...}]) and
    the object after the call. *)
Definition build_network (self : t) : result network_info * t :=
  let '(_, ps) := outer_loop (dates self) (n_dates self) (O, []) in
  let self' := {| dates := dates self;
                  baseline_threshold := baseline_threshold self;
                  pairs := ps |} in
  ((conn <- check_connectivity self' ;;
    ret {| info_n_dates := n_dates self';
           info_n_pairs := List.length ps;
           info_pairs := ps;
           info_connectivity := conn |})%result,
   self').
End Build.

(** *** [get_design_matrix] *)

(** [for m in range(i, j): A[k, m] = (dates[m + 1] - dates[m]).days] *)
Fixpoint fill_row (ds : list Z) (A : list (list Z)) (k : nat)
    (ms : list nat) : result (list (list Z)) :=
  match ms with
  | [] => ret A
  | m :: ms' =>
      (d1 <- of_option IndexError (nth_error ds (S m)) ;;
       d0 <- of_option IndexError (nth_error ds m) ;;
       A' <- of_option IndexError (set_nth2 A k m (d1 - d0)%Z) ;;
       fill_row ds A' k ms')%result
  end.

(** [for k, pair in enumerate(self.pairs)] *)
Fixpoint fill_rows (ds : list Z) (A : list (list Z)) (k : nat)
    (ps : list pair) : result (list (list Z)) :=
  match ps with
  | [] => ret A
  | p :: ps' =>
      let i := master_idx p in
      let j := slave_idx p in
      (A' <- fill_row ds A k (seq i (j - i)) ;;
       fill_rows ds A' (S k) ps')%result
  end.

Definition get_design_matrix (self : t) : result (list (list Z)) :=
  let n_pairs := List.length (pairs self) in
  match n_dates self with
  | O => raise ValueError (* [np.zeros] with a negative dimension *)
  | S n_unknowns =>
      fill_rows (dates self) (repeat (repeat 0%Z n_unknowns) n_pairs)
        0 (pairs self)
  end.

End SBASNetwork.

Import SBASNetwork.

Definition spec_dates : list string :=
  ["2023-01-01"; "2023-02-01"; "2023-03-01"]%string.

Definition idx (p : pair) : nat * nat := (master_idx p, slave_idx p).

(** ** Floating-point values with their special values *)

Inductive fl : Type :=
| Fin (r : R)
| Inf (negative : bool)
| NaN.

Definition is_nan (x : fl) : bool :=
  match x with NaN => true | _ => false end.

Definition Rneg (r : R) : bool := if Rlt_dec r 0 then true else false.
Definition Rzero (r : R) : bool := if Req_EM_T r 0 then true else false.

Definition fadd (x y : fl) : fl :=
  match x, y with
  | NaN, _ | _, NaN => NaN
  | Fin a, Fin b => Fin (a + b)
  | Inf s, Fin _ | Fin _, Inf s => Inf s
  | Inf s, Inf s' => if Bool.eqb s s' then Inf s else NaN
  end.

Definition fopp (x : fl) : fl :=
  match x with
  | Fin a => Fin (- a)
  | Inf s => Inf (negb s)
  | NaN => NaN
  end.

Definition fsub (x y : fl) : fl := fadd x (fopp y).

Definition fmul (x y : fl) : fl :=
  match x, y with
  | NaN, _ | _, NaN => NaN
  | Fin a, Fin b => Fin (a * b)
  | Inf s, Fin b | Fin b, Inf s =>
      if Rzero b then NaN else Inf (xorb s (Rneg b))
  | Inf s, Inf s' => Inf (xorb s s')
  end.

Definition fdiv (x y : fl) : fl :=
  match x, y with
  | NaN, _ | _, NaN => NaN
  | Fin a, Fin b =>
      if Rzero b then (if Rzero a then NaN else Inf (Rneg a))
      else Fin (a / b)
  | Fin _, Inf _ => Fin 0
  | Inf s, Fin b => Inf (xorb s (Rneg b))
  | Inf _, Inf _ => NaN
  end.

Definition fsqrt (x : fl) : fl :=
  match x with
  | Fin a => if Rneg a then NaN else Fin (sqrt a)
  | Inf false => Inf false
  | Inf true => NaN
  | NaN => NaN
  end.

(** [x ** 2] *)
Definition fsquare (x : fl) : fl := fmul x x.

Definition of_int (z : Z) : fl := Fin (IZR z).

Definition fsum (l : list fl) : fl := fold_left fadd l (Fin 0).

(** ** [SBASInversion] *)

Module SBASInversion.

(** An [ndarray] of two or three dimensions: its shape and its cells. *)
Record array2 : Type := mk_array2 {
  rows2 : nat;
  cols2 : nat;
  cell2 : nat -> nat -> fl
}.

Record array3 : Type := mk_array3 {
  len3 : nat;
  rows3 : nat;
  cols3 : nat;
  cell3 : nat -> nat -> nat -> fl
}.

Definition zeros2 (h w : nat) : array2 := mk_array2 h w (fun _ _ => Fin 0).
Definition zeros3 (n h w : nat) : array3 :=
  mk_array3 n h w (fun _ _ _ => Fin 0).

(** [a[i, j] = v] *)
Definition write2 (a : array2) (i j : nat) (v : fl) : result array2 :=
  if (i <? rows2 a)%nat && (j <? cols2 a)%nat then
    ret (mk_array2 (rows2 a) (cols2 a)
           (fun i' j' => if Nat.eqb i' i && Nat.eqb j' j then v
                         else cell2 a i' j'))
  else raise IndexError.

(** [a[k, i, j] = v] *)
Definition write3 (a : array3) (k i j : nat) (v : fl) : result array3 :=
  if (k <? len3 a)%nat && (i <? rows3 a)%nat && (j <? cols3 a)%nat then
    ret (mk_array3 (len3 a) (rows3 a) (cols3 a)
           (fun k' i' j' =>
              if Nat.eqb k' k && Nat.eqb i' i && Nat.eqb j' j then v
              else cell3 a k' i' j'))
  else raise IndexError.

(** [a[k, i, j]] *)
Definition read3 (a : array3) (k i j : nat) : result fl :=
  if (k <? len3 a)%nat && (i <? rows3 a)%nat && (j <? cols3 a)%nat
  then ret (cell3 a k i j) else raise IndexError.

(** [a[:, i, j]] *)
Definition column3 (a : array3) (i j : nat) : result (list fl) :=
  if (i <? rows3 a)%nat && (j <? cols3 a)%nat
  then ret (map (fun k => cell3 a k i j) (seq 0 (len3 a)))
  else raise IndexError.

(** [l[mask]] for a boolean mask. *)
Fixpoint select {A} (l : list A) (mask : list bool) : list A :=
  match l, mask with
  | x :: l', b :: mask' => if b then x :: select l' mask' else select l' mask'
  | _, _ => []
  end.

Definition masked {A} (l : list A) (mask : list bool) : result (list A) :=
  if Nat.eqb (List.length l) (List.length mask) then ret (select l mask)
  else raise IndexError.

(** [np.diag], [np.eye], matrix products on lists of rows. *)
Definition diag (d : list fl) : list (list fl) :=
  map (fun i => map (fun j => if Nat.eqb i j then nth i d NaN else Fin 0)
                 (seq 0 (List.length d)))
      (seq 0 (List.length d)).

Definition eye (n : nat) : list (list fl) :=
  map (fun i => map (fun j => if Nat.eqb i j then Fin 1 else Fin 0) (seq 0 n))
      (seq 0 n).

Definition dot (u v : list fl) : fl := fsum (map (fun p => fmul (fst p) (snd p)) (combine u v)).

Definition matvec (M : list (list fl)) (v : list fl) : list fl :=
  map (fun row => dot row v) M.

Definition col (M : list (list fl)) (j : nat) : list fl :=
  map (fun row => nth j row NaN) M.

(** [W @ M] where [M] has [c] columns. *)
Definition matmul (W M : list (list fl)) (c : nat) : list (list fl) :=
  map (fun wrow => map (fun j => dot wrow (col M j)) (seq 0 c)) W.

Definition scale (x : fl) (M : list (list fl)) : list (list fl) :=
  map (map (fmul x)) M.

(** The object: the network and the design matrix computed by
    [__init__]. *)
Record t : Type := mk {
  network : SBASNetwork.t;
  design_matrix : list (list Z)
}.

Definition init (net : SBASNetwork.t) : result t :=
  (A <- get_design_matrix net ;;
   ret {| network := net; design_matrix := A |})%result.

(** [A.shape[1]] *)
Definition n_unknowns (self : t) : nat := (n_dates (network self) - 1)%nat.

Record outputs : Type := mk_outputs {
  velocity : array2;
  displacement_ts : array3;
  residual : array2
}.

Section Invert.
(** [np.linalg.lstsq(A, b, rcond=None)[0]]; [inl] is a raised
    [LinAlgError]. *)
Variable lstsq : list (list fl) -> list fl -> result (list fl).

Variable self : t.
Variable unwrapped_phases : array3.
Variable coherence_stack : option array3.
Variable regularization : fl.

(** [for k in range(len(v)):
       displacement_ts[k + 1, i, j] = displacement_ts[k, i, j] + v[k]];
    the array as far as it was written, and the exception if one was
    raised. *)
Fixpoint accumulate (i j : nat) (v : list fl) (k : nat) (d : array3)
  : array3 * option exn :=
  match v with
  | [] => (d, None)
  | vk :: v' =>
      match read3 d k i j with
      | inl e => (d, Some e)
      | inr x =>
          match write3 d (S k) i j (fadd x vk) with
          | inl e => (d, Some e)
          | inr d' => accumulate i j v' (S k) d'
          end
      end
  end.

(** The body of the inner [try], run on the outputs [st]: the outputs as
    far as they were written, and the exception if one was raised. *)
Definition solve (i j : nat) (A_valid : list (list fl)) (b_valid : list fl)
    (A_weighted : list (list fl)) (b_weighted : list fl) (st : outputs)
  : outputs * option exn :=
  match lstsq A_weighted b_weighted with
  | inl e => (st, Some e)
  | inr v =>
      match write3 (displacement_ts st) 0 i j (Fin 0) with
      | inl e => (st, Some e)
      | inr d0 =>
          let '(d1, e1) := accumulate i j v 0 d0 in
          let st1 := mk_outputs (velocity st) d1 (residual st) in
          match e1 with
          | Some e => (st1, Some e)
          | None =>
              let ds := dates (network self) in
              let total_days :=
                (nth (List.length ds - 1) ds 0 - nth 0 ds 0)%Z in
              match read3 d1 (len3 d1 - 1) i j with
              | inl e => (st1, Some e)
              | inr last =>
                  match write2 (velocity st1) i j
                          (fmul (fdiv last (of_int total_days))
                                (of_int 365)) with
                  | inl e => (st1, Some e)
                  | inr vel =>
                      let st2 := mk_outputs vel d1 (residual st1) in
                      if negb (Nat.eqb (n_unknowns self) (List.length v))
                      then (st2, Some ValueError)
                      else
                        let misfit :=
                          map (fun p => fsquare (fsub (fst p) (snd p)))
                              (combine (matvec A_valid v) b_valid) in
                        let rms :=
                          fsqrt (fdiv (fsum misfit)
                                   (of_int (Z.of_nat (List.length misfit)))) in
                        match write2 (residual st2) i j rms with
                        | inl e => (st2, Some e)
                        | inr res => (mk_outputs vel d1 res, None)
                        end
                  end
              end
          end
      end
  end.

(** One iteration of the pixel loop. *)
Definition pixel (ij : nat * nat) (st : outputs) : result outputs :=
  let '(i, j) := ij in
  let n_pairs := len3 unwrapped_phases in
  (phase_values <- column3 unwrapped_phases i j ;;
   let valid_mask := map (fun x => negb (is_nan x)) phase_values in
   if (count_true valid_mask <? 3)%nat then
     vel <- write2 (velocity st) i j NaN ;;
     ret (mk_outputs vel (displacement_ts st) (residual st))
   else
     weights <- match coherence_stack with
                | Some c => (w <- column3 c i j ;; ret (map fsquare w))
                | None => ret (repeat (Fin 1) n_pairs)
                end ;;
     w_valid <- masked weights valid_mask ;;
     let W := diag (map fsqrt w_valid) in
     A_valid <- masked (map (map of_int) (design_matrix self)) valid_mask ;;
     b_valid <- masked phase_values valid_mask ;;
     let c := n_unknowns self in
     let A_weighted := matmul W A_valid c ++ scale regularization (eye c) in
     let b_weighted := matvec W b_valid ++ repeat (Fin 0) c in
     match solve i j A_valid b_valid A_weighted b_weighted st with
     | (st', None) => ret st'
     | (st', Some _) =>
         vel <- write2 (velocity st') i j NaN ;;
         ret (mk_outputs vel (displacement_ts st') (residual st'))
     end)%result.

Fixpoint pixel_loop (pixels : list (nat * nat)) (st : outputs)
  : result outputs :=
  match pixels with
  | [] => ret st
  | ij :: rest => (st' <- pixel ij st ;; pixel_loop rest st')%result
  end.

(** [for i in range(height): for j in range(width)] *)
Definition pixel_order (height width : nat) : list (nat * nat) :=
  flat_map (fun i => map (fun j => (i, j)) (seq 0 width)) (seq 0 height).

(** [invert_velocity]; [inl e] is the returned [{"status": "error"}].
    The array [A_reg], which is built and never read, is left out; so is
    the [statistics] entry, apart from the [ValueError] that [np.nanmin]
    raises on an array without cells. *)
Definition invert_velocity : result outputs :=
  let n_pairs := len3 unwrapped_phases in
  let height := rows3 unwrapped_phases in
  let width := cols3 unwrapped_phases in
  let n_dates := n_dates (network self) in
  let st0 := mk_outputs (zeros2 height width) (zeros3 n_dates height width)
               (zeros2 height width) in
  (st <- pixel_loop (pixel_order height width) st0 ;;
   if Nat.eqb (height * width) 0 then raise ValueError else ret st)%result.

End Invert.

End SBASInversion.

(** ** Complex numbers and phase wrapping *)

Open Scope R_scope.

Record C : Type := mkC { re : R; im : R }.

Definition C_of_R (x : R) : C := mkC x 0.
Definition Ci : C := mkC 0 1.
Definition Cadd (a b : C) : C := mkC (re a + re b) (im a + im b).
Definition Csub (a b : C) : C := mkC (re a - re b) (im a - im b).
Definition Cmul (a b : C) : C :=
  mkC (re a * re b - im a * im b) (re a * im b + im a * re b).
Definition Cconj (a : C) : C := mkC (re a) (- im a).
Definition Cabs (a : C) : R := sqrt (re a * re a + im a * im a).
Definition Cscale (x : R) (a : C) : C := mkC (x * re a) (x * im a).

(** [np.exp] on a complex argument. *)
Definition Cexp (a : C) : C :=
  mkC (exp (re a) * cos (im a)) (exp (re a) * sin (im a)).

(** [np.arctan2(y, x)] on finite arguments. *)
Definition atan2 (y x : R) : R :=
  if Rlt_dec 0 x then atan (y / x)
  else if Rlt_dec x 0 then
    (if Rle_dec 0 y then atan (y / x) + PI else atan (y / x) - PI)
  else if Rlt_dec 0 y then PI / 2
  else if Rlt_dec y 0 then - (PI / 2)
  else 0.

(** [np.angle] *)
Definition angle (a : C) : R := atan2 (im a) (re a).

(** [np.angle(np.exp(1j * x))] *)
Definition wrap (x : R) : R := angle (Cexp (Cmul Ci (C_of_R x))).

(** [np.round]: the nearest integer, ties to the even one. *)
Definition np_round (x : R) : Z :=
  let f := (up x - 1)%Z in
  let d := x - IZR f in
  if Rlt_dec d (1 / 2) then f
  else if Rlt_dec (1 / 2) d then (f + 1)%Z
  else if Z.even f then f else (f + 1)%Z.

(** Index extension of [scipy.ndimage] in mode ['reflect']
    ([d c b a | a b c d | d c b a]) for an axis of length [n]. *)
Definition reflect (n : nat) (k : Z) : nat :=
  let m := (k mod (2 * Z.of_nat n))%Z in
  Z.to_nat (if (m <? Z.of_nat n)%Z then m else (2 * Z.of_nat n - 1 - m)%Z).

Definition Rsum (l : list R) : R := fold_right Rplus 0 l.

(** ** [SNAPHUUnwrapper._mcf_unwrap] *)

Module SNAPHUUnwrapper.

(** The cells of a real-valued raster; its shape [(height, width)] is passed
    along, and both input rasters have that shape. *)
Definition grid : Type := nat -> nat -> R.

Definition upd (u : grid) (i j : nat) (v : R) : grid :=
  fun i' j' => if Nat.eqb i' i && Nat.eqb j' j then v else u i' j'.

(** [dx[:, 1:] = phase[:, 1:] - phase[:, :-1]] on zeros, then wrapped. *)
Definition grad_x (phase : grid) : grid :=
  fun i j => wrap (match j with
                   | O => 0
                   | S j' => phase i j - phase i j'
                   end).

(** [dy[1:, :] = phase[1:, :] - phase[:-1, :]] on zeros, then wrapped. *)
Definition grad_y (phase : grid) : grid :=
  fun i j => wrap (match i with
                   | O => 0
                   | S i' => phase i j - phase i' j
                   end).

(** [for j in range(1, width): unwrapped[i, j] = unwrapped[i, j-1] + dx[i, j]] *)
Definition row_sweep (width : nat) (dx : grid) (i : nat) (u : grid) : grid :=
  fold_left (fun u j => upd u i j (u i (j - 1)%nat + dx i j))
    (seq 1 (width - 1)) u.

Definition integrate_rows (height width : nat) (dx : grid) (u : grid) : grid :=
  fold_left (fun u i => row_sweep width dx i u) (seq 0 height) u.

(** The body of the column-wise adjustment. *)
Definition adjust (dy : grid) (i j : nat) (u : grid) : grid :=
  let adjustment := dy i j - (u i j - u (i - 1)%nat j) in
  let adjustment := IZR (np_round (adjustment / (2 * PI))) * 2 * PI in
  upd u i j (u i j + adjustment).

Definition col_sweep (height : nat) (dy : grid) (j : nat) (u : grid) : grid :=
  fold_left (fun u i => adjust dy i j u) (seq 1 (height - 1)) u.

Definition adjust_cols (height width : nat) (dy : grid) (u : grid) : grid :=
  fold_left (fun u j => col_sweep height dy j u) (seq 0 width) u.

(** Steps 1 to 3: the integrated estimate that enters the blend. *)
Definition integrated (height width : nat) (phase : grid) : grid :=
  adjust_cols height width (grad_y phase)
    (integrate_rows height width (grad_x phase) (fun _ _ => 0)).

(** [ndimage.convolve(f, np.ones((3, 3)) / 9)] at pixel [(i, j)]. *)
Definition convolve3 (height width : nat) (f : grid) (i j : nat) : R :=
  Rsum (map (fun a =>
          Rsum (map (fun b =>
                  f (reflect height (Z.of_nat i + a))
                    (reflect width (Z.of_nat j + b)) * (1 / 9))
                  [-1; 0; 1]%Z))
          [-1; 0; 1]%Z).

Definition smoothed (height width : nat) (u weight : grid) (i j : nat) : fl :=
  fdiv (Fin (convolve3 height width (fun i j => u i j * weight i j) i j))
       (Fin (convolve3 height width weight i j)).

(** [unwrapped * (1 - weight) + unwrapped_smooth * weight] *)
Definition blend (u : R) (smooth : fl) (weight : R) : fl :=
  fadd (fmul (Fin u) (Fin (1 - weight))) (fmul smooth (Fin weight)).

Definition mcf_unwrap (height width : nat) (wrapped_phase coherence : grid)
  : nat -> nat -> fl :=
  let weight : grid := fun i j => coherence i j * coherence i j in
  let u := integrated height width wrapped_phase in
  fun i j => blend (u i j) (smoothed height width u weight i j) (weight i j).

End SNAPHUUnwrapper.

Close Scope R_scope.

(** ** [SARProcessor]: coherence and coregistration *)

Module SARProcessor.

Open Scope R_scope.

(** A complex raster: its shape and its cells. *)
Record carray : Type := mk_carray {
  nrows : nat;
  ncols : nat;
  at_ : nat -> nat -> C
}.

(** A real raster. *)
Record rarray : Type := mk_rarray {
  rrows : nat;
  rcols : nat;
  rat : nat -> nat -> R
}.

(** *** [_compute_coherence] *)

(** [scipy.ndimage.uniform_filter1d] along a line of length [n], mode
    ['reflect'], origin 0: the mean over the window that starts [size // 2]
    samples before the pixel.  (On its own it raises for a size below 1;
    [uniform_filter] calls it for sizes above 1 only.) *)
Definition uniform_filter1d (n size : nat) (line : nat -> R) (l : nat) : R :=
  Rsum (map (fun k => line (reflect n (Z.of_nat l - Z.of_nat (size / 2)
                                       + Z.of_nat k)))
          (seq 0 size))
  / INR size.

(** [scipy.ndimage.uniform_filter] with one [size] for both axes.  An axis
    is filtered only when its size exceeds 1, so a size of 0 or 1 returns
    the input as it is; otherwise the one-dimensional filter runs along
    axis 0, then along axis 1. *)
Definition uniform_filter (h w size : nat) (f : nat -> nat -> R)
  : nat -> nat -> R :=
  if (size <=? 1)%nat then f
  else
    let g := fun i j => uniform_filter1d h size (fun i' => f i' j) i in
    fun i j => uniform_filter1d w size (fun j' => g i j') j.

(** On complex input the real and imaginary parts are filtered
    separately. *)
Definition uniform_filter_complex (h w size : nat) (f : nat -> nat -> C)
  : nat -> nat -> C :=
  fun i j => mkC (uniform_filter h w size (fun i j => re (f i j)) i j)
                 (uniform_filter h w size (fun i j => im (f i j)) i j).

Section Coherence.
Variables (h w : nat) (ref sec : nat -> nat -> C) (window_size : nat).

Definition numerator : nat -> nat -> R :=
  fun i j =>
    Cabs (uniform_filter_complex h w window_size
            (fun i j => Cmul (Cconj (ref i j)) (sec i j)) i j).

Definition denominator : nat -> nat -> R :=
  fun i j =>
    sqrt (uniform_filter h w window_size
            (fun i j => Cabs (ref i j) * Cabs (ref i j)) i j
          * uniform_filter h w window_size
              (fun i j => Cabs (sec i j) * Cabs (sec i j)) i j).

(** [np.clip(x, 0, 1)] *)
Definition clip01 (x : R) : R := Rmin (Rmax x 0) 1.

(** [_compute_coherence(ref, sec, window_size)] for two rasters of shape
    [(h, w)]. *)
Definition compute_coherence : nat -> nat -> R :=
  fun i j =>
    clip01 (if Req_EM_T (denominator i j) 0 then 0
            else numerator i j / denominator i j).
End Coherence.

(** *** [_estimate_offset], [_apply_offset], [coregister_slc] *)

Definition Csum (l : list C) : C := fold_right Cadd (mkC 0 0) l.

(** [exp(1j * t)] *)
Definition cis (t : R) : C := mkC (cos t) (sin t).

(** The two-dimensional discrete Fourier sum of [x] over [h] x [w] samples
    with sign [sgn] in the exponent. *)
Definition fourier_sum (sgn : R) (h w : nat) (x : nat -> nat -> C)
    (k l : nat) : C :=
  Csum (map (fun m =>
          Csum (map (fun n =>
                  Cmul (x m n)
                       (cis (sgn * (2 * PI * (INR k * INR m / INR h
                                             + INR l * INR n / INR w)))))
                  (seq 0 w)))
          (seq 0 h)).

(** [scipy.fftpack.fft2]; it raises [ValueError] on an empty array. *)
Definition fft2 (a : carray) : result carray :=
  if Nat.eqb (nrows a) 0 || Nat.eqb (ncols a) 0 then raise ValueError
  else ret (mk_carray (nrows a) (ncols a)
              (fourier_sum (-1) (nrows a) (ncols a) (at_ a))).

(** [scipy.fftpack.ifft2] *)
Definition ifft2 (a : carray) : result carray :=
  if Nat.eqb (nrows a) 0 || Nat.eqb (ncols a) 0 then raise ValueError
  else ret (mk_carray (nrows a) (ncols a)
              (fun k l => Cscale (/ (INR (nrows a) * INR (ncols a)))
                            (fourier_sum 1 (nrows a) (ncols a) (at_ a) k l))).

(** [a[:n, :n]] *)
Definition window (n : nat) (a : carray) : carray :=
  mk_carray (Nat.min (nrows a) n) (Nat.min (ncols a) n) (at_ a).

(** numpy broadcasting of two axis lengths. *)
Definition broadcast_dim (a b : nat) : option nat :=
  if Nat.eqb a b then Some a
  else if Nat.eqb a 1 then Some b
  else if Nat.eqb b 1 then Some a
  else None.

Definition bat (a : carray) (i j : nat) : C :=
  at_ a (if Nat.eqb (nrows a) 1 then O else i)
        (if Nat.eqb (ncols a) 1 then O else j).

(** An element-wise binary operation on two arrays; [ValueError] when the
    shapes cannot be broadcast together. *)
Definition broadcast2 (f : C -> C -> C) (a b : carray) : result carray :=
  match broadcast_dim (nrows a) (nrows b),
        broadcast_dim (ncols a) (ncols b) with
  | Some r, Some c => ret (mk_carray r c (fun i j => f (bat a i j) (bat b i j)))
  | _, _ => raise ValueError
  end.

Definition conj_array (a : carray) : carray :=
  mk_carray (nrows a) (ncols a) (fun i j => Cconj (at_ a i j)).

Definition abs_array (a : carray) : rarray :=
  mk_rarray (nrows a) (ncols a) (fun i j => Cabs (at_ a i j)).

(** The cells of an array in row-major order. *)
Definition flatten (a : rarray) : list R :=
  flat_map (fun i => map (fun j => rat a i j) (seq 0 (rcols a)))
    (seq 0 (rrows a)).

(** [np.argmax] on a list that starts with [best] at position [best_i]:
    the first position of the largest value. *)
Fixpoint argmax_from (l : list R) (i best_i : nat) (best : R) : nat :=
  match l with
  | [] => best_i
  | x :: l' =>
      if Rlt_dec best x then argmax_from l' (S i) i x
      else argmax_from l' (S i) best_i best
  end.

Definition argmax (l : list R) : result nat :=
  match l with
  | [] => raise ValueError
  | x :: l' => ret (argmax_from l' 1 0 x)
  end.

Definition Rmax_list (l : list R) : R :=
  match l with
  | [] => 0
  | x :: l' => fold_left Rmax l' x
  end.

(** [p if p < window_size // 2 else p - window_size] *)
Definition signed (window_size p : nat) : Z :=
  if (p <? window_size / 2)%nat then Z.of_nat p
  else (Z.of_nat p - Z.of_nat window_size)%Z.

Record offset : Type := mk_offset {
  offset_row : Z;
  offset_col : Z;
  correlation : fl
}.

(** The correlation surface of [_estimate_offset]:
    [np.abs(ifft2(fft2(ref[:n, :n]) * np.conj(fft2(sec[:n, :n]))))]. *)
Definition cross_correlation (ref sec : carray) (window_size : nat)
  : result rarray :=
  (ref_fft <- fft2 (window window_size ref) ;;
   sec_fft <- fft2 (window window_size sec) ;;
   prod <- broadcast2 Cmul ref_fft (conj_array sec_fft) ;;
   corr <- ifft2 prod ;;
   ret (abs_array corr))%result.

Definition estimate_offset (ref sec : carray) (window_size : nat)
  : result offset :=
  (cross_corr <- cross_correlation ref sec window_size ;;
   let cells := flatten cross_corr in
   peak <- argmax cells ;;
   let peak_row := (peak / rcols cross_corr)%nat in
   let peak_col := (peak mod rcols cross_corr)%nat in
   ret {| offset_row := signed window_size peak_row;
          offset_col := signed window_size peak_col;
          correlation := fdiv (Fin (Rmax_list cells))
                              (Fin (Rsum (map Rabs cells))) |})%result.

(** [np.roll(data, (offset_row, offset_col), axis=(0, 1))] *)
Definition apply_offset (data : carray) (offset_row offset_col : Z) : carray :=
  mk_carray (nrows data) (ncols data)
    (fun i j =>
       at_ data
         (Z.to_nat ((Z.of_nat i - offset_row) mod Z.of_nat (nrows data)))
         (Z.to_nat ((Z.of_nat j - offset_col) mod Z.of_nat (ncols data)))).

(** [_compute_rms_error]: [sqrt(mean(abs(ref - sec) ** 2))]. *)
Definition compute_rms_error (ref sec : carray) : result fl :=
  (d <- broadcast2 Csub ref sec ;;
   let sq := flatten (mk_rarray (nrows d) (ncols d)
                        (fun i j => Cabs (at_ d i j) * Cabs (at_ d i j))) in
   ret (fsqrt (fdiv (Fin (Rsum sq)) (of_int (Z.of_nat (List.length sq))))))%result.



(** *** [_wrap_phase], [_mcf_unwrap], [_compute_residuals], [unwrap_phase] *)

(** [_wrap_phase]: [np.angle(np.exp(1j * phase))]. *)
Definition wrap_phase (phase : R) : R :=
  angle (Cexp (Cmul Ci (C_of_R phase))).

(** [np.zeros_like] *)
Definition zeros_like (a : rarray) : rarray :=
  mk_rarray (rrows a) (rcols a) (fun _ _ => 0).

(** [a[i, j] = v] at an index in range. *)
Definition rset (a : rarray) (i j : nat) (v : R) : rarray :=
  mk_rarray (rrows a) (rcols a)
    (fun i' j' => if Nat.eqb i' i && Nat.eqb j' j then v else rat a i' j').

(** The body of the two loops of [_mcf_unwrap]. *)
Definition integrate_cell (phase : rarray) (i j : nat) (unwrapped : rarray)
  : rarray :=
  let phase_diff := rat phase i j - rat phase (i - 1) j in
  rset unwrapped i j (rat unwrapped (i - 1) j + wrap_phase phase_diff).

(** [_mcf_unwrap].  The residues that the source computes first are never
    read, and computing them raises nothing; the coherence is not read
    either. *)
Definition mcf_unwrap (phase coherence : rarray) : rarray :=
  fold_left
    (fun unwrapped i =>
       fold_left (fun unwrapped j => integrate_cell phase i j unwrapped)
         (seq 1 (rcols phase - 1)) unwrapped)
    (seq 1 (rrows phase - 1)) (zeros_like phase).

(** [_snaphu_unwrap] *)
Definition snaphu_unwrap (phase coherence : rarray) : rarray :=
  mcf_unwrap phase coherence.

Definition rbat (a : rarray) (i j : nat) : R :=
  rat a (if Nat.eqb (rrows a) 1 then O else i)
        (if Nat.eqb (rcols a) 1 then O else j).

(** [_compute_residuals]: [_wrap_phase(wrapped - unwrapped)], cell by
    cell. *)
Definition compute_residuals (wrapped unwrapped : rarray) : result rarray :=
  match broadcast_dim (rrows wrapped) (rrows unwrapped),
        broadcast_dim (rcols wrapped) (rcols unwrapped) with
  | Some r, Some c =>
      ret (mk_rarray r c
             (fun i j => wrap_phase (rbat wrapped i j - rbat unwrapped i j)))
  | _, _ => raise ValueError
  end.

(** What [unwrap_phase] has computed when it returns: the raster it saves,
    the residuals, and the [mean_residual] of its report. *)
Record unwrapping : Type := mk_unwrapping {
  unwrapped_phase : rarray;
  residuals : rarray;
  mean_residual : fl
}.

(** [unwrap_phase] on the two loaded rasters; [inl e] is the returned
    [{"status": "error", ...}]. *)
Definition unwrap_phase (phase_data coh_data : rarray) (method : string)
  : result unwrapping :=
  (unwrapped <- (if String.eqb method "mcf"
                 then ret (mcf_unwrap phase_data coh_data)
                 else if String.eqb method "snaphu"
                 then ret (snaphu_unwrap phase_data coh_data)
                 else raise ValueError) ;;
   res <- compute_residuals phase_data unwrapped ;;
   let cells := map Rabs (flatten res) in
   ret {| unwrapped_phase := unwrapped;
          residuals := res;
          mean_residual :=
            fdiv (Fin (Rsum cells))
                 (of_int (Z.of_nat (List.length cells))) |})%result.

(** *** [generate_interferogram] *)

(** [interferogram = np.conj(ref_data) * sec_data] *)
Definition interferogram (ref_data sec_data : carray) : result carray :=
  broadcast2 Cmul (conj_array ref_data) sec_data.

(** [np.angle] on a floating-point value.  Where the imaginary part is zero
    and the real part is not positive, the result depends on the signs of
    the zeros, which a real number does not carry: [re_neg] and [im_neg]
    are the sign bits of the real and of the imaginary part there.  On the
    negative real axis the result is [-pi] for a negative zero and [pi] for
    a positive one; at zero it is 0 when the real part is a positive zero,
    and as on the negative real axis otherwise. *)
Definition angle_signed (re_neg im_neg : bool) (a : C) : R :=
  if Req_EM_T (im a) 0 then
    if Rlt_dec 0 (re a) then 0
    else if Rlt_dec (re a) 0 then (if im_neg then - PI else PI)
    else if re_neg then (if im_neg then - PI else PI) else 0
  else angle a.

(** [phase = np.angle(interferogram)] and
    [amplitude = np.abs(interferogram)]; [re_neg i j] and [im_neg i j] are
    the sign bits of the two parts of the product at pixel [(i, j)]. *)
Definition interferogram_phase (re_neg im_neg : nat -> nat -> bool)
    (ifg : carray) : rarray :=
  mk_rarray (nrows ifg) (ncols ifg)
    (fun i j => angle_signed (re_neg i j) (im_neg i j) (at_ ifg i j)).

Definition interferogram_amplitude (ifg : carray) : rarray :=
  abs_array ifg.

(** *** [_topographic_correction] *)



Close Scope R_scope.

End SARProcessor.

(** ** [SNAPHUUnwrapper._mst_unwrap] *)

Module MSTUnwrapper.

Import SNAPHUUnwrapper SARProcessor.

Open Scope R_scope.

(** [visited[i, j] = True] *)
Definition mark (visited : nat -> nat -> bool) (i j : nat)
  : nat -> nat -> bool :=
  fun i' j' => if Nat.eqb i' i && Nat.eqb j' j then true else visited i' j'.

(** The variables of the traversal. *)
Record state : Type := mk_state {
  unwrapped : grid;
  visited : nat -> nat -> bool;
  queue : list (nat * nat)
}.

Definition neighbors : list (Z * Z) := [(-1, 0); (1, 0); (0, -1); (0, 1)]%Z.

(** The body of [for di, dj in neighbors] at the pixel [(i, j)]. *)
Definition visit (height width : nat) (wrapped_phase : grid) (i j : nat)
    (st : state) (d : Z * Z) : state :=
  let ni := (Z.of_nat i + fst d)%Z in
  let nj := (Z.of_nat j + snd d)%Z in
  if (0 <=? ni)%Z && (ni <? Z.of_nat height)%Z
     && (0 <=? nj)%Z && (nj <? Z.of_nat width)%Z
     && negb (visited st (Z.to_nat ni) (Z.to_nat nj))
  then
    let ni := Z.to_nat ni in
    let nj := Z.to_nat nj in
    let phase_diff := wrap (wrapped_phase ni nj - wrapped_phase i j) in
    {| unwrapped := upd (unwrapped st) ni nj (unwrapped st i j + phase_diff);
       visited := mark (visited st) ni nj;
       queue := queue st ++ [(ni, nj)] |}
  else st.

(** The [while queue] loop; [fuel] bounds the number of iterations and
    [None] means the bound was too small. *)
Fixpoint bfs (fuel : nat) (height width : nat) (wrapped_phase : grid)
    (st : state) : option state :=
  match queue st with
  | [] => Some st
  | (i, j) :: rest =>
      match fuel with
      | O => None
      | S fuel' =>
          bfs fuel' height width wrapped_phase
            (fold_left (visit height width wrapped_phase i j) neighbors
               {| unwrapped := unwrapped st;
                  visited := visited st;
                  queue := rest |})
      end
  end.

(** [_mst_unwrap] on two rasters of shape [(height, width)];
    [np.argmax] raises [ValueError] on an empty raster.  Every pixel enters
    the queue at most once, so [height * width + 1] iterations always
    suffice and the [None] branch is never taken. *)
Definition mst_unwrap (height width : nat) (wrapped_phase coherence : grid)
  : result grid :=
  (start <- argmax (flatten (mk_rarray height width coherence)) ;;
   let si := (start / width)%nat in
   let sj := (start mod width)%nat in
   let st0 := {| unwrapped := upd (fun _ _ => 0) si sj (wrapped_phase si sj);
                 visited := mark (fun _ _ => false) si sj;
                 queue := [(si, sj)] |} in
   match bfs (height * width + 1) height width wrapped_phase st0 with
   | Some st => ret (unwrapped st)
   | None => ret (unwrapped st0)
   end)%result.

Close Scope R_scope.

End MSTUnwrapper.

(** ** [SNAPHUQualityAssessment.assess_quality] *)

Module SNAPHUQualityAssessment.

Import SARProcessor.

Open Scope R_scope.

(** The cells of a real raster of shape [(height, width)], in row-major
    order; the three input rasters have that shape and hold finite
    values. *)
Definition cells (height width : nat) (f : nat -> nat -> R) : list R :=
  flatten (mk_rarray height width f).

(** [x < y] on floating-point values; a comparison with NaN is false. *)
Definition fl_lt (x y : fl) : bool :=
  match x, y with
  | Fin a, Fin b => if Rlt_dec a b then true else false
  | Inf true, Fin _ | Inf true, Inf false | Fin _, Inf false => true
  | _, _ => false
  end.

(** Python's built-in [min(a, x)] and [max(a, x)]: the first argument is
    kept unless the second one compares smaller (larger). *)
Definition py_min (a x : fl) : fl := if fl_lt x a then x else a.
Definition py_max (a x : fl) : fl := if fl_lt a x then x else a.

Inductive level : Type := good | moderate | poor.

(** The report, without the gradient consistency, which enters neither the
    score nor the level. *)
Record assessment : Type := mk_assessment {
  rmse : fl;
  mae : fl;
  weighted_rmse : fl;
  quality_score : fl;
  quality_level : level
}.

(** [np.nanmean] of finite values. *)
Definition mean (l : list R) : fl :=
  fdiv (Fin (Rsum l)) (of_int (Z.of_nat (List.length l))).

Definition assess_quality (height width : nat)
    (wrapped_phase unwrapped_phase coherence : nat -> nat -> R)
  : assessment :=
  let rewrapped := fun i j => wrap (unwrapped_phase i j) in
  let residual := fun i j => wrap (wrapped_phase i j - rewrapped i j) in
  let rmse :=
    fsqrt (mean (cells height width
                   (fun i j => residual i j * residual i j))) in
  let mae := mean (cells height width (fun i j => Rabs (residual i j))) in
  let weight := fun i j => coherence i j * coherence i j in
  let weighted_rmse :=
    fsqrt (fdiv (Fin (Rsum (cells height width
                              (fun i j => weight i j
                                          * (residual i j * residual i j)))))
                (Fin (Rsum (cells height width weight)))) in
  let quality_score :=
    py_max (Fin 0)
      (py_min (Fin 100)
         (fmul (Fin 100) (fsub (Fin 1) (fdiv weighted_rmse (Fin PI))))) in
  {| rmse := rmse;
     mae := mae;
     weighted_rmse := weighted_rmse;
     quality_score := quality_score;
     quality_level :=
       if fl_lt (Fin 80) quality_score then good
       else if fl_lt (Fin 60) quality_score then moderate
       else poor |}.

Close Scope R_scope.

End SNAPHUQualityAssessment.

(** Two rasters of different shapes, both filled with ones. *)
Definition ones_2x2 : SARProcessor.carray :=
  SARProcessor.mk_carray 2 2 (fun _ _ => mkC 1 0).


(** A raster of shape [(h, w)] that is 1 at its first cell and 0
    elsewhere. *)
Definition impulse (h w : nat) : SARProcessor.carray :=
  SARProcessor.mk_carray h w
    (fun m n => if Nat.eqb m 0 && Nat.eqb n 0 then mkC 1 0 else mkC 0 0).

(** A raster of one row and two columns holding the phases 0 and 1, and a
    raster of full coherence. *)
Definition ramp : SNAPHUUnwrapper.grid :=
  fun _ j => match j with O => 0%R | _ => 1%R end.

Definition full_coherence : SNAPHUUnwrapper.grid := fun _ _ => 1%R.

(** A stack of three unwrapped-phase rasters of one pixel each, of which
    only the last two hold an observation. *)
Definition two_observations : SBASInversion.array3 :=
  SBASInversion.mk_array3 3 1 1
    (fun k _ _ => match k with
                  | O => NaN
                  | S O => Fin 1
                  | _ => Fin 2
                  end).

(** The network of the three example dates (ordinals of 2023-01-01,
    2023-02-01 and 2023-03-01) with all three pairs accepted. *)
Definition example_network : SBASNetwork.t :=
  snd (build_network (fun _ => 75%Q) 365 150%Q
         (of_datetimes [738521; 738552; 738580]%Z 150%Q)).

(** A solver that never converges. *)
Definition failing_lstsq (A : list (list fl)) (b : list fl)
  : result (list fl) := raise LinAlgError.

(** Sum of the entries of a row of an integer-valued array. *)
Definition Zsum (l : list Z) : Z := fold_right Z.add 0%Z l.

(** ** Vocabulary of the properties *)

(** A two-dimensional array of [r] rows and [c] columns. *)
Definition shape {A} (M : list (list A)) (r c : nat) : Prop :=
  List.length M = r /\ forall k, (k < r)%nat -> List.length (nth k M []) = c.

Definition get2 (M : list (list Z)) (k m : nat) : Z := nth m (nth k M []) 0%Z.

(** A pair is well formed for the date list [ds]: its indices are ordered
    and in range, and it records the difference of its two dates. *)
Definition wf_pair (ds : list Z) (p : pair) : Prop :=
  (master_idx p < slave_idx p < List.length ds)%nat /\
  temporal_baseline p = (nth (slave_idx p) ds 0 - nth (master_idx p) ds 0)%Z.

Definition gap (ds : list Z) (m : nat) : Z := (nth (S m) ds 0 - nth m ds 0)%Z.

(** The value the source leaves at row [k'], column [m'] once the rows of
    the pairs [ps] have been written from row [k] on. *)
Definition entry_after (ds : list Z) (ps : list pair) (k k' m' : nat)
    (old : Z) : Z :=
  match nth_error ps (k' - k) with
  | Some p =>
      if (k <=? k')%nat && (master_idx p <=? m')%nat
         && (m' <? slave_idx p)%nat
      then gap ds m' else old
  | None => old
  end.

Definition unvisited (v : list bool) : nat := count_true (map negb v).

(** Number of entries of [unwrapped_phases[:, i, j]] that are not NaN. *)
Definition n_valid (phases : SBASInversion.array3) (i j : nat) : nat :=
  count_true (map (fun k => negb (is_nan (SBASInversion.cell3 phases k i j)))
                (seq 0 (SBASInversion.len3 phases))).

(** Agreement of two output records at one pixel. *)
Definition same_at (i0 j0 : nat) (st st' : SBASInversion.outputs) : Prop :=
  let vel := SBASInversion.velocity in
  let res := SBASInversion.residual in
  let dts := SBASInversion.displacement_ts in
  SBASInversion.cell2 (vel st') i0 j0 = SBASInversion.cell2 (vel st) i0 j0 /\
  SBASInversion.cell2 (res st') i0 j0 = SBASInversion.cell2 (res st) i0 j0 /\
  forall k, SBASInversion.cell3 (dts st') k i0 j0
            = SBASInversion.cell3 (dts st) k i0 j0.

Definition vel_dims (h w : nat) (st : SBASInversion.outputs) : Prop :=
  SBASInversion.rows2 (SBASInversion.velocity st) = h /\
  SBASInversion.cols2 (SBASInversion.velocity st) = w.

Import SARProcessor.

Open Scope R_scope.

(** Two phases that differ by a whole number of cycles. *)
Definition cong2pi (a b : R) : Prop := exists k : Z, a = b + 2 * IZR k * PI.

Definition C0 : C := mkC 0 0.

Definition C1 : C := mkC 1 0.

Definition Copp (a : C) : C := mkC (- re a) (- im a).

(** [Csum_n n f] is the sum of [f 0], ..., [f (n - 1)]. *)
Definition Csum_n (n : nat) (f : nat -> C) : C := Csum (map f (seq 0 n)).

(** [root N t] is [exp(2 pi i t / N)]. *)
Definition root (N : nat) (t : Z) : C := cis (2 * PI * IZR t / INR N).

(** The one-dimensional transform of a line of [N] samples. *)
Definition dft1 (N : nat) (x : nat -> C) (k : nat) : C :=
  Csum_n N (fun m => Cmul (x m) (root N (- (Z.of_nat k * Z.of_nat m)))).

(** Circular cross-correlation of two lines at lag [p]. *)
Definition circ_corr1 (N : nat) (x y : nat -> C) (p : nat) : C :=
  Csum_n N (fun m => Cmul (x ((p + m) mod N)%nat) (Cconj (y m))).

(** Circular cross-correlation of two rasters of shape [(h, w)] at lag
    [(p, q)]. *)
Definition circ_corr2 (h w : nat) (a b : nat -> nat -> C) (p q : nat) : C :=
  Csum_n h (fun m =>
    Csum_n w (fun n =>
      Cmul (a ((p + m) mod h)%nat ((q + n) mod w)%nat) (Cconj (b m n)))).

(** The index that [np.roll] by [c] reads at position [m] of an axis of
    length [N]. *)
Definition rolled (N : nat) (c : Z) (m : nat) : nat :=
  Z.to_nat ((Z.of_nat m - c) mod Z.of_nat N).

(** Circular autocorrelation of a raster at lag [(p, q)]. *)
Definition autocorr (a : carray) (p q : nat) : C :=
  circ_corr2 (nrows a) (ncols a) (at_ a) (at_ a) p q.

(** The lag at which the correlation surface of [a] against its copy
    rolled by [d] is read at position [p]. *)
Definition lag (N : nat) (d : Z) (p : nat) : nat :=
  Z.to_nat ((Z.of_nat p + d) mod Z.of_nat N).

(** The correlation surface of a raster against its copy rolled by
    [(dr, dc)]. *)
Definition surface (a : carray) (dr dc : Z) : rarray :=
  mk_rarray (nrows a) (ncols a)
    (fun p q => Cabs (autocorr a (lag (nrows a) dr p) (lag (ncols a) dc q))).

(** A raster whose circular autocorrelation is largest, in magnitude, at
    zero lag only. *)
Definition single_peak (a : carray) : Prop :=
  forall p q, (p < nrows a)%nat -> (q < ncols a)%nat -> (p, q) <> (O, O) ->
    Cabs (autocorr a p q) < Cabs (autocorr a O O).

Close Scope R_scope.

(** ** Vocabulary of the further properties *)

(** The index pairs [(i, j)] with [i < j < n], in the order in which the two
    loops of [build_network] visit them. *)
Definition candidate_pairs (n : nat) : list (nat * nat) :=
  flat_map (fun i => map (fun j => (i, j)) (seq (S i) (n - S i))) (seq 0 n).

(** The temporal test of [build_network] on an index pair. *)
Definition within_temporal (ds : list Z) (max_t : Z) (ij : nat * nat) : bool :=
  (nth (snd ij) ds 0 - nth (fst ij) ds 0 <=? max_t)%Z.

(** What [build_network] guarantees about a pair it accepts. *)
Definition accepted (ds : list Z) (max_t : Z) (max_p : Q) (p : pair) : Prop :=
  (master_idx p < slave_idx p < List.length ds)%nat /\
  temporal_baseline p
    = (nth (slave_idx p) ds 0 - nth (master_idx p) ds 0)%Z /\
  (temporal_baseline p <= max_t)%Z /\
  (perpendicular_baseline p <= max_p)%Q.

Open Scope R_scope.

(** Sum of the wrapped vertical steps of column [j] from row 0 down to
    row [i]. *)
Fixpoint wrapped_steps (phase : rarray) (i j : nat) : R :=
  match i with
  | O => 0
  | S i' => wrapped_steps phase i' j
            + wrap_phase (rat phase (S i') j - rat phase i' j)
  end.

Close Scope R_scope.

(** [displacement_ts[-1, i, j] / total_days * 365], the velocity that
    [invert_velocity] writes at a pixel it has solved. *)
Definition mean_velocity (self : SBASInversion.t)
    (st : SBASInversion.outputs) (i j : nat) : fl :=
  let ds := dates (SBASInversion.network self) in
  let d := SBASInversion.displacement_ts st in
  fmul (fdiv (SBASInversion.cell3 d (SBASInversion.len3 d - 1) i j)
             (of_int (nth (List.length ds - 1) ds 0 - nth 0 ds 0)%Z))
       (of_int 365).

(** The velocity at a pixel is NaN, or the pixel has at least three
    observations and its velocity is the mean velocity of its displacement
    series. *)
Definition velocity_settled (self : SBASInversion.t)
    (phases : SBASInversion.array3) (st : SBASInversion.outputs)
    (i j : nat) : Prop :=
  SBASInversion.cell2 (SBASInversion.velocity st) i j = NaN \/
  ((3 <= n_valid phases i j)%nat /\
   SBASInversion.cell2 (SBASInversion.velocity st) i j
     = mean_velocity self st i j).

(** The displacement series starts at zero at every pixel. *)
Definition starts_at_zero (st : SBASInversion.outputs) : Prop :=
  forall i j,
    SBASInversion.cell3 (SBASInversion.displacement_ts st) 0 i j = Fin 0.

(** Number of pixels of a raster of shape [(h, w)] that a traversal has not
    visited yet. *)
Definition unvisited_pixels (h w : nat) (v : nat -> nat -> bool) : nat :=
  List.length (filter (fun p => negb (v (fst p) (snd p)))
                 (list_prod (seq 0 h) (seq 0 w))).

(** Two pixels that are neighbours along a row or a column. *)
Definition adjacent4 (i j i' j' : nat) : Prop :=
  (i' = i /\ (j' = S j \/ j = S j')) \/ (j' = j /\ (i' = S i \/ i = S i')).

(** What holds of the traversal of [_mst_unwrap] whenever the loop test is
    evaluated: a visited pixel is in range and holds the wrapped phase up
    to whole cycles; the queue holds visited pixels; a visited pixel that
    has left the queue has all its neighbours visited. *)
Definition mst_invariant (h w : nat) (wrapped : SNAPHUUnwrapper.grid)
    (st : MSTUnwrapper.state) : Prop :=
  (forall a b, MSTUnwrapper.visited st a b = true ->
     (a < h)%nat /\ (b < w)%nat /\
     cong2pi (MSTUnwrapper.unwrapped st a b) (wrapped a b)) /\
  (forall p, In p (MSTUnwrapper.queue st) ->
     MSTUnwrapper.visited st (fst p) (snd p) = true) /\
  (forall a b, MSTUnwrapper.visited st a b = true ->
     ~ In (a, b) (MSTUnwrapper.queue st) ->
     forall a' b', (a' < h)%nat -> (b' < w)%nat -> adjacent4 a b a' b' ->
       MSTUnwrapper.visited st a' b' = true).

(** What the visits made from the pixel [(i, j)] preserve. *)
Definition mst_good (h w : nat) (wrapped : SNAPHUUnwrapper.grid) (i j : nat)
    (st : MSTUnwrapper.state) : Prop :=
  (forall a b, MSTUnwrapper.visited st a b = true ->
     (a < h)%nat /\ (b < w)%nat /\
     cong2pi (MSTUnwrapper.unwrapped st a b) (wrapped a b)) /\
  (forall p, In p (MSTUnwrapper.queue st) ->
     MSTUnwrapper.visited st (fst p) (snd p) = true) /\
  MSTUnwrapper.visited st i j = true.

(** How a state of the traversal follows from an earlier one: nothing is
    unvisited or leaves the queue, a newly visited pixel is in the queue,
    and the unvisited pixels and the queue together have not grown. *)
Definition mst_extends (h w : nat) (st st' : MSTUnwrapper.state) : Prop :=
  (forall a b, MSTUnwrapper.visited st a b = true ->
     MSTUnwrapper.visited st' a b = true) /\
  (forall p, In p (MSTUnwrapper.queue st) -> In p (MSTUnwrapper.queue st')) /\
  (forall a b, MSTUnwrapper.visited st' a b = true ->
     MSTUnwrapper.visited st a b = true \/
     In (a, b) (MSTUnwrapper.queue st')) /\
  (unvisited_pixels h w (MSTUnwrapper.visited st')
   + List.length (MSTUnwrapper.queue st')
   <= unvisited_pixels h w (MSTUnwrapper.visited st)
      + List.length (MSTUnwrapper.queue st))%nat.

(** The pixel at offset [d] from [(i, j)], if it lies in the raster, has
    been visited. *)
Definition mst_reached (h w i j : nat) (st : MSTUnwrapper.state)
    (d : Z * Z) : Prop :=
  forall a b, (a < h)%nat -> (b < w)%nat ->
    Z.of_nat a = (Z.of_nat i + fst d)%Z ->
    Z.of_nat b = (Z.of_nat j + snd d)%Z ->
    MSTUnwrapper.visited st a b = true.

(** Two dates joined by an interferometric pair, in either order. *)
Definition linked (ps : list pair) (a b : nat) : Prop :=
  exists p, In p ps /\
    ((master_idx p = a /\ slave_idx p = b) \/
     (master_idx p = b /\ slave_idx p = a)).

(** The dates that can be reached from date [a] along pairs. *)
Inductive reachable (ps : list pair) (a : nat) : nat -> Prop :=
| reach_refl : reachable ps a a
| reach_step (b c : nat) :
    reachable ps a b -> linked ps b c -> reachable ps a c.

(** Entry [(a, b)] of a boolean matrix, and entry [k] of a marking. *)
Definition adjacent (adj : list (list bool)) (a b : nat) : bool :=
  nth b (nth a adj []) false.

Definition marked (v : list bool) (k : nat) : bool := nth k v false.

(** What holds of the traversal of [_check_connectivity] whenever the loop
    test is evaluated. *)
Definition connectivity_invariant (ps : list pair) (n : nat)
    (v : list bool) (q : list nat) : Prop :=
  List.length v = n /\
  (forall k, marked v k = true -> reachable ps O k) /\
  (forall k, In k q -> marked v k = true /\ (k < n)%nat) /\
  (forall k, marked v k = true -> ~ In k q ->
     forall m, (m < n)%nat -> linked ps k m -> marked v m = true).

(* ================================================================== *)
(** * Properties *)

(** ** Array updates *)

Section SetNth.
Context {A : Type}.

Lemma set_nth_some (l : list A) (i : nat) (v : A) :
  (i < List.length l)%nat -> exists l', set_nth l i v = Some l'.
Proof.
  revert i; induction l as [|h t IH]; intros i Hi; simpl in *; [lia|].
  destruct i as [|i]; [eauto|].
  destruct (IH i) as [l' Hl']; [lia|].
  rewrite Hl'; simpl; eauto.
Qed.

Lemma set_nth_length (l l' : list A) (i : nat) (v : A) :
  set_nth l i v = Some l' -> List.length l' = List.length l.
Proof.
  revert i l'; induction l as [|h t IH]; intros i l' H; simpl in *;
    [discriminate|].
  destruct i as [|i].
  - inversion H; reflexivity.
  - destruct (set_nth t i v) eqn:E; simpl in H; [|discriminate].
    inversion H; simpl; f_equal; eauto.
Qed.

Lemma set_nth_nth (l l' : list A) (i : nat) (v d : A) :
  set_nth l i v = Some l' ->
  forall k, nth k l' d = if Nat.eqb k i then v else nth k l d.
Proof.
  revert i l'; induction l as [|h t IH]; intros i l' H k; simpl in *;
    [discriminate|].
  destruct i as [|i].
  - inversion H; subst; destruct k; reflexivity.
  - destruct (set_nth t i v) eqn:E; simpl in H; [|discriminate].
    inversion H; subst; destruct k as [|k]; simpl; [reflexivity|].
    apply (IH _ _ E).
Qed.

Lemma set_nth_bound (l l' : list A) (i : nat) (v : A) :
  set_nth l i v = Some l' -> (i < List.length l)%nat.
Proof.
  revert i l'; induction l as [|h t IH]; intros i l' H; simpl in *;
    [discriminate|].
  destruct i as [|i]; [lia|].
  destruct (set_nth t i v) eqn:E; simpl in H; [|discriminate].
  apply IH in E; lia.
Qed.
End SetNth.


Lemma shape_repeat {A} (x : A) (r c : nat) : shape (repeat (repeat x c) r) r c.
Proof.
  split; [apply repeat_length|].
  intros k Hk. rewrite nth_repeat_lt by assumption. apply repeat_length.
Qed.

Lemma set_nth2_some {A} (M : list (list A)) (r c k m : nat) (v : A) :
  shape M r c -> (k < r)%nat -> (m < c)%nat ->
  exists M', set_nth2 M k m v = Some M'.
Proof.
  intros [Hr Hc] Hk Hm. unfold set_nth2.
  destruct (nth_error M k) as [row|] eqn:E.
  - assert (Hrow : row = nth k M []) by (symmetry; apply nth_error_nth; exact E).
    destruct (@set_nth_some _ row m v) as [row' Hrow'].
    { rewrite Hrow, Hc by assumption. assumption. }
    rewrite Hrow'. apply set_nth_some. lia.
  - apply nth_error_None in E. lia.
Qed.

Lemma set_nth2_shape {A} (M M' : list (list A)) (r c k m : nat) (v : A) :
  shape M r c -> set_nth2 M k m v = Some M' -> shape M' r c.
Proof.
  intros [Hr Hc]. unfold set_nth2.
  destruct (nth_error M k) as [row|] eqn:E; [|discriminate].
  destruct (set_nth row m v) as [row'|] eqn:E1; [|discriminate].
  intros E2. split.
  - rewrite (set_nth_length _ _ _ E2). exact Hr.
  - intros k' Hk'. rewrite (set_nth_nth _ _ _ [] E2).
    destruct (Nat.eqb k' k) eqn:Ek.
    + apply Nat.eqb_eq in Ek; subst k'.
      rewrite (set_nth_length _ _ _ E1).
      rewrite <- (nth_error_nth _ _ [] E). auto.
    + auto.
Qed.

Lemma set_nth2_get2 (M M' : list (list Z)) (k m : nat) (v : Z) :
  set_nth2 M k m v = Some M' ->
  forall k' m', get2 M' k' m' =
    if Nat.eqb k' k && Nat.eqb m' m then v else get2 M k' m'.
Proof.
  unfold set_nth2, get2.
  destruct (nth_error M k) as [row|] eqn:E; [|discriminate].
  destruct (set_nth row m v) as [row'|] eqn:E1; [|discriminate].
  intros E2 k' m'. rewrite (set_nth_nth _ _ _ [] E2).
  destruct (Nat.eqb k' k) eqn:Ek; simpl; [|reflexivity].
  apply Nat.eqb_eq in Ek; subst k'.
  rewrite (set_nth_nth _ _ _ 0%Z E1).
  rewrite (nth_error_nth _ _ [] E). reflexivity.
Qed.

(** ** Sorting *)

Lemma insert_sorted_HdRel (a x : Z) (l : list Z) :
  (a <= x)%Z -> HdRel Z.le a l -> HdRel Z.le a (insert_sorted x l).
Proof.
  intros Hax Hl. destruct l as [|h t]; simpl.
  - constructor; assumption.
  - destruct (x <? h)%Z; constructor; [assumption|].
    inversion Hl; assumption.
Qed.

Lemma insert_sorted_Sorted (x : Z) (l : list Z) :
  Sorted Z.le l -> Sorted Z.le (insert_sorted x l).
Proof.
  induction 1 as [|h t Ht IH Hh]; simpl.
  - repeat constructor.
  - destruct (x <? h)%Z eqn:E.
    + apply Z.ltb_lt in E. repeat constructor; try assumption. lia.
    + apply Z.ltb_ge in E. constructor; [assumption|].
      apply insert_sorted_HdRel; assumption.
Qed.

Lemma sorted_Sorted (l : list Z) : Sorted Z.le (sorted l).
Proof.
  unfold sorted. induction (rev l) as [|x r IH]; simpl.
  - constructor.
  - apply insert_sorted_Sorted, IH.
Qed.

Lemma insert_sorted_length (x : Z) (l : list Z) :
  List.length (insert_sorted x l) = S (List.length l).
Proof.
  induction l as [|h t IH]; simpl; [reflexivity|].
  destruct (x <? h)%Z; simpl; congruence.
Qed.

Lemma sorted_length (l : list Z) : List.length (sorted l) = List.length l.
Proof.
  unfold sorted. rewrite <- (length_rev l).
  induction (rev l) as [|x r IH]; simpl; [reflexivity|].
  rewrite insert_sorted_length; congruence.
Qed.

Lemma Sorted_nth_step (l : list Z) :
  Sorted Z.le l ->
  forall m, (S m < List.length l)%nat -> (nth m l 0 <= nth (S m) l 0)%Z.
Proof.
  induction 1 as [|h t Ht IH Hh]; intros m Hm; simpl in Hm; [lia|].
  destruct m as [|m].
  - destruct t as [|h' t']; simpl in *; [lia|].
    inversion Hh; assumption.
  - change (nth m t 0 <= nth (S m) t 0)%Z. apply IH. lia.
Qed.

(** ** Loops as folds *)

Lemma fold_left_inv {A B} (f : A -> B -> A) (P : A -> Prop) (Q : B -> Prop)
    (l : list B) (a : A) :
  P a -> Forall Q l -> (forall a b, P a -> Q b -> P (f a b)) ->
  P (fold_left f l a).
Proof.
  intros Ha Hl Hf. revert a Ha.
  induction Hl as [|b l Hb Hl IH]; intros a Ha; simpl; auto.
Qed.

Lemma Forall_seq (P : nat -> Prop) (a n : nat) :
  (forall k, (a <= k < a + n)%nat -> P k) -> Forall P (seq a n).
Proof.
  intros H. apply Forall_forall. intros k Hk. apply in_seq in Hk. auto.
Qed.

(** ** The pairs of a built network *)


Section BuildFacts.
Variable rng : nat -> Q.
Variable max_t : Z.
Variable max_p : Q.

Lemma consider_pair_wf (ds : list Z) (i j : nat) (st : nat * list pair) :
  (i < j < List.length ds)%nat ->
  Forall (wf_pair ds) (snd st) ->
  Forall (wf_pair ds) (snd (consider_pair rng max_t max_p ds i j st)).
Proof.
  intros Hij Hst. destruct st as [c ps]. unfold consider_pair.
  destruct (max_t <? _)%Z; [assumption|].
  destruct (negb _); simpl in *; [assumption|].
  apply Forall_app; split; [assumption|].
  constructor; [|constructor]. split; simpl; [assumption|reflexivity].
Qed.

Lemma outer_loop_wf (ds : list Z) :
  Forall (wf_pair ds)
    (snd (outer_loop rng max_t max_p ds (List.length ds) (O, []))).
Proof.
  unfold outer_loop.
  apply fold_left_inv with (Q := fun i => (i < List.length ds)%nat).
  - constructor.
  - apply Forall_seq; lia.
  - intros st i Hst Hi. unfold inner_loop.
    apply fold_left_inv
      with (Q := fun j => (i < j < List.length ds)%nat); trivial.
    + apply Forall_seq; lia.
    + intros st' j Hst' Hj. apply consider_pair_wf; assumption.
Qed.

Lemma build_network_pairs_wf (self : t) :
  Forall (wf_pair (dates self))
    (pairs (snd (build_network rng max_t max_p self))).
Proof.
  unfold build_network, n_dates.
  pose proof (outer_loop_wf (dates self)) as H.
  destruct (outer_loop _ _ _ _ _ _) as [c ps]. exact H.
Qed.

Lemma build_network_dates (self : t) :
  dates (snd (build_network rng max_t max_p self)) = dates self.
Proof.
  unfold build_network.
  destruct (outer_loop _ _ _ _ _ _) as [c ps]. reflexivity.
Qed.

Lemma consider_pair_accept (ds : list Z) (i j c : nat) (ps : list pair) :
  (nth j ds 0 - nth i ds 0 <= max_t)%Z ->
  (rng c <= max_p)%Q ->
  consider_pair rng max_t max_p ds i j (c, ps) =
    (S c, ps ++ [mk_pair i j (nth j ds 0 - nth i ds 0)%Z (rng c)]).
Proof.
  intros Ht Hp. unfold consider_pair.
  destruct (Z.ltb_spec max_t (nth j ds 0 - nth i ds 0)%Z); [lia|].
  apply Qle_bool_iff in Hp. rewrite Hp. reflexivity.
Qed.

Lemma consider_pair_reject (ds : list Z) (i j : nat)
    (st : nat * list pair) :
  (max_t < nth j ds 0 - nth i ds 0)%Z ->
  consider_pair rng max_t max_p ds i j st = st.
Proof.
  intros Ht. destruct st as [c ps]. unfold consider_pair.
  destruct (Z.ltb_spec max_t (nth j ds 0 - nth i ds 0)%Z); [reflexivity|lia].
Qed.
End BuildFacts.

(** ** The design matrix *)


Lemma existsb_seq (a n x : nat) :
  existsb (Nat.eqb x) (seq a n) = (a <=? x)%nat && (x <? a + n)%nat.
Proof.
  revert a; induction n as [|n IH]; intros a; simpl.
  - destruct (Nat.leb_spec a x), (Nat.ltb_spec x (a + 0)); simpl;
      try reflexivity; lia.
  - rewrite IH.
    destruct (Nat.eqb_spec x a), (Nat.leb_spec (S a) x),
      (Nat.ltb_spec x (S a + n)), (Nat.leb_spec a x),
      (Nat.ltb_spec x (a + S n)); simpl; try reflexivity; lia.
Qed.

Lemma fill_row_spec (ds : list Z) (r c k : nat) (ms : list nat) :
  (k < r)%nat ->
  (forall m, In m ms -> (m < c)%nat /\ (S m < List.length ds)%nat) ->
  forall A, shape A r c ->
  exists A', fill_row ds A k ms = inr A' /\ shape A' r c /\
    forall k' m', get2 A' k' m' =
      if Nat.eqb k' k && existsb (Nat.eqb m') ms then gap ds m'
      else get2 A k' m'.
Proof.
  intros Hk. induction ms as [|m ms IH]; intros Hms A HA;
    cbn [fill_row existsb].
  - exists A. repeat split; try apply HA.
    intros k' m'. rewrite andb_false_r. reflexivity.
  - destruct (Hms m (or_introl eq_refl)) as [Hmc Hmd].
    destruct (nth_error ds (S m)) as [d1|] eqn:E1;
      [|apply nth_error_None in E1; lia].
    destruct (nth_error ds m) as [d0|] eqn:E0;
      [|apply nth_error_None in E0; lia].
    cbn [bind of_option].
    destruct (set_nth2_some (d1 - d0)%Z HA Hk Hmc) as [A1 HA1].
    rewrite HA1. cbn [bind of_option].
    assert (HA1s : shape A1 r c) by (eapply set_nth2_shape; eassumption).
    destruct (IH (fun x Hx => Hms x (or_intror Hx)) A1 HA1s)
      as (A' & HA' & Hsh & Hget).
    exists A'. repeat split; try assumption; try apply Hsh.
    intros k' m'. rewrite Hget, (set_nth2_get2 _ _ _ _ HA1).
    destruct (Nat.eqb k' k); simpl; [|reflexivity].
    destruct (existsb (Nat.eqb m') ms); [rewrite orb_true_r; reflexivity|].
    rewrite orb_false_r.
    destruct (Nat.eqb_spec m' m); [subst; unfold gap|reflexivity].
    rewrite (nth_error_nth _ _ 0%Z E1), (nth_error_nth _ _ 0%Z E0).
    reflexivity.
Qed.


Lemma entry_after_lt (ds : list Z) (ps : list pair) (k k' m' : nat) (old : Z) :
  (k' < k)%nat -> entry_after ds ps k k' m' old = old.
Proof.
  intros H. unfold entry_after.
  assert (E : (k <=? k')%nat = false) by (apply Nat.leb_gt; lia).
  rewrite E. destruct (nth_error ps (k' - k)); reflexivity.
Qed.

Lemma entry_after_cons_eq (ds : list Z) (p : pair) (ps : list pair)
    (k m' : nat) (old : Z) :
  entry_after ds (p :: ps) k k m' old =
    if (master_idx p <=? m')%nat && (m' <? slave_idx p)%nat
    then gap ds m' else old.
Proof.
  unfold entry_after. rewrite Nat.sub_diag, Nat.leb_refl. reflexivity.
Qed.

Lemma entry_after_cons_gt (ds : list Z) (p : pair) (ps : list pair)
    (k k' m' : nat) (old : Z) :
  (k < k')%nat ->
  entry_after ds (p :: ps) k k' m' old = entry_after ds ps (S k) k' m' old.
Proof.
  intros H. unfold entry_after.
  replace (k' - k)%nat with (S (k' - S k)) by lia.
  assert (E1 : (k <=? k')%nat = true) by (apply Nat.leb_le; lia).
  assert (E2 : (S k <=? k')%nat = true) by (apply Nat.leb_le; lia).
  rewrite E1, E2. reflexivity.
Qed.

Lemma fill_rows_spec (ds : list Z) (r c : nat) (ps : list pair) :
  Forall (fun p => (slave_idx p <= c)%nat /\
                   (slave_idx p < List.length ds)%nat) ps ->
  forall k A, (k + List.length ps <= r)%nat -> shape A r c ->
  exists A', fill_rows ds A k ps = inr A' /\ shape A' r c /\
    forall k' m', get2 A' k' m' = entry_after ds ps k k' m' (get2 A k' m').
Proof.
  induction 1 as [|p ps [Hp1 Hp2] Hps IH]; intros k A Hk HA;
    cbn [fill_rows List.length] in *.
  - exists A. repeat split; try apply HA.
    intros k' m'. unfold entry_after. destruct (k' - k)%nat; reflexivity.
  - destruct (@fill_row_spec ds r c k
                (seq (master_idx p) (slave_idx p - master_idx p)))
      with (A := A) as (A1 & HA1 & Hsh1 & Hget1); try assumption; try lia.
    { intros m Hm. apply in_seq in Hm. lia. }
    rewrite HA1. cbn [bind].
    destruct (IH (S k) A1) as (A' & HA' & Hsh & Hget); try assumption;
      try lia.
    exists A'. repeat split; try assumption; try apply Hsh.
    intros k' m'. rewrite Hget, Hget1, existsb_seq.
    destruct (Nat.lt_total k' k) as [Hlt|[->|Hgt]].
    + rewrite !entry_after_lt by lia.
      destruct (Nat.eqb_spec k' k); [lia|reflexivity].
    + rewrite entry_after_lt by lia. rewrite entry_after_cons_eq.
      rewrite Nat.eqb_refl. cbn [andb].
      destruct (Nat.leb_spec (master_idx p) m'); cbn [andb]; [|reflexivity].
      destruct (Nat.ltb_spec m' (master_idx p + (slave_idx p - master_idx p))),
        (Nat.ltb_spec m' (slave_idx p)); try reflexivity; lia.
    + rewrite entry_after_cons_gt by lia.
      destruct (Nat.eqb_spec k' k); [lia|reflexivity].
Qed.

Lemma Zsum_app (l1 l2 : list Z) : Zsum (l1 ++ l2) = (Zsum l1 + Zsum l2)%Z.
Proof.
  unfold Zsum. induction l1 as [|x l1 IH]; simpl; [reflexivity|].
  rewrite IH. lia.
Qed.

Lemma list_as_map_nth (l : list Z) :
  l = map (fun m => nth m l 0%Z) (seq 0 (List.length l)).
Proof.
  apply nth_ext with (d := 0%Z) (d' := nth 0 l 0%Z).
  - rewrite length_map, length_seq. reflexivity.
  - intros n Hn. set (f := fun m => nth m l 0%Z).
    change (nth n l 0%Z = nth n (map f (seq 0 (List.length l))) (f O)).
    rewrite map_nth, seq_nth by assumption. reflexivity.
Qed.

(** The intervals spanned by a pair telescope to the difference of its two
    dates. *)
Lemma gap_sum_telescope (ds : list Z) (i j c : nat) :
  (i <= j)%nat ->
  Zsum (map (fun m => if (i <=? m)%nat && (m <? j)%nat
                      then gap ds m else 0%Z) (seq 0 c))
  = (nth (Nat.max i (Nat.min j c)) ds 0 - nth i ds 0)%Z.
Proof.
  intros Hij. induction c as [|c IH].
  - simpl. replace (Nat.max i (Nat.min j 0)) with i by lia. lia.
  - rewrite seq_S, map_app, Zsum_app, IH. simpl.
    destruct (Nat.leb_spec i c), (Nat.ltb_spec c j); simpl; unfold gap.
    + replace (Nat.max i (Nat.min j c)) with c by lia.
      replace (Nat.max i (Nat.min j (S c))) with (S c) by lia. lia.
    + replace (Nat.max i (Nat.min j c)) with j by lia.
      replace (Nat.max i (Nat.min j (S c))) with j by lia. lia.
    + replace (Nat.max i (Nat.min j c)) with i by lia.
      replace (Nat.max i (Nat.min j (S c))) with i by lia. lia.
    + lia.
Qed.

Lemma Sorted_gap_nonneg (ds : list Z) (m : nat) :
  Sorted Z.le ds -> (S m < List.length ds)%nat -> (0 <= gap ds m)%Z.
Proof.
  intros Hs H. unfold gap.
  pose proof (@Sorted_nth_step ds Hs m H). lia.
Qed.

Lemma get2_zeros (r c k m : nat) : get2 (repeat (repeat 0%Z c) r) k m = 0%Z.
Proof.
  unfold get2.
  destruct (Nat.lt_ge_cases k r) as [Hk|Hk].
  - rewrite nth_repeat_lt by assumption.
    destruct (Nat.lt_ge_cases m c) as [Hm|Hm].
    + apply nth_repeat_lt; assumption.
    + apply nth_overflow. rewrite repeat_length. assumption.
  - rewrite (nth_overflow (repeat (repeat 0%Z c) r)).
    + destruct m; reflexivity.
    + rewrite repeat_length. assumption.
Qed.

(** What [get_design_matrix] returns on a network whose pairs are well
    formed: every row is written, and only inside its pair's interval. *)
Lemma design_matrix_of_wf (self : t) :
  dates self <> [] ->
  Forall (wf_pair (dates self)) (pairs self) ->
  exists A, get_design_matrix self = inr A /\
    shape A (List.length (pairs self)) (n_dates self - 1) /\
    forall k p, nth_error (pairs self) k = Some p ->
      forall m, get2 A k m =
        if (master_idx p <=? m)%nat && (m <? slave_idx p)%nat
        then gap (dates self) m else 0%Z.
Proof.
  intros Hne Hwf. unfold get_design_matrix, n_dates.
  destruct (dates self) as [|d0 ds] eqn:Eds; [congruence|].
  cbn [List.length]. rewrite Nat.sub_1_r. cbn [Nat.pred].
  set (c := List.length ds). set (r := List.length (pairs self)).
  destruct (@fill_rows_spec (d0 :: ds) r c (pairs self))
    with (k := O) (A := repeat (repeat 0%Z c) r)
    as (A & HA & Hsh & Hget).
  - eapply Forall_impl; [|exact Hwf].
    intros p [[H1 H2] _]. cbn [List.length] in *. subst c. lia.
  - subst r. lia.
  - apply shape_repeat.
  - exists A. repeat split; try assumption; try apply Hsh.
    intros k p Hk m. rewrite Hget, get2_zeros. unfold entry_after.
    rewrite Nat.sub_0_r, Hk. reflexivity.
Qed.

Lemma built_network_design_matrix (rng : nat -> Q) (max_t : Z) (max_p : Q)
    (ds : list Z) (thr : Q) :
  ds <> [] ->
  let net := snd (build_network rng max_t max_p (of_datetimes ds thr)) in
  Sorted Z.le (dates net) /\
  Forall (wf_pair (dates net)) (pairs net) /\
  exists A, get_design_matrix net = inr A /\
    shape A (List.length (pairs net)) (n_dates net - 1) /\
    forall k p, nth_error (pairs net) k = Some p ->
      forall m, get2 A k m =
        if (master_idx p <=? m)%nat && (m <? slave_idx p)%nat
        then gap (dates net) m else 0%Z.
Proof.
  intros Hne net.
  assert (Hd : dates net = sorted ds) by apply build_network_dates.
  assert (Hwf : Forall (wf_pair (dates net)) (pairs net)).
  { subst net. rewrite build_network_dates. apply build_network_pairs_wf. }
  split; [rewrite Hd; apply sorted_Sorted|]. split; [exact Hwf|].
  apply design_matrix_of_wf; [|exact Hwf].
  rewrite Hd. intros E. apply (f_equal (@List.length Z)) in E.
  rewrite sorted_length in E. destruct ds; [congruence|discriminate].
Qed.

(** ** Claims about the design matrix *)

(** C6.  For every network built from a non-empty list of [N] dates, with
    [M] accepted pairs, [get_design_matrix] returns an [M] x [(N-1)] array
    whose row [k], for the pair [(i, j)], holds [dates[m+1] - dates[m]]
    (in days) in every column [m] with [i <= m < j] and zero in every other
    column. *)
Theorem C6_design_matrix_rows (rng : nat -> Q) (max_t : Z) (max_p : Q)
    (ds : list Z) (thr : Q) :
  ds <> [] ->
  let net := snd (build_network rng max_t max_p (of_datetimes ds thr)) in
  let N := n_dates net in
  let M := List.length (pairs net) in
  exists A, get_design_matrix net = inr A /\
    List.length A = M /\
    (forall k, (k < M)%nat -> List.length (nth k A []) = (N - 1)%nat) /\
    forall k p, nth_error (pairs net) k = Some p ->
      forall m, (m < N - 1)%nat ->
        nth m (nth k A []) 0%Z =
          if (master_idx p <=? m)%nat && (m <? slave_idx p)%nat
          then (nth (S m) (dates net) 0 - nth m (dates net) 0)%Z
          else 0%Z.
Proof.
  intros Hne net N M.
  destruct (@built_network_design_matrix rng max_t max_p ds thr Hne)
    as (_ & _ & A & HA & [Hlen Hrows] & Hget).
  exists A. repeat split; try assumption.
  intros k p Hk m _. apply (Hget k p Hk m).
Qed.

Lemma C6_design_matrix_rows_witness :
  exists A,
    get_design_matrix
      (snd (build_network (fun _ => 75%Q) 365 150%Q
              (of_datetimes [738521; 738552; 738580]%Z 150%Q))) = inr A /\
    A = [[31; 0]; [31; 28]; [0; 28]]%Z.
Proof.
  destruct (@C6_design_matrix_rows (fun _ => 75%Q) 365%Z 150%Q
              [738521; 738552; 738580]%Z 150%Q)
    as (A & HA & _); [discriminate|].
  exists A. split; [exact HA|].
  vm_compute in HA. inversion HA. reflexivity.
Defined.

(** C10.  For every network built from a non-empty list of dates, every
    entry of the design matrix is nonnegative and the entries of row [k]
    sum to the temporal baseline of the [k]-th accepted pair, which is
    [dates[slave_idx] - dates[master_idx]] in days. *)
Theorem C10_row_sum_is_temporal_baseline (rng : nat -> Q) (max_t : Z)
    (max_p : Q) (ds : list Z) (thr : Q) :
  ds <> [] ->
  let net := snd (build_network rng max_t max_p (of_datetimes ds thr)) in
  exists A, get_design_matrix net = inr A /\
    (forall k m, (0 <= nth m (nth k A []) 0)%Z) /\
    forall k p, nth_error (pairs net) k = Some p ->
      Zsum (nth k A []) = temporal_baseline p /\
      temporal_baseline p =
        (nth (slave_idx p) (dates net) 0 - nth (master_idx p) (dates net) 0)%Z.
Proof.
  intros Hne net.
  destruct (@built_network_design_matrix rng max_t max_p ds thr Hne)
    as (Hs & Hwf & A & HA & [Hlen Hrows] & Hget).
  fold net in Hs, Hwf, HA, Hlen, Hrows, Hget.
  exists A. split; [exact HA|]. split.
  - intros k m.
    destruct (nth_error (pairs net) k) as [p|] eqn:Ek.
    + change (0 <= get2 A k m)%Z. rewrite (Hget k p Ek m).
      pose proof (proj1 (Forall_forall _ _) Hwf p (nth_error_In _ _ Ek))
        as [[Hij Hj] _].
      destruct (Nat.leb_spec (master_idx p) m),
        (Nat.ltb_spec m (slave_idx p)); cbn [andb]; try lia.
      apply Sorted_gap_nonneg; [assumption|lia].
    + apply nth_error_None in Ek.
      rewrite (nth_overflow A) by lia. destruct m; simpl; lia.
  - intros k p Ek.
    pose proof (proj1 (Forall_forall _ _) Hwf p (nth_error_In _ _ Ek))
      as [[Hij Hj] Htb].
    split; [|exact Htb].
    assert (Hk : (k < List.length (pairs net))%nat).
    { apply nth_error_Some. congruence. }
    rewrite (list_as_map_nth (nth k A [])), (Hrows k Hk).
    rewrite (map_ext _ (fun m => if (master_idx p <=? m)%nat
                                    && (m <? slave_idx p)%nat
                                 then gap (dates net) m else 0%Z)).
    2:{ intros m. apply (Hget k p Ek m). }
    rewrite gap_sum_telescope by lia.
    unfold n_dates.
    replace (Nat.max (master_idx p)
               (Nat.min (slave_idx p) (List.length (dates net) - 1)))
      with (slave_idx p) by lia.
    symmetry; exact Htb.
Qed.

Lemma C10_row_sum_is_temporal_baseline_witness :
  exists A,
    get_design_matrix
      (snd (build_network (fun _ => 75%Q) 365 150%Q
              (of_datetimes [738521; 738552; 738580]%Z 150%Q))) = inr A /\
    map Zsum A = [31; 59; 28]%Z.
Proof.
  destruct (@C10_row_sum_is_temporal_baseline (fun _ => 75%Q) 365%Z 150%Q
              [738521; 738552; 738580]%Z 150%Q)
    as (A & HA & _); [discriminate|].
  exists A. split; [exact HA|].
  vm_compute in HA. inversion HA. reflexivity.
Defined.

(** ** Termination of the connectivity traversal *)


Lemma set_nth_unvisited (v v' : list bool) (i : nat) :
  set_nth v i true = Some v' -> nth i v true = false ->
  S (unvisited v') = unvisited v.
Proof.
  unfold unvisited, count_true.
  revert i v'; induction v as [|b v IH]; intros i v' H Hn; simpl in *;
    [discriminate|].
  destruct i as [|i].
  - inversion H; subst. simpl. reflexivity.
  - destruct (set_nth v i true) as [w|] eqn:E; simpl in H; [|discriminate].
    inversion H; subst. simpl.
    specialize (IH i w E Hn).
    destruct (negb b); simpl; lia.
Qed.

Lemma scan_neighbors_measure (row : list bool) :
  forall nb v q v' q',
    scan_neighbors row nb v q = (v', q') ->
    List.length v' = List.length v /\
    (2 * unvisited v' + List.length q' <= 2 * unvisited v + List.length q)%nat.
Proof.
  induction row as [|a row IH]; intros nb v q v' q' H; simpl in H.
  - inversion H; subst. split; lia.
  - destruct (a && negb (nth nb v true)) eqn:E.
    + destruct (set_nth v nb true) as [v1|] eqn:E1.
      * apply IH in H. destruct H as [Hl Hm].
        apply andb_true_iff in E. destruct E as [_ E].
        apply negb_true_iff in E.
        pose proof (set_nth_unvisited _ _ E1 E) as Hu.
        rewrite (set_nth_length _ _ _ E1) in Hl.
        rewrite length_app in Hm. simpl in Hm. split; lia.
      * inversion H; subst. split; lia.
    + apply IH in H. exact H.
Qed.

(** The [while queue] loop ends within [2 * unvisited + len(queue)]
    iterations, and leaves [visited] at its length. *)
Lemma bfs_fuel_enough (adj : list (list bool)) (fuel : nat) :
  forall v q,
    (2 * unvisited v + List.length q <= fuel)%nat ->
    exists v', bfs fuel adj v q = Some v' /\ List.length v' = List.length v.
Proof.
  induction fuel as [|fuel IH]; intros v q H.
  - destruct q as [|node q]; simpl in *; [eauto|lia].
  - destruct q as [|node q]; simpl in *; [eauto|].
    destruct (scan_neighbors (nth node adj []) 0 v q) as [v1 q1] eqn:E.
    apply scan_neighbors_measure in E. destruct E as [Hl Hm].
    destruct (IH v1 q1) as (v' & Hv' & Hl'); [lia|].
    exists v'. split; [exact Hv'|congruence].
Qed.

Lemma unvisited_le_length (v : list bool) :
  (unvisited v <= List.length v)%nat.
Proof.
  unfold unvisited, count_true.
  induction v as [|b v IH]; simpl; [lia|].
  destruct (negb b); simpl; lia.
Qed.

Lemma bfs_terminates (adj : list (list bool)) (v : list bool) (q : list nat) :
  (List.length q <= 1)%nat ->
  exists v', bfs (2 * List.length v + 1) adj v q = Some v' /\
             bfs_run adj v q = v'.
Proof.
  intros Hq.
  destruct (@bfs_fuel_enough adj (2 * List.length v + 1) v q)
    as (v' & Hv' & _).
  { pose proof (unvisited_le_length v). lia. }
  exists v'. split; [exact Hv'|]. unfold bfs_run. rewrite Hv'. reflexivity.
Qed.

(** ** When [build_network] completes *)

Lemma fill_adj_ok (n : nat) (ps : list pair) :
  Forall (fun p => (master_idx p < n)%nat /\ (slave_idx p < n)%nat) ps ->
  forall adj, shape adj n n ->
  exists adj', fill_adj adj ps = inr adj' /\ shape adj' n n.
Proof.
  induction 1 as [|p ps [Hm Hs] Hps IH]; intros adj Hadj; cbn [fill_adj].
  - exists adj. split; [reflexivity|exact Hadj].
  - destruct (set_nth2_some true Hadj Hm Hs) as [adj1 H1]. rewrite H1.
    assert (Hadj1 : shape adj1 n n) by (eapply set_nth2_shape; eassumption).
    destruct (set_nth2_some true Hadj1 Hs Hm) as [adj2 H2]. rewrite H2.
    apply IH. eapply set_nth2_shape; eassumption.
Qed.

(** On a non-empty list of dates the call returns the completed
    dictionary; on an empty one the connectivity check indexes an empty
    array and the call returns an error. *)
Lemma build_network_completes (rng : nat -> Q) (max_t : Z) (max_p : Q)
    (ds : list Z) (thr : Q) :
  ds <> [] ->
  exists info,
    fst (build_network rng max_t max_p (of_datetimes ds thr)) = inr info.
Proof.
  intros Hne.
  pose proof (build_network_pairs_wf rng max_t max_p (of_datetimes ds thr))
    as Hwf.
  unfold build_network in *.
  destruct (outer_loop _ _ _ _ _ _) as [c ps]. cbn [fst snd pairs] in *.
  unfold check_connectivity, n_dates. cbn [dates pairs of_datetimes] in *.
  destruct (@fill_adj_ok (List.length (sorted ds)) ps) with
    (adj := zeros2 (List.length (sorted ds)) (List.length (sorted ds)))
    as (adj & Hadj & _).
  - eapply Forall_impl; [|exact Hwf]. intros p [[H1 H2] _]. lia.
  - apply shape_repeat.
  - rewrite Hadj. cbn [bind].
    destruct (@set_nth_some _ (repeat false (List.length (sorted ds))) O true)
      as [v0 Hv0].
    { rewrite repeat_length, sorted_length.
      destruct ds; [congruence|cbn; lia]. }
    rewrite Hv0. cbn [of_option bind ret]. eexists. reflexivity.
Qed.

Lemma build_network_empty (rng : nat -> Q) (max_t : Z) (max_p thr : Q) :
  fst (build_network rng max_t max_p (of_datetimes [] thr)) = inl IndexError.
Proof. reflexivity. Qed.

(** ** Claims about the three-date example *)

(** C4.  On the dates 2023-01-01, 2023-02-01, 2023-03-01, with a temporal
    threshold that admits the longest gap (59 days) and simulated
    perpendicular baselines that stay within their threshold,
    [build_network] accepts exactly the three pairs (0,1), (0,2), (1,2) and
    reports [is_connected = true]. *)
Theorem C4_three_dates_all_pairs (rng : nat -> Q) (max_t : Z) (max_p thr : Q)
    (net : t) :
  init spec_dates thr = inr net ->
  (59 <= max_t)%Z ->
  (forall k, (rng k <= max_p)%Q) ->
  exists info,
    fst (build_network rng max_t max_p net) = inr info /\
    map idx (info_pairs info) = [(0, 1); (0, 2); (1, 2)]%nat /\
    info_n_pairs info = 3%nat /\
    is_connected (info_connectivity info) = true.
Proof.
  intros Hinit Ht Hp.
  vm_compute in Hinit. inversion Hinit; subst net; clear Hinit.
  unfold build_network, outer_loop, inner_loop, n_dates.
  cbn [dates List.length seq Nat.sub fold_left].
  rewrite !consider_pair_accept by (try apply Hp; cbn; lia).
  cbn [nth]. eexists. split; [reflexivity|].
  repeat split.
Qed.

Lemma C4_three_dates_all_pairs_witness :
  exists net info,
    init spec_dates 150%Q = inr net /\
    fst (build_network (fun _ => 75%Q) 365 150%Q net) = inr info /\
    map idx (info_pairs info) = [(0, 1); (0, 2); (1, 2)]%nat /\
    is_connected (info_connectivity info) = true.
Proof.
  eexists.
  destruct (@C4_three_dates_all_pairs (fun _ => 75%Q) 365%Z 150%Q 150%Q
              _ eq_refl) as (info & H1 & H2 & _ & H4).
  - lia.
  - intros k. unfold Qle; simpl; lia.
  - exists info. repeat split; assumption.
Defined.

(** The three gaps between the example dates, in days. *)
Lemma spec_dates_gaps :
  option_map (fun ds => (nth 1 ds 0 - nth 0 ds 0, nth 2 ds 0 - nth 1 ds 0,
                         nth 2 ds 0 - nth 0 ds 0)%Z)
    (parse_all spec_dates) = Some (31, 28, 59)%Z.
Proof. reflexivity. Qed.

(** C5, as stated, fails: with [max_temporal_baseline = 20] the builder
    does not produce two pairs on the three example dates. *)
Lemma C5_counterexample :
  exists net info,
    init spec_dates 150%Q = inr net /\
    fst (build_network (fun _ => 75%Q) 20 150%Q net) = inr info /\
    info_n_pairs info <> 2%nat /\
    is_connected (info_connectivity info) = false.
Proof.
  eexists. eexists. split; [reflexivity|]. split; [reflexivity|].
  split; [discriminate|reflexivity].
Qed.

(** C5, amended.  On the dates 2023-01-01, 2023-02-01, 2023-03-01 every
    gap (31, 28 and 59 days) exceeds 20 days, so with
    [max_temporal_baseline = 20] the builder accepts no pair at all,
    whatever the perpendicular baselines; the call still completes and
    reports the network as not connected (one date reached, two not). *)
Theorem C5_three_dates_threshold_20 (rng : nat -> Q) (max_p thr : Q) :
  (net <- init spec_dates thr ;;
   fst (build_network rng 20 max_p net))%result
  = inr {| info_n_dates := 3;
           info_n_pairs := 0;
           info_pairs := [];
           info_connectivity :=
             {| is_connected := false;
                n_connected := 1;
                n_disconnected := 2 |} |}.
Proof.
  change (init spec_dates thr)
    with (@inr exn t (of_datetimes [738521; 738552; 738580]%Z thr)).
  cbn [bind].
  unfold build_network, outer_loop, inner_loop, n_dates.
  change (dates (of_datetimes [738521; 738552; 738580]%Z thr))
    with [738521; 738552; 738580]%Z.
  cbn [List.length seq Nat.sub fold_left].
  rewrite !consider_pair_reject by (cbn; lia).
  reflexivity.
Qed.

(** ** SBAS inversion: pixels with too few observations *)

Unset Implicit Arguments.

Import SBASInversion.


Lemma write2_spec (a a' : array2) (i j : nat) (v : fl) :
  write2 a i j v = inr a' ->
  rows2 a' = rows2 a /\ cols2 a' = cols2 a /\ cell2 a' i j = v /\
  forall i' j', (i', j') <> (i, j) -> cell2 a' i' j' = cell2 a i' j'.
Proof.
  unfold write2. destruct (_ && _); [|discriminate].
  intros H; inversion H; subst; clear H. cbn.
  rewrite !Nat.eqb_refl. repeat split.
  intros i' j' Hne.
  destruct (Nat.eqb_spec i' i), (Nat.eqb_spec j' j); cbn; try reflexivity.
  subst. congruence.
Qed.

Lemma write2_ok (a : array2) (i j : nat) (v : fl) :
  (i < rows2 a)%nat -> (j < cols2 a)%nat -> exists a', write2 a i j v = inr a'.
Proof.
  intros Hi Hj. unfold write2.
  apply Nat.ltb_lt in Hi, Hj. rewrite Hi, Hj. cbn. eauto.
Qed.

Lemma write3_spec (a a' : array3) (k i j : nat) (v : fl) :
  write3 a k i j v = inr a' ->
  forall k' i' j', (i', j') <> (i, j) -> cell3 a' k' i' j' = cell3 a k' i' j'.
Proof.
  unfold write3. destruct (_ && _); [|discriminate].
  intros H; inversion H; subst; clear H. cbn.
  intros k' i' j' Hne.
  destruct (Nat.eqb_spec i' i), (Nat.eqb_spec j' j); cbn;
    rewrite ?andb_false_r; try reflexivity.
  subst. congruence.
Qed.


Lemma pixel_order_in (h w i j : nat) :
  (i < h)%nat -> (j < w)%nat -> In (i, j) (pixel_order h w).
Proof.
  intros Hi Hj. unfold pixel_order. apply in_flat_map.
  exists i. split; [apply in_seq; lia|].
  apply in_map. apply in_seq. lia.
Qed.

Lemma pixel_order_range (h w : nat) :
  Forall (fun ij => (fst ij < h)%nat /\ (snd ij < w)%nat) (pixel_order h w).
Proof.
  apply Forall_forall. intros [i j] Hin. unfold pixel_order in Hin.
  apply in_flat_map in Hin. destruct Hin as (i' & Hi' & Hin).
  apply in_map_iff in Hin. destruct Hin as (j' & Heq & Hj').
  inversion Heq; subst. apply in_seq in Hi', Hj'. cbn. lia.
Qed.

Section InvertFacts.
Variable lstsq : list (list fl) -> list fl -> result (list fl).
Variable self : t.
Variable phases : array3.
Variable coh : option array3.
Variable reg : fl.

Lemma accumulate_frame (i j : nat) (v : list fl) :
  forall k d d' e, accumulate i j v k d = (d', e) ->
  forall k' i' j', (i', j') <> (i, j) -> cell3 d' k' i' j' = cell3 d k' i' j'.
Proof.
  induction v as [|vk v IH]; intros k d d' e H; cbn in H.
  - inversion H; reflexivity.
  - destruct (read3 d k i j) as [e0|x]; [inversion H; reflexivity|].
    destruct (write3 d (S k) i j (fadd x vk)) as [e0|d1] eqn:E;
      [inversion H; reflexivity|].
    intros k' i' j' Hne.
    rewrite (IH _ _ _ _ H k' i' j' Hne).
    apply (write3_spec _ _ _ _ _ _ E). exact Hne.
Qed.

(** The body of the [try] writes at pixel [(i, j)] only, and keeps the
    shape of the velocity raster. *)
Lemma solve_frame (i j : nat) (Av : list (list fl)) (bv : list fl)
    (Aw : list (list fl)) (bw : list fl) (st st' : outputs) (e : option exn) :
  solve lstsq self i j Av bv Aw bw st = (st', e) ->
  (rows2 (velocity st') = rows2 (velocity st) /\
   cols2 (velocity st') = cols2 (velocity st)) /\
  forall i0 j0, (i0, j0) <> (i, j) -> same_at i0 j0 st st'.
Proof.
  unfold solve, same_at.
  destruct (lstsq Aw bw) as [e0|v];
    [intros H; inversion H; subst; repeat split|].
  destruct (write3 (displacement_ts st) 0 i j (Fin 0)) as [e0|d0] eqn:E0;
    [intros H; inversion H; subst; repeat split|].
  destruct (accumulate i j v 0 d0) as [d1 e1] eqn:E1.
  assert (Hd : forall k i0 j0, (i0, j0) <> (i, j) ->
            cell3 d1 k i0 j0 = cell3 (displacement_ts st) k i0 j0).
  { intros k i0 j0 Hne.
    rewrite (accumulate_frame _ _ _ _ _ _ _ E1 k i0 j0 Hne).
    apply (write3_spec _ _ _ _ _ _ E0). exact Hne. }
  destruct e1 as [e1|];
    [intros H; inversion H; subst; cbn; repeat split; auto|].
  destruct (read3 d1 (len3 d1 - 1) i j) as [e0|last];
    [intros H; inversion H; subst; cbn; repeat split; auto|].
  cbn [velocity residual displacement_ts].
  destruct (write2 (velocity st) i j _) as [e0|vel] eqn:E2;
    [intros H; inversion H; subst; cbn; repeat split; auto|].
  destruct (write2_spec _ _ _ _ _ E2) as (Hr & Hc & _ & Hv).
  destruct (negb _);
    [intros H; inversion H; subst; cbn; repeat split; auto|].
  destruct (write2 (residual st) i j _) as [e0|res] eqn:E3;
    [intros H; inversion H; subst; cbn; repeat split; auto|].
  destruct (write2_spec _ _ _ _ _ E3) as (_ & _ & _ & Hres).
  intros H; inversion H; subst; cbn; repeat split; auto.
Qed.

Lemma column3_ok (a : array3) (i j : nat) :
  (i < rows3 a)%nat -> (j < cols3 a)%nat ->
  column3 a i j = inr (map (fun k => cell3 a k i j) (seq 0 (len3 a))).
Proof.
  intros Hi Hj. unfold column3.
  apply Nat.ltb_lt in Hi, Hj. rewrite Hi, Hj. reflexivity.
Qed.

Lemma masked_ok {A} (l : list A) (mask : list bool) :
  List.length l = List.length mask -> masked l mask = inr (select l mask).
Proof.
  intros H. unfold masked. rewrite H, Nat.eqb_refl. reflexivity.
Qed.

Hypothesis rows_match : List.length (design_matrix self) = len3 phases.
Hypothesis coh_match :
  match coh with
  | Some c => len3 c = len3 phases /\ rows3 c = rows3 phases /\
              cols3 c = cols3 phases
  | None => True
  end.

(** One iteration of the pixel loop completes; it writes at its own pixel
    only, and at a pixel with fewer than three observations it writes the
    velocity and nothing else. *)
Lemma pixel_ok (i j : nat) (st : outputs) :
  (i < rows3 phases)%nat -> (j < cols3 phases)%nat ->
  vel_dims (rows3 phases) (cols3 phases) st ->
  exists st',
    pixel lstsq self phases coh reg (i, j) st = inr st' /\
    vel_dims (rows3 phases) (cols3 phases) st' /\
    (forall i0 j0, (i0, j0) <> (i, j) -> same_at i0 j0 st st') /\
    ((n_valid phases i j < 3)%nat ->
     cell2 (velocity st') i j = NaN /\
     cell2 (residual st') i j = cell2 (residual st) i j /\
     forall k, cell3 (displacement_ts st') k i j
               = cell3 (displacement_ts st) k i j).
Proof.
  intros Hi Hj [Hr Hc]. unfold pixel.
  rewrite (column3_ok _ _ _ Hi Hj). cbn [bind].
  rewrite map_map. fold (n_valid phases i j).
  destruct (Nat.ltb_spec (n_valid phases i j) 3) as [Hlt|Hge].
  - destruct (write2_ok (velocity st) i j NaN) as [vel Hvel];
      [lia|lia|].
    rewrite Hvel. cbn [bind].
    destruct (write2_spec _ _ _ _ _ Hvel) as (Hr' & Hc' & Hv & Hframe).
    eexists. split; [reflexivity|]. unfold vel_dims, same_at. cbn.
    repeat split; auto; try congruence.
  - set (mask := map (fun k => negb (is_nan (cell3 phases k i j)))
                   (seq 0 (len3 phases))).
    assert (Hmask : List.length mask = len3 phases).
    { subst mask. rewrite length_map, length_seq. reflexivity. }
    assert (Hw : exists weights,
      match coh with
      | Some c => (w <- column3 c i j ;; ret (map fsquare w))%result
      | None => ret (repeat (Fin 1) (len3 phases))
      end = inr weights /\ List.length weights = len3 phases).
    { destruct coh as [c|].
      - destruct coh_match as (H1 & H2 & H3).
        rewrite column3_ok by lia. cbn [bind]. eexists. split; [reflexivity|].
        rewrite !length_map, length_seq. exact H1.
      - eexists. split; [reflexivity|]. apply repeat_length. }
    destruct Hw as (weights & Hw & Hwl). rewrite Hw. cbn [bind].
    rewrite (masked_ok weights mask) by congruence. cbn [bind].
    rewrite (masked_ok (map (map of_int) (design_matrix self)) mask)
      by (rewrite length_map; congruence).
    cbn [bind].
    rewrite (masked_ok _ mask)
      by (rewrite length_map, length_seq; congruence).
    cbn [bind].
    match goal with
    | |- context [solve ?l ?s ?a ?b ?c ?d ?e ?f ?g] =>
        destruct (solve l s a b c d e f g) as [st1 e1] eqn:Es
    end.
    destruct (solve_frame _ _ _ _ _ _ _ _ _ Es) as [[Hr1 Hc1] Hf1].
    destruct e1 as [e1|].
    + destruct (write2_ok (velocity st1) i j NaN) as [vel Hvel];
        [lia|lia|].
      rewrite Hvel. cbn [bind].
      destruct (write2_spec _ _ _ _ _ Hvel) as (Hr' & Hc' & Hv & Hframe).
      eexists. split; [reflexivity|]. unfold vel_dims. cbn.
      repeat split; try lia.
      * cbn. rewrite (Hframe _ _ H). apply (Hf1 _ _ H).
      * cbn. apply (Hf1 _ _ H).
      * cbn. apply (Hf1 _ _ H).
    + eexists. split; [reflexivity|]. unfold vel_dims.
      repeat split; try lia; try apply (Hf1 _ _ H).
Qed.

Lemma pixel_loop_ok (pixels : list (nat * nat)) :
  Forall (fun ij => (fst ij < rows3 phases)%nat /\
                    (snd ij < cols3 phases)%nat) pixels ->
  forall st, vel_dims (rows3 phases) (cols3 phases) st ->
  exists st',
    pixel_loop lstsq self phases coh reg pixels st = inr st' /\
    vel_dims (rows3 phases) (cols3 phases) st' /\
    forall i0 j0, (n_valid phases i0 j0 < 3)%nat ->
      cell2 (residual st') i0 j0 = cell2 (residual st) i0 j0 /\
      (forall k, cell3 (displacement_ts st') k i0 j0
                 = cell3 (displacement_ts st) k i0 j0) /\
      (In (i0, j0) pixels \/ cell2 (velocity st) i0 j0 = NaN ->
       cell2 (velocity st') i0 j0 = NaN).
Proof.
  induction 1 as [|[i j] pixels [Hi Hj] Hall IH]; intros st Hst;
    cbn [pixel_loop].
  - exists st. repeat split; try apply Hst.
    intros [[]|Hn]; exact Hn.
  - cbn [fst snd] in Hi, Hj.
    destruct (pixel_ok i j st Hi Hj Hst) as (st1 & H1 & Hd1 & Hf1 & Hs1).
    rewrite H1. cbn [bind].
    destruct (IH st1 Hd1) as (st' & H' & Hd' & Hinv).
    exists st'. split; [exact H'|]. split; [exact Hd'|].
    intros i0 j0 Hn.
    destruct (Hinv i0 j0 Hn) as (Hres & Hdisp & Hvel).
    assert (Hdec : (i0, j0) = (i, j) \/ (i0, j0) <> (i, j)).
    { destruct (Nat.eq_dec i0 i), (Nat.eq_dec j0 j); subst;
        try (left; reflexivity); right; congruence. }
    destruct Hdec as [Heq|Hne].
    + inversion Heq; subst i0 j0.
      destruct (Hs1 Hn) as (Hv1 & Hr1 & Hk1).
      split; [congruence|]. split; [intros k; rewrite Hdisp; apply Hk1|].
      intros _. apply Hvel. right. exact Hv1.
    + destruct (Hf1 i0 j0 Hne) as (Hv1 & Hr1 & Hk1).
      split; [congruence|]. split; [intros k; rewrite Hdisp; apply Hk1|].
      intros [[Heq|Hin]|Hnan].
      * congruence.
      * apply Hvel. left. exact Hin.
      * apply Hvel. right. congruence.
Qed.

End InvertFacts.

(** C3, as stated, fails: a pixel with two observations gets NaN in the
    velocity raster but keeps the initial zero in the displacement time
    series. *)
Lemma C3_counterexample :
  exists inv out,
    SBASInversion.init example_network = inr inv /\
    n_valid two_observations 0 0 = 2%nat /\
    invert_velocity failing_lstsq inv two_observations None (Fin (1 / 100))
      = inr out /\
    cell2 (velocity out) 0 0 = NaN /\
    cell3 (displacement_ts out) 1 0 0 = Fin 0 /\
    is_nan (cell3 (displacement_ts out) 1 0 0) = false.
Proof.
  eexists. eexists. split; [reflexivity|]. split; [reflexivity|].
  split; [reflexivity|]. repeat split.
Qed.

(** C3, amended.  For every phase stack that matches the design matrix
    (and the coherence stack, when given), on a raster with at least one
    pixel, [invert_velocity] completes, whatever the least-squares solver
    does; at every pixel with fewer than 3 non-NaN observations the
    velocity is NaN, while the displacement time series and the residual
    keep the zero they were initialised with. *)
Theorem C3_insufficient_observations
    (lstsq : list (list fl) -> list fl -> result (list fl))
    (self : SBASInversion.t) (phases : array3) (coh : option array3)
    (reg : fl) :
  List.length (design_matrix self) = len3 phases ->
  match coh with
  | Some c => len3 c = len3 phases /\ rows3 c = rows3 phases /\
              cols3 c = cols3 phases
  | None => True
  end ->
  (0 < rows3 phases * cols3 phases)%nat ->
  exists out,
    invert_velocity lstsq self phases coh reg = inr out /\
    forall i j, (i < rows3 phases)%nat -> (j < cols3 phases)%nat ->
      (n_valid phases i j < 3)%nat ->
      cell2 (velocity out) i j = NaN /\
      (forall k, cell3 (displacement_ts out) k i j = Fin 0) /\
      cell2 (residual out) i j = Fin 0.
Proof.
  intros Hrows Hcoh Hsize. unfold invert_velocity.
  destruct (pixel_loop_ok lstsq self phases coh reg Hrows Hcoh
              (pixel_order (rows3 phases) (cols3 phases))
              (pixel_order_range _ _)
              (mk_outputs (zeros2 (rows3 phases) (cols3 phases))
                 (zeros3 (n_dates (network self)) (rows3 phases)
                    (cols3 phases))
                 (zeros2 (rows3 phases) (cols3 phases))))
    as (st & Hst & _ & Hinv).
  { split; reflexivity. }
  rewrite Hst. cbn [bind].
  destruct (Nat.eqb_spec (rows3 phases * cols3 phases) 0) as [E|_]; [lia|].
  exists st. split; [reflexivity|].
  intros i j Hi Hj Hn.
  destruct (Hinv i j Hn) as (Hres & Hdisp & Hvel).
  split; [|split].
  - apply Hvel. left. apply pixel_order_in; assumption.
  - intros k. rewrite Hdisp. reflexivity.
  - rewrite Hres. reflexivity.
Qed.

Lemma C3_insufficient_observations_witness :
  exists inv out,
    SBASInversion.init example_network = inr inv /\
    invert_velocity failing_lstsq inv two_observations None (Fin (1 / 100))
      = inr out /\
    cell2 (velocity out) 0 0 = NaN /\
    (forall k, cell3 (displacement_ts out) k 0 0 = Fin 0) /\
    cell2 (residual out) 0 0 = Fin 0.
Proof.
  eexists.
  destruct (C3_insufficient_observations failing_lstsq
              {| network := example_network;
                 design_matrix := [[31; 0]; [31; 28]; [0; 28]]%Z |}
              two_observations None (Fin (1 / 100)))
    as (out & Hout & Hpix).
  - reflexivity.
  - exact I.
  - cbn. lia.
  - exists out. split; [reflexivity|]. split; [exact Hout|].
    apply (Hpix 0%nat 0%nat); cbn; lia.
Defined.

(** ** Phase wrapping *)

Open Scope R_scope.

Lemma wrap_atan2 (x : R) : wrap x = atan2 (sin x) (cos x).
Proof.
  unfold wrap, angle, Cexp, Cmul, Ci, C_of_R. cbn [re im].
  replace (0 * x - 1 * 0) with 0 by ring.
  replace (0 * 0 + 1 * x) with x by ring.
  rewrite exp_0, !Rmult_1_l. reflexivity.
Qed.

Lemma cos_pos_range (y : R) :
  - PI < y <= PI -> 0 < cos y -> - (PI / 2) < y < PI / 2.
Proof.
  intros [Hl Hu] Hc. pose proof PI_RGT_0 as Hpi. split.
  - apply Rnot_le_lt. intros H.
    assert (Hle : cos (- y) <= 0) by (apply cos_le_0; lra).
    rewrite cos_neg in Hle. lra.
  - apply Rnot_le_lt. intros H.
    assert (Hle : cos y <= 0) by (apply cos_le_0; lra). lra.
Qed.

Lemma tan_shift_minus (y : R) : cos y <> 0 -> tan (y - PI) = sin y / cos y.
Proof.
  intros Hc. unfold tan.
  pose proof (neg_sin (y - PI)) as Hs. pose proof (neg_cos (y - PI)) as Hc'.
  replace (y - PI + PI) with y in Hs, Hc' by ring.
  replace (sin (y - PI)) with (- sin y) by lra.
  replace (cos (y - PI)) with (- cos y) by lra.
  field. exact Hc.
Qed.

Lemma tan_shift_plus (y : R) : cos y <> 0 -> tan (y + PI) = sin y / cos y.
Proof.
  intros Hc. unfold tan. rewrite neg_sin, neg_cos. field. exact Hc.
Qed.

(** On the principal range the argument of [exp(1j * y)] is [y]. *)
Lemma atan2_sin_cos (y : R) :
  - PI < y <= PI -> atan2 (sin y) (cos y) = y.
Proof.
  intros Hy. pose proof PI_RGT_0 as Hpi. unfold atan2.
  destruct (Rlt_dec 0 (cos y)) as [Hc|Hc].
  - change (sin y / cos y) with (tan y). apply atan_tan.
    apply cos_pos_range; assumption.
  - destruct (Rlt_dec (cos y) 0) as [Hn|Hn].
    + destruct (Rle_dec 0 (sin y)) as [Hs|Hs].
      * assert (Hr : PI / 2 < y).
        { apply Rnot_le_lt. intros H.
          destruct (Rle_lt_dec (- (PI / 2)) y) as [H1|H1].
          - pose proof (cos_ge_0 y H1 H). lra.
          - assert (sin y < 0) by (apply sin_lt_0_var; lra). lra. }
        rewrite <- tan_shift_minus by lra.
        rewrite atan_tan by lra. ring.
      * assert (Hr : y < - (PI / 2)).
        { apply Rnot_le_lt. intros H.
          destruct (Rle_lt_dec y (PI / 2)) as [H1|H1].
          - pose proof (cos_ge_0 y H H1). lra.
          - assert (0 <= sin y) by (apply sin_ge_0; lra). lra. }
        rewrite <- tan_shift_plus by lra.
        rewrite atan_tan by lra. ring.
    + assert (Hz : cos y = 0) by lra.
      assert (Hcases : y = PI / 2 \/ y = - (PI / 2)).
      { destruct (Rtotal_order y (PI / 2)) as [H|[H|H]].
        - destruct (Rtotal_order y (- (PI / 2))) as [H'|[H'|H']].
          + assert (cos (- y) < 0) by (apply cos_lt_0; lra).
            rewrite cos_neg in *. lra.
          + right; exact H'.
          + assert (0 < cos y) by (apply cos_gt_0; lra). lra.
        - left; exact H.
        - assert (cos y < 0) by (apply cos_lt_0; lra). lra. }
      destruct Hcases as [-> | ->].
      * rewrite sin_PI2. destruct (Rlt_dec 0 1); [reflexivity|lra].
      * rewrite sin_neg, sin_PI2.
        repeat match goal with
               | |- context [Rlt_dec ?a ?b] => destruct (Rlt_dec a b)
               end; try lra; reflexivity.
Qed.

Lemma wrap_id (y : R) : - PI < y <= PI -> wrap y = y.
Proof. intros Hy. rewrite wrap_atan2. apply atan2_sin_cos. exact Hy. Qed.

Lemma sin_period_Z (x : R) (k : Z) : sin (x + 2 * IZR k * PI) = sin x.
Proof.
  destruct (Z_le_gt_dec 0 k) as [Hk|Hk].
  - rewrite <- (Z2Nat.id k Hk), <- INR_IZR_INZ. apply sin_period.
  - rewrite <- (sin_period (x + 2 * IZR k * PI) (Z.to_nat (- k))).
    f_equal. rewrite INR_IZR_INZ, Z2Nat.id by lia.
    rewrite opp_IZR. ring.
Qed.

Lemma cos_period_Z (x : R) (k : Z) : cos (x + 2 * IZR k * PI) = cos x.
Proof.
  destruct (Z_le_gt_dec 0 k) as [Hk|Hk].
  - rewrite <- (Z2Nat.id k Hk), <- INR_IZR_INZ. apply cos_period.
  - rewrite <- (cos_period (x + 2 * IZR k * PI) (Z.to_nat (- k))).
    f_equal. rewrite INR_IZR_INZ, Z2Nat.id by lia.
    rewrite opp_IZR. ring.
Qed.

Lemma wrap_period (x : R) (k : Z) : wrap (x + 2 * IZR k * PI) = wrap x.
Proof. rewrite !wrap_atan2, sin_period_Z, cos_period_Z. reflexivity. Qed.


Lemma cong2pi_refl (a : R) : cong2pi a a.
Proof. exists 0%Z. ring. Qed.

Lemma cong2pi_trans (a b c : R) : cong2pi a b -> cong2pi b c -> cong2pi a c.
Proof.
  intros [k Hk] [l Hl]. exists (k + l)%Z. rewrite plus_IZR. lra.
Qed.

Lemma cong2pi_plus (a b c d : R) :
  cong2pi a b -> cong2pi c d -> cong2pi (a + c) (b + d).
Proof.
  intros [k Hk] [l Hl]. exists (k + l)%Z. rewrite plus_IZR. lra.
Qed.

Lemma cong2pi_wrap_eq (a b : R) : cong2pi a b -> wrap a = wrap b.
Proof. intros [k ->]. apply wrap_period. Qed.

(** [wrap] lands in the principal range and moves its argument by a whole
    number of cycles. *)
Lemma wrap_spec (x : R) : cong2pi (wrap x) x /\ - PI < wrap x <= PI.
Proof.
  pose proof PI_RGT_0 as Hpi.
  set (t := (PI - x) / (2 * PI)).
  set (m := (up t - 1)%Z).
  assert (Ht : t * (2 * PI) = PI - x) by (unfold t; field; lra).
  destruct (archimed t) as [H1 H2].
  assert (Hm : IZR m = IZR (up t) - 1) by (unfold m; rewrite minus_IZR; ring).
  assert (Hlo : IZR m * (2 * PI) <= t * (2 * PI))
    by (apply Rmult_le_compat_r; lra).
  assert (Hhi : t * (2 * PI) < (IZR m + 1) * (2 * PI))
    by (apply Rmult_lt_compat_r; lra).
  assert (Hy : - PI < x + 2 * IZR m * PI <= PI) by lra.
  rewrite <- (wrap_period x m), (wrap_id _ Hy).
  split; [exists m; reflexivity|exact Hy].
Qed.

Close Scope R_scope.

(** ** The integrated estimate of the fallback unwrapper *)

Import SNAPHUUnwrapper.

Open Scope R_scope.

Lemma upd_same (u : grid) (i j : nat) (v : R) : upd u i j v i j = v.
Proof. unfold upd. rewrite !Nat.eqb_refl. reflexivity. Qed.

Lemma upd_other_row (u : grid) (i j i' j' : nat) (v : R) :
  i' <> i -> upd u i j v i' j' = u i' j'.
Proof.
  intros H. unfold upd. destruct (Nat.eqb_spec i' i); [congruence|].
  reflexivity.
Qed.

Lemma upd_other_col (u : grid) (i j i' j' : nat) (v : R) :
  j' <> j -> upd u i j v i' j' = u i' j'.
Proof.
  intros H. unfold upd. destruct (Nat.eqb_spec j' j); [congruence|].
  rewrite andb_false_r. reflexivity.
Qed.

(** The row sweep up to column [n], started on a row whose first sample is
    0: the row is rebuilt up to whole cycles, relative to its first
    sample; nothing else moves. *)
Lemma row_sweep_spec (phase : grid) (i : nat) (u : grid) (n : nat) :
  u i O = 0 ->
  let u' := fold_left
              (fun u j => upd u i j (u i (j - 1)%nat + grad_x phase i j))
              (seq 1 n) u in
  (forall i' j, i' <> i -> u' i' j = u i' j) /\
  (forall j, (n < j)%nat -> u' i j = u i j) /\
  (forall j, (j <= n)%nat -> cong2pi (u' i j) (phase i j - phase i O)).
Proof.
  intros H0. induction n as [|n IH]; cbn zeta.
  - cbn [seq fold_left]. repeat split; try reflexivity.
    intros j Hj. replace j with O by lia. rewrite H0.
    exists 0%Z. ring.
  - rewrite seq_S, fold_left_app. cbn [fold_left Nat.add].
    cbn zeta in IH. destruct IH as (Ho & Hgt & Hle).
    set (U := fold_left _ (seq 1 n) u) in *.
    repeat split.
    + intros i' j Hi'. rewrite upd_other_row by assumption. apply Ho, Hi'.
    + intros j Hj. rewrite upd_other_col by lia. apply Hgt. lia.
    + intros j Hj. destruct (Nat.eq_dec j (S n)) as [->|Hne].
      * rewrite upd_same. replace (S n - 1)%nat with n by lia.
        unfold grad_x.
        replace (phase i (S n) - phase i O)
          with ((phase i n - phase i O) + (phase i (S n) - phase i n))
          by ring.
        apply cong2pi_plus; [apply Hle; lia|apply wrap_spec].
      * rewrite upd_other_col by assumption. apply Hle. lia.
Qed.

Lemma integrate_rows_spec (phase : grid) (width : nat) (m : nat) :
  let u := integrate_rows m width (grad_x phase) (fun _ _ => 0) in
  (forall i j, (m <= i)%nat -> u i j = 0) /\
  (forall i j, (i < m)%nat -> (j < width)%nat ->
     cong2pi (u i j) (phase i j - phase i O)).
Proof.
  induction m as [|m IH]; cbn zeta; unfold integrate_rows.
  - cbn [seq fold_left]. split; [reflexivity|]. intros; lia.
  - rewrite seq_S, fold_left_app. cbn [fold_left Nat.add].
    cbn zeta in IH. unfold integrate_rows in IH.
    set (U := fold_left _ (seq 0 m) _) in *.
    destruct IH as (Hz & Hc).
    destruct (row_sweep_spec phase m U (width - 1) (Hz m O (le_n m)))
      as (Ho & _ & Hle).
    fold (row_sweep width (grad_x phase) m U) in Ho, Hle.
    split.
    + intros i j Hi. rewrite Ho by lia. apply Hz. lia.
    + intros i j Hi Hj. destruct (Nat.eq_dec i m) as [->|Hne].
      * apply Hle. lia.
      * rewrite Ho by assumption. apply Hc; lia.
Qed.

(** The column-wise adjustment moves every sample by whole cycles only. *)
Lemma adjust_cong (dy : grid) (i j : nat) (u : grid) (i' j' : nat) :
  cong2pi (adjust dy i j u i' j') (u i' j').
Proof.
  unfold adjust, upd.
  destruct (Nat.eqb i' i && Nat.eqb j' j) eqn:E.
  - apply andb_true_iff in E. destruct E as [E1 E2].
    apply Nat.eqb_eq in E1, E2. subst.
    match goal with
    | |- context [np_round ?x] => exists (np_round x)
    end.
    ring.
  - apply cong2pi_refl.
Qed.

Lemma fold_cong {A} (step : grid -> A -> grid) (l : list A) :
  (forall u a i j, cong2pi (step u a i j) (u i j)) ->
  forall u i j, cong2pi (fold_left step l u i j) (u i j).
Proof.
  intros Hstep. induction l as [|a l IH]; intros u i j; cbn [fold_left].
  - apply cong2pi_refl.
  - eapply cong2pi_trans; [apply IH|apply Hstep].
Qed.

Lemma adjust_cols_cong (height width : nat) (dy u : grid) (i j : nat) :
  cong2pi (adjust_cols height width dy u i j) (u i j).
Proof.
  unfold adjust_cols. apply fold_cong. clear.
  intros u c i j. unfold col_sweep. apply fold_cong.
  intros; apply adjust_cong.
Qed.

(** The integrated estimate equals the wrapped phase relative to the first
    sample of its row, up to whole cycles. *)
Lemma integrated_cong (height width : nat) (phase : grid) (i j : nat) :
  (i < height)%nat -> (j < width)%nat ->
  cong2pi (integrated height width phase i j) (phase i j - phase i O).
Proof.
  intros Hi Hj. unfold integrated.
  eapply cong2pi_trans; [apply adjust_cols_cong|].
  apply (integrate_rows_spec phase width height); assumption.
Qed.

Close Scope R_scope.

(** ** The blend of step 4 *)

Open Scope R_scope.

Lemma blend_zero_weight (u a b : R) :
  b <> 0 -> blend u (fdiv (Fin a) (Fin b)) 0 = Fin u.
Proof.
  intros Hb. unfold blend, fdiv, fmul, fadd, Rzero.
  destruct (Req_EM_T b 0); [contradiction|]. f_equal. unfold Rdiv. ring.
Qed.

Lemma blend_unit_weight (u a b : R) :
  b <> 0 -> blend u (fdiv (Fin a) (Fin b)) 1 = Fin (a / b).
Proof.
  intros Hb. unfold blend, fdiv, fmul, fadd, Rzero.
  destruct (Req_EM_T b 0); [contradiction|]. f_equal. unfold Rdiv. ring.
Qed.

Lemma blend_finite (u a b w : R) :
  b <> 0 ->
  blend u (fdiv (Fin a) (Fin b)) w = Fin (u * (1 - w) + a / b * w).
Proof.
  intros Hb. unfold blend, fdiv, fmul, fadd, Rzero.
  destruct (Req_EM_T b 0); [contradiction|]. reflexivity.
Qed.

Lemma ramp_integrated (j : nat) :
  integrated 1 2 ramp O j = match j with S O => 1 | _ => 0 end.
Proof.
  unfold integrated, adjust_cols, col_sweep, integrate_rows, row_sweep.
  cbn [seq fold_left Nat.sub]. unfold upd, grad_x, ramp.
  destruct j as [|[|j]]; cbn [Nat.eqb andb]; try reflexivity.
  replace (1 - 0) with 1 by ring. rewrite wrap_id; [ring|].
  pose proof PI2_1. pose proof PI_RGT_0. lra.
Qed.

Close Scope R_scope.

(** ** Claims about the fallback unwrapper *)

Open Scope R_scope.

Lemma full_coherence_weight (height width i j : nat) :
  convolve3 height width
    (fun i j => full_coherence i j * full_coherence i j) i j = 1.
Proof. unfold convolve3, full_coherence. cbn [map Rsum fold_right]. lra. Qed.

(** The output of the fallback unwrapper on the two-pixel ramp at full
    coherence. *)
Lemma ramp_unwrapped :
  mcf_unwrap 1 2 ramp full_coherence 0 0 = Fin (1 / 3) /\
  mcf_unwrap 1 2 ramp full_coherence 0 1 = Fin (2 / 3).
Proof.
  unfold mcf_unwrap, smoothed.
  rewrite !blend_finite by (rewrite full_coherence_weight; lra).
  rewrite !full_coherence_weight.
  unfold convolve3. cbn [map Rsum fold_right].
  repeat match goal with
         | |- context [reflect ?n ?k] =>
             let v := eval vm_compute in (reflect n k) in
             change (reflect n k) with v
         end.
  rewrite !ramp_integrated. unfold full_coherence.
  split; f_equal; field.
Qed.

(** C1, as stated, fails: on a noise-free raster whose first sample is 0,
    at full coherence, the re-wrapped output differs from the input. *)
Lemma C1_counterexample :
  (forall i j, - PI < ramp i j <= PI) /\
  exists x, mcf_unwrap 1 2 ramp full_coherence 0 1 = Fin x /\
            wrap x <> ramp 0%nat 1%nat.
Proof.
  pose proof PI2_1 as H1. pose proof PI_RGT_0 as H0. split.
  - intros i [|j]; cbn; lra.
  - exists (2 / 3). split; [apply ramp_unwrapped|].
    rewrite wrap_id by lra. cbn. lra.
Qed.

Lemma cong2pi_minus (a b c d : R) :
  cong2pi a b -> cong2pi c d -> cong2pi (a - c) (b - d).
Proof.
  intros [k Hk] [l Hl]. exists (k - l)%Z. rewrite minus_IZR. lra.
Qed.

(** C1, amended.  For every wrapped-phase raster, the estimate integrated
    by steps 1 to 3 reproduces the wrapped phase along each row up to whole
    cycles: for two pixels of one row, re-wrapping the difference of their
    estimates gives the wrapped difference of their input phases (the
    difference itself when it lies in (-pi, pi]).  The value returned for a
    pixel is the step-4 blend of that estimate with its smoothed version; it
    is the estimate itself where the pixel has coherence 0 and its 3x3
    neighbourhood has some nonzero coherence. *)
Theorem C1_rewrap_along_rows (height width : nat) (phase coherence : grid)
    (i j j' : nat) :
  (i < height)%nat -> (j < width)%nat -> (j' < width)%nat ->
  let u := integrated height width phase in
  wrap (u i j - u i j') = wrap (phase i j - phase i j') /\
  (- PI < phase i j - phase i j' <= PI ->
   wrap (u i j - u i j') = phase i j - phase i j') /\
  (coherence i j = 0 ->
   convolve3 height width
     (fun i j => coherence i j * coherence i j) i j <> 0 ->
   mcf_unwrap height width phase coherence i j = Fin (u i j)).
Proof.
  intros Hi Hj Hj' u.
  assert (Hw : wrap (u i j - u i j') = wrap (phase i j - phase i j')).
  { apply cong2pi_wrap_eq.
    replace (phase i j - phase i j')
      with ((phase i j - phase i O) - (phase i j' - phase i O)) by ring.
    apply cong2pi_minus; apply integrated_cong; assumption. }
  split; [exact Hw|]. split.
  - intros Hr. rewrite Hw. apply wrap_id. exact Hr.
  - intros Hc Hn. unfold mcf_unwrap, smoothed. fold u.
    rewrite Hc, Rmult_0_l. apply blend_zero_weight. exact Hn.
Qed.

Lemma C1_rewrap_along_rows_witness :
  wrap (integrated 1 2 ramp 0%nat 1%nat - integrated 1 2 ramp 0%nat 0%nat)
  = wrap (ramp 0%nat 1%nat - ramp 0%nat 0%nat).
Proof.
  apply (C1_rewrap_along_rows 1 2 ramp full_coherence 0 1 0); lia.
Defined.

(** C2, as stated, fails: a pixel of full coherence does not retain its
    direct integration result. *)
Lemma C2_counterexample :
  full_coherence 0%nat 0%nat = 1 /\
  mcf_unwrap 1 2 ramp full_coherence 0 0
    <> Fin (integrated 1 2 ramp 0%nat 0%nat).
Proof.
  split; [reflexivity|].
  rewrite (proj1 ramp_unwrapped), ramp_integrated.
  intros H. inversion H. lra.
Qed.

(** C2, amended.  Wherever the 3x3 neighbourhood of a pixel has some nonzero
    coherence, the value returned by the fallback unwrapper is
    [raw * (1 - c^2) + smooth * c^2], with [raw] the integrated estimate,
    [c] the pixel's coherence and [smooth] the 3x3 average of the estimate
    weighted by squared coherence: the weight of the smoothed estimate is
    the squared coherence, so a pixel of coherence 1 takes the smoothed
    estimate and a pixel of coherence 0 retains the direct integration
    result. *)
Theorem C2_blend_weight (height width : nat) (phase coherence : grid)
    (i j : nat) :
  let weight : grid := fun i j => coherence i j * coherence i j in
  let raw := integrated height width phase in
  let smooth :=
    convolve3 height width (fun i j => raw i j * weight i j) i j
    / convolve3 height width weight i j in
  convolve3 height width weight i j <> 0 ->
  mcf_unwrap height width phase coherence i j
    = Fin (raw i j * (1 - weight i j) + smooth * weight i j) /\
  (coherence i j = 1 ->
   mcf_unwrap height width phase coherence i j = Fin smooth) /\
  (coherence i j = 0 ->
   mcf_unwrap height width phase coherence i j = Fin (raw i j)).
Proof.
  intros weight raw smooth Hn. unfold mcf_unwrap, smoothed.
  fold raw. fold weight. repeat split.
  - apply blend_finite. exact Hn.
  - intros Hc. rewrite Hc, Rmult_1_l.
    apply blend_unit_weight. exact Hn.
  - intros Hc. rewrite Hc, Rmult_0_l.
    apply blend_zero_weight. exact Hn.
Qed.

Lemma C2_blend_weight_witness :
  mcf_unwrap 1 2 ramp full_coherence 0 0
  = Fin (convolve3 1 2
           (fun i j => integrated 1 2 ramp i j
                       * (full_coherence i j * full_coherence i j)) 0%nat 0%nat
         / convolve3 1 2
             (fun i j => full_coherence i j * full_coherence i j) 0%nat 0%nat).
Proof.
  apply (C2_blend_weight 1 2 ramp full_coherence 0 0).
  - rewrite full_coherence_weight. lra.
  - reflexivity.
Defined.

Close Scope R_scope.

(** ** Coherence *)

Import SARProcessor.

Open Scope R_scope.

Lemma Rsum_map_ext {A} (f g : A -> R) (l : list A) :
  (forall x, f x = g x) -> Rsum (map f l) = Rsum (map g l).
Proof. intros H. rewrite (map_ext f g H). reflexivity. Qed.

Lemma Rsum_map_zero {A} (l : list A) : Rsum (map (fun _ => 0) l) = 0.
Proof.
  unfold Rsum. induction l as [|x l IH]; simpl; [reflexivity|].
  rewrite IH. ring.
Qed.

Lemma uniform_filter1d_ext (n size : nat) (f g : nat -> R) (l : nat) :
  (forall x, f x = g x) ->
  uniform_filter1d n size f l = uniform_filter1d n size g l.
Proof.
  intros H. unfold uniform_filter1d. f_equal.
  apply Rsum_map_ext. intros k. apply H.
Qed.

Lemma uniform_filter_ext (h w size : nat) (f g : nat -> nat -> R) (i j : nat) :
  (forall x y, f x y = g x y) ->
  uniform_filter h w size f i j = uniform_filter h w size g i j.
Proof.
  intros H. unfold uniform_filter.
  destruct (size <=? 1)%nat; [apply H|].
  apply uniform_filter1d_ext. intros y.
  apply uniform_filter1d_ext. intros x. apply H.
Qed.

Lemma uniform_filter_zero (h w size i j : nat) :
  uniform_filter h w size (fun _ _ => 0) i j = 0.
Proof.
  unfold uniform_filter, uniform_filter1d.
  destruct (size <=? 1)%nat; [reflexivity|].
  rewrite (Rsum_map_ext _ (fun _ => 0)).
  - rewrite Rsum_map_zero. unfold Rdiv. ring.
  - intros k. rewrite Rsum_map_zero. unfold Rdiv. ring.
Qed.

Lemma clip01_range (x : R) : 0 <= clip01 x <= 1.
Proof.
  unfold clip01, Rmin, Rmax.
  destruct (Rle_dec x 0); destruct (Rle_dec _ 1); lra.
Qed.

Lemma Cabs_sqr (z : C) : Cabs z * Cabs z = re z * re z + im z * im z.
Proof. unfold Cabs. apply sqrt_sqrt. nra. Qed.

(** With identical inputs the numerator and the denominator coincide. *)
Lemma numerator_same (h w size : nat) (ref sec : nat -> nat -> C) (i j : nat) :
  (forall x y, sec x y = ref x y) ->
  numerator h w ref sec size i j = denominator h w ref sec size i j.
Proof.
  intros Hsame.
  unfold numerator, denominator, uniform_filter_complex, Cabs at 1.
  cbn [re im].
  rewrite (uniform_filter_ext h w size
             (fun i j => im (Cmul (Cconj (ref i j)) (sec i j)))
             (fun _ _ => 0))
    by (intros; rewrite Hsame; cbn [re im Cmul Cconj]; ring).
  rewrite uniform_filter_zero.
  rewrite (uniform_filter_ext h w size
             (fun i j => re (Cmul (Cconj (ref i j)) (sec i j)))
             (fun i j => Cabs (ref i j) * Cabs (ref i j)))
    by (intros; rewrite Hsame, Cabs_sqr; cbn [re im Cmul Cconj]; ring).
  rewrite (uniform_filter_ext h w size
             (fun i j => Cabs (sec i j) * Cabs (sec i j))
             (fun i j => Cabs (ref i j) * Cabs (ref i j)))
    by (intros; rewrite Hsame; reflexivity).
  f_equal. ring.
Qed.

(** C7.  For every pair of complex rasters of one shape and every window,
    the coherence computed by [_compute_coherence] lies in [0, 1] at every
    pixel, is 0 wherever the windowed denominator is zero, and is 1 wherever
    the denominator is nonzero when reference and secondary are
    identical. *)
Theorem C7_coherence (h w : nat) (ref sec : nat -> nat -> C)
    (window_size i j : nat) :
  0 <= compute_coherence h w ref sec window_size i j <= 1 /\
  (denominator h w ref sec window_size i j = 0 ->
   compute_coherence h w ref sec window_size i j = 0) /\
  ((forall x y, sec x y = ref x y) ->
   denominator h w ref sec window_size i j <> 0 ->
   compute_coherence h w ref sec window_size i j = 1).
Proof.
  split; [apply clip01_range|]. split.
  - intros Hd. unfold compute_coherence.
    destruct (Req_EM_T _ 0) as [_|Hn]; [|contradiction].
    unfold clip01, Rmin, Rmax.
    destruct (Rle_dec 0 0); destruct (Rle_dec _ 1); lra.
  - intros Hsame Hd. unfold compute_coherence.
    destruct (Req_EM_T _ 0) as [Hz|_]; [contradiction|].
    rewrite (numerator_same h w window_size ref sec i j Hsame).
    replace (denominator h w ref sec window_size i j
             / denominator h w ref sec window_size i j) with 1
      by (field; exact Hd).
    unfold clip01, Rmin, Rmax.
    destruct (Rle_dec 1 0); destruct (Rle_dec _ 1); lra.
Qed.

Lemma C7_coherence_witness :
  compute_coherence 1 1 (fun _ _ => mkC 1 0) (fun _ _ => mkC 1 0) 1 0 0 = 1.
Proof.
  apply (C7_coherence 1 1 (fun _ _ => mkC 1 0) (fun _ _ => mkC 1 0) 1 0 0);
    [reflexivity|].
  unfold denominator, uniform_filter. cbn [Nat.leb].
  rewrite Cabs_sqr. cbn [re im].
  replace ((1 * 1 + 0 * 0) * (1 * 1 + 0 * 0)) with 1 by ring.
  rewrite sqrt_1. lra.
Defined.

(** ** Coregistration: what happens on empty or mismatched rasters *)







Close Scope R_scope.

(** ** Complex arithmetic and finite sums *)

Open Scope R_scope.


Lemma C_ext (a b : C) : re a = re b -> im a = im b -> a = b.
Proof. destruct a, b; cbn; intros -> ->; reflexivity. Qed.

Ltac csolve :=
  apply C_ext; cbn [re im Cadd Csub Cmul Cconj Cscale Copp C0 C1 C_of_R];
  try ring.

Lemma C_ring : ring_theory C0 C1 Cadd Cmul Csub Copp (@eq C).
Proof. constructor; intros; csolve. Qed.

Add Ring C_ring_inst : C_ring.


Lemma Csum_n_S (n : nat) (f : nat -> C) :
  Csum_n (S n) f = Cadd (Csum_n n f) (f n).
Proof.
  unfold Csum_n. rewrite seq_S, map_app. cbn [map Nat.add].
  generalize (map f (seq 0 n)). intros l. unfold Csum.
  induction l as [|x l IH]; cbn [app fold_right]; [ring|].
  rewrite IH. ring.
Qed.

Lemma Csum_n_0 (f : nat -> C) : Csum_n 0 f = C0.
Proof. reflexivity. Qed.

Lemma Csum_n_ext (n : nat) (f g : nat -> C) :
  (forall i, (i < n)%nat -> f i = g i) -> Csum_n n f = Csum_n n g.
Proof.
  induction n as [|n IH]; intros H; [reflexivity|].
  rewrite !Csum_n_S, IH, (H n) by (intros; try apply H; lia). reflexivity.
Qed.

Lemma Csum_n_zero (n : nat) : Csum_n n (fun _ => C0) = C0.
Proof.
  induction n as [|n IH]; [reflexivity|]. rewrite Csum_n_S, IH. ring.
Qed.

Lemma Csum_n_add (n : nat) (f g : nat -> C) :
  Csum_n n (fun i => Cadd (f i) (g i)) = Cadd (Csum_n n f) (Csum_n n g).
Proof.
  induction n as [|n IH]; [rewrite !Csum_n_0; ring|].
  rewrite !Csum_n_S, IH. ring.
Qed.

Lemma Csum_n_mul_l (n : nat) (c : C) (f : nat -> C) :
  Cmul c (Csum_n n f) = Csum_n n (fun i => Cmul c (f i)).
Proof.
  induction n as [|n IH]; [rewrite !Csum_n_0; ring|].
  rewrite !Csum_n_S, <- IH. ring.
Qed.

Lemma Csum_n_mul_r (n : nat) (c : C) (f : nat -> C) :
  Cmul (Csum_n n f) c = Csum_n n (fun i => Cmul (f i) c).
Proof.
  induction n as [|n IH]; [rewrite !Csum_n_0; ring|].
  rewrite !Csum_n_S, <- IH. ring.
Qed.

Lemma Csum_n_conj (n : nat) (f : nat -> C) :
  Cconj (Csum_n n f) = Csum_n n (fun i => Cconj (f i)).
Proof.
  induction n as [|n IH]; [rewrite !Csum_n_0; csolve|].
  rewrite !Csum_n_S, <- IH. csolve.
Qed.

Lemma Csum_n_swap (n m : nat) (f : nat -> nat -> C) :
  Csum_n n (fun i => Csum_n m (fun j => f i j))
  = Csum_n m (fun j => Csum_n n (fun i => f i j)).
Proof.
  induction n as [|n IH].
  - rewrite Csum_n_0. symmetry. apply Csum_n_zero.
  - rewrite Csum_n_S, IH, <- Csum_n_add.
    apply Csum_n_ext. intros j _. rewrite Csum_n_S. reflexivity.
Qed.

(** A sum that keeps one term. *)
Lemma Csum_n_delta (n c : nat) (f : nat -> C) :
  (c < n)%nat ->
  Csum_n n (fun i => if Nat.eqb i c then f i else C0) = f c.
Proof.
  induction n as [|n IH]; intros Hc; [lia|].
  rewrite Csum_n_S. destruct (Nat.eq_dec c n) as [->|Hne].
  - rewrite Nat.eqb_refl.
    rewrite (Csum_n_ext n _ (fun _ => C0)).
    + rewrite Csum_n_zero. ring.
    + intros i Hi. destruct (Nat.eqb_spec i n); [lia|reflexivity].
  - rewrite IH by lia.
    destruct (Nat.eqb_spec n c); [lia|]. ring.
Qed.

Close Scope R_scope.

(** ** Roots of unity *)

Open Scope R_scope.


Lemma cis_plus (a b : R) : cis (a + b) = Cmul (cis a) (cis b).
Proof. unfold cis. rewrite cos_plus, sin_plus. csolve. Qed.

Lemma cis_2PI_Z (k : Z) : cis (2 * PI * IZR k) = C1.
Proof.
  unfold cis, C1.
  replace (2 * PI * IZR k) with (0 + 2 * IZR k * PI) by ring.
  rewrite cos_period_Z, sin_period_Z, cos_0, sin_0. reflexivity.
Qed.

Lemma INR_pos_neq (N : nat) : (0 < N)%nat -> INR N <> 0.
Proof. intros H. apply not_0_INR. lia. Qed.

Lemma root_add (N : nat) (s t : Z) :
  root N (s + t) = Cmul (root N s) (root N t).
Proof.
  unfold root. rewrite <- cis_plus. f_equal. rewrite plus_IZR.
  unfold Rdiv. ring.
Qed.

Lemma root_multiple (N : nat) (t : Z) :
  (0 < N)%nat -> root N (Z.of_nat N * t) = C1.
Proof.
  intros HN. unfold root. rewrite mult_IZR, <- INR_IZR_INZ.
  replace (2 * PI * (INR N * IZR t) / INR N) with (2 * PI * IZR t)
    by (field; apply INR_pos_neq; exact HN).
  apply cis_2PI_Z.
Qed.

Lemma root_mod (N : nat) (t : Z) :
  (0 < N)%nat -> root N t = root N (t mod Z.of_nat N).
Proof.
  intros HN.
  rewrite (Z.div_mod t (Z.of_nat N)) at 1 by lia.
  rewrite root_add, root_multiple by exact HN. ring.
Qed.

Lemma root_conj (N : nat) (t : Z) : Cconj (root N t) = root N (- t).
Proof.
  unfold root, cis. rewrite opp_IZR.
  replace (2 * PI * - IZR t / INR N) with (- (2 * PI * IZR t / INR N))
    by (unfold Rdiv; ring).
  rewrite cos_neg, sin_neg. reflexivity.
Qed.

Lemma root_0 (N : nat) : root N 0 = C1.
Proof.
  unfold root, cis, C1. replace (2 * PI * 0 / INR N) with 0
    by (unfold Rdiv; ring).
  rewrite cos_0, sin_0. reflexivity.
Qed.

Lemma root_neq_1 (N : nat) (r : Z) :
  (0 < r < Z.of_nat N)%Z -> root N r <> C1.
Proof.
  intros [Hr0 HrN] H.
  assert (HN : 0 < INR N) by (apply lt_0_INR; lia).
  assert (Hrl : 0 < IZR r) by (apply IZR_lt; exact Hr0).
  assert (Hru : IZR r < INR N).
  { rewrite INR_IZR_INZ. apply IZR_lt. exact HrN. }
  pose proof PI_RGT_0 as Hpi.
  set (x := 2 * PI * IZR r / INR N) in *.
  assert (Hx : x * INR N = 2 * PI * IZR r) by (unfold x; field; lra).
  assert (Hx0 : 0 < x).
  { unfold x. apply Rdiv_lt_0_compat; [|exact HN].
    apply Rmult_lt_0_compat; lra. }
  assert (Hx2 : x < 2 * PI).
  { apply (Rmult_lt_reg_r (INR N)); [exact HN|]. rewrite Hx. nra. }
  unfold root, cis, C1 in H. fold x in H.
  pose proof (f_equal re H) as Hc. pose proof (f_equal im H) as Hs.
  cbn [re im] in Hc, Hs.
  destruct (sin_eq_O_2PI_0 x) as [E|[E|E]]; try lra.
  rewrite E, cos_PI in Hc. lra.
Qed.

Lemma Cmul_integral (u s : C) : Cmul u s = C0 -> u <> C0 -> s = C0.
Proof.
  destruct u as [a b], s as [c d]. unfold Cmul, C0. cbn [re im].
  intros H Hu.
  pose proof (f_equal re H) as H1. pose proof (f_equal im H) as H2.
  cbn [re im] in H1, H2. clear H.
  assert (Hn : a * a + b * b <> 0).
  { intros E. apply Hu.
    destruct (Rplus_sqr_eq_0 a b E) as [-> ->]. reflexivity. }
  assert (Hc : (a * a + b * b) * c = 0).
  { replace ((a * a + b * b) * c)
      with (a * (a * c - b * d) + b * (a * d + b * c)) by ring.
    rewrite H1, H2. ring. }
  assert (Hd : (a * a + b * b) * d = 0).
  { replace ((a * a + b * b) * d)
      with (a * (a * d + b * c) - b * (a * c - b * d)) by ring.
    rewrite H1, H2. ring. }
  apply Rmult_integral in Hc, Hd.
  destruct Hc as [Hc|Hc]; [contradiction|].
  destruct Hd as [Hd|Hd]; [contradiction|].
  subst. reflexivity.
Qed.

Lemma root_geometric (N : nat) (t : Z) (n : nat) :
  Cmul (Csub (root N t) C1) (Csum_n n (fun k => root N (Z.of_nat k * t)))
  = Csub (root N (Z.of_nat n * t)) C1.
Proof.
  induction n as [|n IH].
  - rewrite Csum_n_0. cbn [Z.of_nat Z.mul]. rewrite root_0. ring.
  - rewrite Csum_n_S.
    replace (Z.of_nat (S n) * t)%Z with (Z.of_nat n * t + t)%Z by lia.
    rewrite root_add.
    transitivity
      (Cadd (Cmul (Csub (root N t) C1)
               (Csum_n n (fun k => root N (Z.of_nat k * t))))
            (Cmul (Csub (root N t) C1) (root N (Z.of_nat n * t))));
      [ring|].
    rewrite IH. ring.
Qed.

(** The sum of the [N] powers of an [N]-th root of unity. *)
Lemma root_orthogonal (N : nat) (t : Z) :
  (0 < N)%nat ->
  Csum_n N (fun k => root N (Z.of_nat k * t))
  = if (t mod Z.of_nat N =? 0)%Z then C_of_R (INR N) else C0.
Proof.
  intros HN. destruct (Z.eqb_spec (t mod Z.of_nat N) 0) as [E|E].
  - rewrite (Csum_n_ext N _ (fun _ => C1)).
    + clear. induction N as [|N IH]; [reflexivity|].
      rewrite Csum_n_S, IH, S_INR. csolve.
    + intros k _. rewrite root_mod by exact HN.
      rewrite Z.mul_mod, E, Z.mul_0_r, Z.mod_0_l by lia. apply root_0.
  - apply (Cmul_integral (Csub (root N t) C1)).
    + rewrite root_geometric, root_multiple by exact HN. ring.
    + intros H. apply (root_neq_1 N (t mod Z.of_nat N)).
      * pose proof (Z.mod_pos_bound t (Z.of_nat N)). lia.
      * rewrite <- root_mod by exact HN.
        replace (root N t) with (Cadd (Csub (root N t) C1) C1) by ring.
        rewrite H. ring.
Qed.

Close Scope R_scope.

(** ** The correlation theorem of the discrete Fourier transform *)

Open Scope R_scope.


Lemma Cconj_mul (a b : C) : Cconj (Cmul a b) = Cmul (Cconj a) (Cconj b).
Proof. csolve. Qed.

Lemma dft1_conj (N : nat) (y : nat -> C) (k : nat) :
  Cconj (dft1 N y k)
  = Csum_n N (fun m => Cmul (Cconj (y m))
                            (root N (Z.of_nat k * Z.of_nat m))).
Proof.
  unfold dft1. rewrite Csum_n_conj. apply Csum_n_ext. intros m _.
  rewrite Cconj_mul, root_conj, Z.opp_involutive. reflexivity.
Qed.

Lemma delta_index (N p m' m : nat) :
  (0 < N)%nat -> (m < N)%nat ->
  ((Z.of_nat p + Z.of_nat m' - Z.of_nat m) mod Z.of_nat N =? 0)%Z
  = Nat.eqb m ((p + m') mod N).
Proof.
  intros HN Hm.
  destruct (Nat.eqb_spec m ((p + m') mod N)) as [E|E].
  - apply Z.eqb_eq. subst m.
    rewrite Nat2Z.inj_mod, Nat2Z.inj_add.
    rewrite Zminus_mod, Z.mod_mod, Z.sub_diag by lia. apply Z.mod_0_l. lia.
  - apply Z.eqb_neq. intros H. apply E.
    apply Nat2Z.inj. rewrite Nat2Z.inj_mod, Nat2Z.inj_add.
    apply Z.mod_divide in H; [|lia]. destruct H as [c Hc].
    replace (Z.of_nat p + Z.of_nat m')%Z
      with (Z.of_nat m + c * Z.of_nat N)%Z by lia.
    rewrite Z.mod_add by lia. symmetry. apply Z.mod_small. lia.
Qed.

(** Multiplying two spectra, one of them conjugated, and transforming back
    gives [N] times the circular cross-correlation. *)
Lemma corr1 (N : nat) (x y : nat -> C) (p : nat) :
  (0 < N)%nat ->
  Csum_n N (fun k => Cmul (Cmul (dft1 N x k) (Cconj (dft1 N y k)))
                          (root N (Z.of_nat p * Z.of_nat k)))
  = Cscale (INR N) (circ_corr1 N x y p).
Proof.
  intros HN.
  transitivity
    (Csum_n N (fun k =>
       Csum_n N (fun m' =>
         Csum_n N (fun m =>
           Cmul (Cmul (x m) (Cconj (y m')))
                (root N (Z.of_nat k
                         * (Z.of_nat p + Z.of_nat m' - Z.of_nat m))))))).
  { apply Csum_n_ext. intros k _.
    rewrite dft1_conj. unfold dft1.
    rewrite Csum_n_mul_l, Csum_n_mul_r.
    apply Csum_n_ext. intros m' _.
    rewrite !Csum_n_mul_r. apply Csum_n_ext. intros m _.
    replace (Z.of_nat k * (Z.of_nat p + Z.of_nat m' - Z.of_nat m))%Z
      with (- (Z.of_nat k * Z.of_nat m)
            + (Z.of_nat k * Z.of_nat m' + Z.of_nat p * Z.of_nat k))%Z by lia.
    rewrite !root_add. ring. }
  rewrite Csum_n_swap.
  transitivity
    (Csum_n N (fun m' =>
       Cmul (Cscale (INR N) C1)
            (Cmul (x ((p + m') mod N)%nat) (Cconj (y m'))))).
  - apply Csum_n_ext. intros m' _.
    rewrite Csum_n_swap.
    rewrite (Csum_n_ext N _
               (fun m => if Nat.eqb m ((p + m') mod N)
                         then Cmul (Cscale (INR N) C1)
                                (Cmul (x m) (Cconj (y m')))
                         else C0)).
    + apply Csum_n_delta. apply Nat.mod_upper_bound. lia.
    + intros m Hm. rewrite <- Csum_n_mul_l.
      rewrite root_orthogonal by exact HN.
      rewrite (delta_index N p m' m HN Hm).
      destruct (Nat.eqb m ((p + m') mod N)); csolve.
  - rewrite <- Csum_n_mul_l. unfold circ_corr1. csolve.
Qed.



Lemma kernel_forward (h w k l m n : nat) :
  cis (-1 * (2 * PI * (INR k * INR m / INR h + INR l * INR n / INR w)))
  = Cmul (root h (- (Z.of_nat k * Z.of_nat m)))
         (root w (- (Z.of_nat l * Z.of_nat n))).
Proof.
  unfold root. rewrite <- cis_plus. f_equal.
  rewrite !opp_IZR, !mult_IZR, <- !INR_IZR_INZ. unfold Rdiv. ring.
Qed.

Lemma kernel_backward (h w k l m n : nat) :
  cis (1 * (2 * PI * (INR k * INR m / INR h + INR l * INR n / INR w)))
  = Cmul (root h (Z.of_nat k * Z.of_nat m))
         (root w (Z.of_nat l * Z.of_nat n)).
Proof.
  unfold root. rewrite <- cis_plus. f_equal.
  rewrite !mult_IZR, <- !INR_IZR_INZ. unfold Rdiv. ring.
Qed.

Lemma fourier_sum_unfold (sgn : R) (h w : nat) (x : nat -> nat -> C)
    (k l : nat) :
  fourier_sum sgn h w x k l
  = Csum_n h (fun m =>
      Csum_n w (fun n =>
        Cmul (x m n)
             (cis (sgn * (2 * PI * (INR k * INR m / INR h
                                   + INR l * INR n / INR w)))))).
Proof. reflexivity. Qed.

(** The forward transform is the one-dimensional transform along the
    rows, then along the columns. *)
Lemma fourier_forward (h w : nat) (x : nat -> nat -> C) (k l : nat) :
  fourier_sum (-1) h w x k l = dft1 h (fun m => dft1 w (x m) l) k.
Proof.
  rewrite fourier_sum_unfold. unfold dft1.
  apply Csum_n_ext. intros m _. rewrite Csum_n_mul_r.
  apply Csum_n_ext. intros n _. rewrite kernel_forward. ring.
Qed.

(** The spectrum product of [_estimate_offset], transformed back, is the
    circular cross-correlation of the two rasters. *)
Lemma idft_of_product (h w : nat) (a b : nat -> nat -> C) (p q : nat) :
  (0 < h)%nat -> (0 < w)%nat ->
  Cscale (/ (INR h * INR w))
    (fourier_sum 1 h w
       (fun k l => Cmul (fourier_sum (-1) h w a k l)
                        (Cconj (fourier_sum (-1) h w b k l))) p q)
  = circ_corr2 h w a b p q.
Proof.
  intros Hh Hw.
  set (At := fun l m => dft1 w (a m) l).
  set (Bt := fun l m => dft1 w (b m) l).
  assert (E1 : fourier_sum 1 h w
                 (fun k l => Cmul (fourier_sum (-1) h w a k l)
                                  (Cconj (fourier_sum (-1) h w b k l))) p q
               = Csum_n w (fun l =>
                   Cmul (root w (Z.of_nat q * Z.of_nat l))
                        (Csum_n h (fun k =>
                           Cmul (Cmul (dft1 h (At l) k)
                                      (Cconj (dft1 h (Bt l) k)))
                                (root h (Z.of_nat p * Z.of_nat k)))))).
  { rewrite fourier_sum_unfold, Csum_n_swap.
    apply Csum_n_ext. intros l _. rewrite Csum_n_mul_l.
    apply Csum_n_ext. intros k _.
    rewrite kernel_backward, !fourier_forward. unfold At, Bt. ring. }
  rewrite E1. clear E1.
  assert (E2 : Csum_n w (fun l =>
                 Cmul (root w (Z.of_nat q * Z.of_nat l))
                      (Csum_n h (fun k =>
                         Cmul (Cmul (dft1 h (At l) k)
                                    (Cconj (dft1 h (Bt l) k)))
                              (root h (Z.of_nat p * Z.of_nat k)))))
               = Cscale (INR h)
                   (Csum_n h (fun m =>
                      Csum_n w (fun l =>
                        Cmul (Cmul (dft1 w (a ((p + m) mod h)%nat) l)
                                   (Cconj (dft1 w (b m) l)))
                             (root w (Z.of_nat q * Z.of_nat l)))))).
  { rewrite (Csum_n_swap h w).
    transitivity
      (Csum_n w (fun l =>
         Cmul (Cscale (INR h) C1)
           (Csum_n h (fun m =>
              Cmul (Cmul (dft1 w (a ((p + m) mod h)%nat) l)
                         (Cconj (dft1 w (b m) l)))
                   (root w (Z.of_nat q * Z.of_nat l)))))).
    - apply Csum_n_ext. intros l _.
      rewrite (corr1 h (At l) (Bt l) p Hh). unfold circ_corr1, At, Bt.
      rewrite <- Csum_n_mul_r. csolve.
    - rewrite <- Csum_n_mul_l. csolve. }
  rewrite E2. clear E2.
  rewrite (Csum_n_ext h _
             (fun m => Cscale (INR w)
                         (circ_corr1 w (a ((p + m) mod h)%nat) (b m) q)))
    by (intros m _; apply corr1; exact Hw).
  unfold circ_corr2, circ_corr1.
  transitivity
    (Cmul (Cscale (/ (INR h * INR w)) (Cscale (INR h) (Cscale (INR w) C1)))
       (Csum_n h (fun m =>
          Csum_n w (fun n =>
            Cmul (a ((p + m) mod h)%nat ((q + n) mod w)%nat)
                 (Cconj (b m n)))))).
  - rewrite (Csum_n_ext h
               (fun m => Cscale (INR w)
                  (Csum_n w (fun n =>
                     Cmul (a ((p + m) mod h)%nat ((q + n) mod w)%nat)
                          (Cconj (b m n)))))
               (fun m => Cmul (Cscale (INR w) C1)
                  (Csum_n w (fun n =>
                     Cmul (a ((p + m) mod h)%nat ((q + n) mod w)%nat)
                          (Cconj (b m n))))))
      by (intros; csolve).
    rewrite <- Csum_n_mul_l. csolve.
  - replace (Cscale (/ (INR h * INR w))
               (Cscale (INR h) (Cscale (INR w) C1))) with C1.
    + ring.
    + apply C_ext; cbn [re im Cscale C1]; field;
        split; apply INR_pos_neq; assumption.
Qed.

Close Scope R_scope.

(** ** Cyclic shifts *)

Open Scope R_scope.


Lemma rolled_lt (N : nat) (c : Z) (m : nat) :
  (0 < N)%nat -> (rolled N c m < N)%nat.
Proof.
  intros HN. unfold rolled.
  pose proof (Z.mod_pos_bound (Z.of_nat m - c) (Z.of_nat N)). lia.
Qed.

Lemma rolled_inverse (N : nat) (c : Z) (m j : nat) :
  (0 < N)%nat -> (m < N)%nat -> (j < N)%nat ->
  Nat.eqb j (rolled N c m) = Nat.eqb m (rolled N (- c) j).
Proof.
  intros HN Hm Hj. unfold rolled.
  pose proof (Z.mod_pos_bound (Z.of_nat m - c) (Z.of_nat N)) as B1.
  pose proof (Z.mod_pos_bound (Z.of_nat j - - c) (Z.of_nat N)) as B2.
  destruct (Nat.eqb_spec j (Z.to_nat ((Z.of_nat m - c) mod Z.of_nat N)))
    as [E|E];
    destruct (Nat.eqb_spec m
                (Z.to_nat ((Z.of_nat j - - c) mod Z.of_nat N))) as [F|F];
    try reflexivity; exfalso.
  - apply F. apply Nat2Z.inj. rewrite Z2Nat.id by lia.
    rewrite E, Z2Nat.id by lia.
    rewrite Zminus_mod_idemp_l.
    replace (Z.of_nat m - c - - c)%Z with (Z.of_nat m) by lia.
    symmetry. apply Z.mod_small. lia.
  - apply E. apply Nat2Z.inj. rewrite Z2Nat.id by lia.
    rewrite F, Z2Nat.id by lia.
    rewrite Zminus_mod_idemp_l.
    replace (Z.of_nat j - - c - c)%Z with (Z.of_nat j) by lia.
    symmetry. apply Z.mod_small. lia.
Qed.

(** A sum over a cyclic shift of the indices is the sum itself. *)
Lemma Csum_n_rolled (N : nat) (c : Z) (F : nat -> C) :
  (0 < N)%nat ->
  Csum_n N (fun m => F (rolled N c m)) = Csum_n N F.
Proof.
  intros HN.
  rewrite (Csum_n_ext N _
             (fun m => Csum_n N (fun j => if Nat.eqb j (rolled N c m)
                                          then F j else C0))).
  2:{ intros m _. symmetry. apply Csum_n_delta. apply rolled_lt, HN. }
  rewrite Csum_n_swap. apply Csum_n_ext. intros j Hj.
  rewrite (Csum_n_ext N _
             (fun m => if Nat.eqb m (rolled N (- c) j)
                       then (fun _ => F j) m else C0)).
  - apply (Csum_n_delta N (rolled N (- c) j) (fun _ => F j)).
    apply rolled_lt, HN.
  - intros m Hm. rewrite (rolled_inverse N c m j HN Hm Hj). reflexivity.
Qed.

Lemma shifted_lag (N p : nat) (c : Z) (m : nat) :
  (0 < N)%nat ->
  ((p + m) mod N)%nat
  = ((Z.to_nat ((Z.of_nat p + c) mod Z.of_nat N) + rolled N c m) mod N)%nat.
Proof.
  intros HN. unfold rolled.
  pose proof (Z.mod_pos_bound (Z.of_nat m - c) (Z.of_nat N)) as B1.
  pose proof (Z.mod_pos_bound (Z.of_nat p + c) (Z.of_nat N)) as B2.
  apply Nat2Z.inj. rewrite !Nat2Z.inj_mod, !Nat2Z.inj_add.
  rewrite !Z2Nat.id by lia.
  rewrite <- Z.add_mod by lia. f_equal. lia.
Qed.

(** Cross-correlating a raster with a cyclically shifted copy of itself
    gives its autocorrelation at the shifted lag. *)
Lemma circ_corr2_rolled (h w : nat) (a : nat -> nat -> C) (dr dc : Z)
    (p q : nat) :
  (0 < h)%nat -> (0 < w)%nat ->
  circ_corr2 h w a (fun m n => a (rolled h dr m) (rolled w dc n)) p q
  = circ_corr2 h w a a
      (Z.to_nat ((Z.of_nat p + dr) mod Z.of_nat h))
      (Z.to_nat ((Z.of_nat q + dc) mod Z.of_nat w)).
Proof.
  intros Hh Hw. unfold circ_corr2.
  set (P := Z.to_nat ((Z.of_nat p + dr) mod Z.of_nat h)).
  set (Q := Z.to_nat ((Z.of_nat q + dc) mod Z.of_nat w)).
  rewrite <- (Csum_n_rolled h dr
                (fun m' => Csum_n w (fun n =>
                   Cmul (a ((P + m') mod h)%nat ((Q + n) mod w)%nat)
                        (Cconj (a m' n)))) Hh).
  apply Csum_n_ext. intros m _.
  rewrite <- (Csum_n_rolled w dc
                (fun n' => Cmul (a ((P + rolled h dr m) mod h)%nat
                                   ((Q + n') mod w)%nat)
                                (Cconj (a (rolled h dr m) n'))) Hw).
  apply Csum_n_ext. intros n _. subst P Q.
  rewrite <- (shifted_lag h p dr m Hh), <- (shifted_lag w q dc n Hw).
  reflexivity.
Qed.

Close Scope R_scope.

(** ** Row-major cells, [np.argmax] and [np.max] *)

Open Scope R_scope.

Lemma flat_map_rows_length {A} (f : nat -> nat -> A) (w s h : nat) :
  List.length (flat_map (fun i => map (f i) (seq 0 w)) (seq s h))
  = (h * w)%nat.
Proof.
  revert s; induction h as [|h IH]; intros s; cbn [seq flat_map];
    [reflexivity|].
  rewrite length_app, length_map, length_seq, IH. reflexivity.
Qed.

Lemma flat_map_rows_nth {A} (f : nat -> nat -> A) (d : A) (w s h p q : nat) :
  (p < h)%nat -> (q < w)%nat ->
  nth (p * w + q) (flat_map (fun i => map (f i) (seq 0 w)) (seq s h)) d
  = f (s + p)%nat q.
Proof.
  revert s p; induction h as [|h IH]; intros s p Hp Hq; [lia|].
  cbn [seq flat_map]. destruct p as [|p].
  - cbn [Nat.mul Nat.add]. rewrite app_nth1
      by (rewrite length_map, length_seq; exact Hq).
    rewrite (nth_indep _ d (f s O))
      by (rewrite length_map, length_seq; exact Hq).
    rewrite map_nth, seq_nth by exact Hq. rewrite Nat.add_0_r. reflexivity.
  - rewrite app_nth2 by (rewrite length_map, length_seq; cbn; lia).
    rewrite length_map, length_seq.
    replace (S p * w + q - w)%nat with (p * w + q)%nat by (cbn; lia).
    rewrite IH by lia. f_equal. lia.
Qed.

Lemma flatten_length (a : rarray) :
  List.length (flatten a) = (rrows a * rcols a)%nat.
Proof. apply flat_map_rows_length. Qed.

Lemma flatten_nth (a : rarray) (p q : nat) :
  (p < rrows a)%nat -> (q < rcols a)%nat ->
  nth (p * rcols a + q) (flatten a) 0 = rat a p q.
Proof.
  intros Hp Hq. unfold flatten.
  rewrite flat_map_rows_nth by assumption. reflexivity.
Qed.

Lemma flat_map_ext_on {A B} (f g : A -> list B) (l : list A) :
  (forall i, In i l -> f i = g i) -> flat_map f l = flat_map g l.
Proof.
  induction l as [|x l IH]; intros H; cbn [flat_map]; [reflexivity|].
  rewrite (H x (or_introl eq_refl)), IH; [reflexivity|].
  intros i Hi. apply H. right. exact Hi.
Qed.

Lemma flatten_ext (a b : rarray) :
  rrows a = rrows b -> rcols a = rcols b ->
  (forall p q, (p < rrows a)%nat -> (q < rcols a)%nat ->
     rat a p q = rat b p q) ->
  flatten a = flatten b.
Proof.
  intros Hr Hc H. unfold flatten. rewrite <- Hr, <- Hc.
  apply flat_map_ext_on. intros i Hi. apply in_seq in Hi.
  apply map_ext_in. intros j Hj. apply in_seq in Hj.
  apply H; lia.
Qed.

(** [argmax_from] returns the position of a largest element. *)
Lemma argmax_from_max (l : list R) :
  forall (pre : list R) (bi : nat) (b : R),
    (bi < List.length pre)%nat ->
    nth bi (pre ++ l) 0 = b ->
    (forall j, (j < List.length pre)%nat -> nth j (pre ++ l) 0 <= b) ->
    let r := argmax_from l (List.length pre) bi b in
    (r < List.length (pre ++ l))%nat /\
    forall j, (j < List.length (pre ++ l))%nat ->
      nth j (pre ++ l) 0 <= nth r (pre ++ l) 0.
Proof.
  induction l as [|x l IH]; intros pre bi b Hbi Hb Hpre; cbn [argmax_from].
  - rewrite app_nil_r in *. split; [exact Hbi|].
    intros j Hj. rewrite Hb. apply Hpre. exact Hj.
  - assert (Hx : nth (List.length pre) (pre ++ x :: l) 0 = x)
      by (rewrite app_nth2, Nat.sub_diag by lia; reflexivity).
    assert (Hl : S (List.length pre) = List.length (pre ++ [x]))
      by (rewrite length_app; cbn; lia).
    assert (Happ : pre ++ x :: l = (pre ++ [x]) ++ l)
      by (rewrite <- app_assoc; reflexivity).
    rewrite Hl, Happ. rewrite Happ in Hb, Hpre, Hx.
    destruct (Rlt_dec b x) as [Hlt|Hge].
    + apply IH.
      * rewrite length_app; cbn; lia.
      * exact Hx.
      * intros j Hj. rewrite length_app in Hj. cbn in Hj.
        destruct (Nat.eq_dec j (List.length pre)) as [->|Hne].
        -- rewrite Hx. lra.
        -- pose proof (Hpre j ltac:(lia)). lra.
    + apply IH.
      * rewrite length_app; cbn; lia.
      * exact Hb.
      * intros j Hj. rewrite length_app in Hj. cbn in Hj.
        destruct (Nat.eq_dec j (List.length pre)) as [->|Hne].
        -- rewrite Hx. lra.
        -- apply Hpre. lia.
Qed.

(** On a list with a single largest element, [np.argmax] finds it. *)
Lemma argmax_unique (l : list R) (i0 : nat) :
  (i0 < List.length l)%nat ->
  (forall j, (j < List.length l)%nat -> j <> i0 -> nth j l 0 < nth i0 l 0) ->
  argmax l = inr i0.
Proof.
  intros Hi Hmax. destruct l as [|x l]; [cbn in Hi; lia|].
  unfold argmax, ret. f_equal.
  destruct (argmax_from_max l [x] O x) as [Hr Hle].
  - cbn; lia.
  - reflexivity.
  - intros j Hj. cbn in Hj. replace j with O by lia. cbn. lra.
  - cbn [List.length app] in Hr, Hle.
    set (r := argmax_from l 1 0 x) in *.
    destruct (Nat.eq_dec r i0) as [E|E]; [exact E|].
    pose proof (Hmax r Hr E). pose proof (Hle i0 Hi). lra.
Qed.

Lemma fold_left_Rmax_spec (l : list R) :
  forall x, let r := fold_left Rmax l x in
  x <= r /\ (forall y, In y l -> y <= r) /\ (r = x \/ In r l).
Proof.
  induction l as [|y l IH]; intros x; cbn [fold_left].
  - split; [lra|]. split; [intros y []|left; reflexivity].
  - destruct (IH (Rmax x y)) as (H1 & H2 & H3).
    pose proof (Rmax_l x y). pose proof (Rmax_r x y).
    split; [lra|]. split.
    + intros z [->|Hz]; [lra|apply H2, Hz].
    + destruct H3 as [H3|H3]; [|right; right; exact H3].
      rewrite H3. unfold Rmax. destruct (Rle_dec x y);
        [right; left; reflexivity|left; reflexivity].
Qed.

Lemma Rmax_list_peak (l : list R) (i0 : nat) :
  (i0 < List.length l)%nat ->
  (forall j, (j < List.length l)%nat -> nth j l 0 <= nth i0 l 0) ->
  Rmax_list l = nth i0 l 0.
Proof.
  intros Hi Hmax. destruct l as [|x l]; [cbn in Hi; lia|].
  unfold Rmax_list.
  destruct (fold_left_Rmax_spec l x) as (H1 & H2 & H3).
  set (r := fold_left Rmax l x) in *.
  assert (Hin : In r (x :: l)) by (destruct H3 as [->|H3]; [left|right]; auto).
  assert (Hge : nth i0 (x :: l) 0 <= r).
  { destruct i0 as [|i0]; [exact H1|].
    apply H2. cbn. apply nth_In. cbn in Hi. lia. }
  destruct (In_nth _ _ 0 Hin) as (j & Hj & Hjr).
  pose proof (Hmax j Hj). lra.
Qed.

Close Scope R_scope.

(** ** The offset estimator on a cyclically shifted copy *)

Open Scope R_scope.


Lemma fourier_sum_ext (sgn : R) (h w : nat) (x y : nat -> nat -> C)
    (k l : nat) :
  (forall m n, (m < h)%nat -> (n < w)%nat -> x m n = y m n) ->
  fourier_sum sgn h w x k l = fourier_sum sgn h w y k l.
Proof.
  intros H. rewrite !fourier_sum_unfold.
  apply Csum_n_ext. intros m Hm. apply Csum_n_ext. intros n Hn.
  rewrite (H m n Hm Hn). reflexivity.
Qed.

Lemma bat_in_range (a : carray) (i j : nat) :
  (i < nrows a)%nat -> (j < ncols a)%nat -> bat a i j = at_ a i j.
Proof.
  intros Hi Hj. unfold bat.
  destruct (Nat.eqb_spec (nrows a) 1) as [E|_];
    destruct (Nat.eqb_spec (ncols a) 1) as [F|_];
    try (replace i with O by lia); try (replace j with O by lia);
    reflexivity.
Qed.

Lemma nonempty_check (h w : nat) :
  (0 < h)%nat -> (0 < w)%nat -> Nat.eqb h 0 || Nat.eqb w 0 = false.
Proof.
  intros Hh Hw. destruct (Nat.eqb_spec h 0), (Nat.eqb_spec w 0);
    try lia; reflexivity.
Qed.

Lemma broadcast_dim_same (n : nat) : broadcast_dim n n = Some n.
Proof. unfold broadcast_dim. rewrite Nat.eqb_refl. reflexivity. Qed.

(** The correlation surface computed by [_estimate_offset] for a raster
    that fits in the window and its rolled copy. *)
Lemma cross_correlation_rolled (a : carray) (dr dc : Z) (window_size : nat) :
  (0 < nrows a <= window_size)%nat -> (0 < ncols a <= window_size)%nat ->
  exists cc,
    cross_correlation a (apply_offset a dr dc) window_size = inr cc /\
    flatten cc = flatten (surface a dr dc) /\
    rrows cc = nrows a /\ rcols cc = ncols a.
Proof.
  intros [Hh Hhw] [Hw Hww].
  unfold cross_correlation, fft2, window.
  cbn [nrows ncols apply_offset at_].
  rewrite !Nat.min_l by lia. rewrite nonempty_check by assumption.
  cbn [bind ret]. unfold broadcast2. cbn [conj_array nrows ncols].
  rewrite !broadcast_dim_same. cbn [bind ret].
  unfold ifft2. cbn [nrows ncols]. rewrite nonempty_check by assumption.
  cbn [bind ret]. eexists. split; [reflexivity|].
  split; [|split; reflexivity].
  apply flatten_ext; cbn [abs_array surface rrows rcols rat nrows ncols at_];
    try reflexivity.
  intros p q Hp Hq. f_equal.
  rewrite (fourier_sum_ext 1 (nrows a) (ncols a) _
             (fun k l =>
                Cmul (fourier_sum (-1) (nrows a) (ncols a) (at_ a) k l)
                     (Cconj (fourier_sum (-1) (nrows a) (ncols a)
                               (fun m n => at_ a (rolled (nrows a) dr m)
                                                 (rolled (ncols a) dc n))
                               k l)))).
  - rewrite idft_of_product by assumption.
    rewrite circ_corr2_rolled by assumption. reflexivity.
  - intros k l Hk Hl. rewrite !bat_in_range by (cbn; assumption).
    reflexivity.
Qed.


Lemma lag_zero_iff (N : nat) (d : Z) (p : nat) :
  (0 < N)%nat -> (p < N)%nat -> (lag N d p = O <-> p = lag N (- d) O).
Proof.
  intros HN Hp. unfold lag.
  pose proof (Z.mod_pos_bound (Z.of_nat p + d) (Z.of_nat N)) as B1.
  pose proof (Z.mod_pos_bound (Z.of_nat 0 + - d) (Z.of_nat N)) as B2.
  split; intros H.
  - assert (E : ((Z.of_nat p + d) mod Z.of_nat N = 0)%Z) by lia.
    apply Z.mod_divide in E; [|lia]. destruct E as [c Hc].
    apply Nat2Z.inj. rewrite Z2Nat.id by lia.
    replace (Z.of_nat 0 + - d)%Z with (Z.of_nat p + - c * Z.of_nat N)%Z
      by lia.
    rewrite Z.mod_add by lia. symmetry. apply Z.mod_small. lia.
  - rewrite H, Z2Nat.id by lia.
    rewrite Zplus_mod_idemp_l.
    replace (Z.of_nat 0 + - d + d)%Z with 0%Z by lia.
    rewrite Z.mod_0_l by lia. reflexivity.
Qed.

Lemma lag_lt (N : nat) (d : Z) (p : nat) : (0 < N)%nat -> (lag N d p < N)%nat.
Proof.
  intros HN. unfold lag.
  pose proof (Z.mod_pos_bound (Z.of_nat p + d) (Z.of_nat N)). lia.
Qed.


(** What [_estimate_offset] returns for a raster with a single
    autocorrelation peak, within the window, and its copy rolled by
    [(dr, dc)]: the peak sits at the lag that undoes the roll. *)
Lemma estimate_offset_rolled (a : carray) (dr dc : Z) (window_size : nat) :
  (0 < nrows a <= window_size)%nat -> (0 < ncols a <= window_size)%nat ->
  single_peak a ->
  estimate_offset a (apply_offset a dr dc) window_size
  = inr {| offset_row := signed window_size (lag (nrows a) (- dr) O);
           offset_col := signed window_size (lag (ncols a) (- dc) O);
           correlation :=
             fdiv (Fin (Cabs (autocorr a O O)))
                  (Fin (Rsum (map Rabs (flatten (surface a dr dc))))) |}.
Proof.
  intros Hh Hw Hpeak.
  destruct (cross_correlation_rolled a dr dc window_size Hh Hw)
    as (cc & Hcc & Hflat & Hr & Hc).
  unfold estimate_offset. rewrite Hcc. cbn [bind]. rewrite Hflat, Hc.
  set (h := nrows a) in *. set (w := ncols a) in *.
  set (p0 := lag h (- dr) O). set (q0 := lag w (- dc) O).
  set (L := flatten (surface a dr dc)).
  assert (Hp0 : (p0 < h)%nat) by (apply lag_lt; lia).
  assert (Hq0 : (q0 < w)%nat) by (apply lag_lt; lia).
  assert (HL : List.length L = (h * w)%nat) by apply flatten_length.
  assert (Hcell : forall p q, (p < h)%nat -> (q < w)%nat ->
            nth (p * w + q) L 0
            = Cabs (autocorr a (lag h dr p) (lag w dc q))).
  { intros p q Hp Hq.
    exact (flatten_nth (surface a dr dc) p q Hp Hq). }
  assert (Hi0 : (p0 * w + q0 < List.length L)%nat) by (rewrite HL; nia).
  assert (Hpk : nth (p0 * w + q0) L 0 = Cabs (autocorr a O O)).
  { rewrite Hcell by assumption.
    rewrite (proj2 (lag_zero_iff h dr p0 ltac:(lia) Hp0) eq_refl).
    rewrite (proj2 (lag_zero_iff w dc q0 ltac:(lia) Hq0) eq_refl).
    reflexivity. }
  assert (Hlt : forall j, (j < List.length L)%nat -> j <> (p0 * w + q0)%nat ->
            nth j L 0 < nth (p0 * w + q0) L 0).
  { intros j Hj Hne. rewrite Hpk. rewrite HL in Hj.
    assert (Hjq : (j mod w < w)%nat) by (apply Nat.mod_upper_bound; lia).
    assert (Hjp : (j / w < h)%nat)
      by (apply Nat.Div0.div_lt_upper_bound; lia).
    assert (Hj' : j = (j / w * w + j mod w)%nat)
      by (rewrite Nat.mul_comm; apply Nat.div_mod_eq).
    rewrite Hj', Hcell by assumption.
    apply Hpeak; try (apply lag_lt; lia).
    intros E. pose proof (f_equal fst E) as E1.
    pose proof (f_equal snd E) as E2. cbn [fst snd] in E1, E2. apply Hne.
    apply (lag_zero_iff h dr (j / w) ltac:(lia) Hjp) in E1.
    apply (lag_zero_iff w dc (j mod w) ltac:(lia) Hjq) in E2.
    fold p0 in E1. fold q0 in E2. rewrite Hj', E1, E2. reflexivity. }
  rewrite (argmax_unique L (p0 * w + q0) Hi0 Hlt). cbn [bind ret].
  rewrite (Rmax_list_peak L (p0 * w + q0) Hi0)
    by (intros j Hj; destruct (Nat.eq_dec j (p0 * w + q0)) as [->|Hne];
        [lra|apply Rlt_le, Hlt; assumption]).
  rewrite Hpk.
  rewrite Nat.div_add_l by lia. rewrite (Nat.div_small q0 w Hq0).
  rewrite Nat.add_0_r.
  rewrite Nat.add_comm, Nat.Div0.mod_add, (Nat.mod_small q0 w Hq0).
  reflexivity.
Qed.

Close Scope R_scope.

(** ** Claims about the offset estimator *)

Open Scope R_scope.

Lemma Cabs_C0 : Cabs C0 = 0.
Proof.
  unfold Cabs, C0. cbn [re im].
  replace (0 * 0 + 0 * 0) with 0 by ring. apply sqrt_0.
Qed.

Lemma Cabs_C1 : Cabs C1 = 1.
Proof.
  unfold Cabs, C1. cbn [re im].
  replace (1 * 1 + 0 * 0) with 1 by ring. apply sqrt_1.
Qed.

(** The autocorrelation of an impulse is an impulse. *)
Lemma autocorr_impulse (h w p q : nat) :
  (p < h)%nat -> (q < w)%nat ->
  autocorr (impulse h w) p q = if Nat.eqb p 0 && Nat.eqb q 0 then C1 else C0.
Proof.
  intros Hp Hq. unfold autocorr, circ_corr2.
  change (nrows (impulse h w)) with h. change (ncols (impulse h w)) with w.
  set (a := at_ (impulse h w)).
  rewrite (Csum_n_ext h _
             (fun m => if Nat.eqb m 0
                       then a ((p + m) mod h)%nat ((q + 0) mod w)%nat
                       else C0)).
  - rewrite (Csum_n_delta h O
               (fun m => a ((p + m) mod h)%nat ((q + 0) mod w)%nat))
      by lia.
    rewrite !Nat.add_0_r, !Nat.mod_small by assumption. reflexivity.
  - intros m Hm.
    rewrite (Csum_n_ext w _
               (fun n => if Nat.eqb n 0
                         then (if Nat.eqb m 0
                               then a ((p + m) mod h)%nat ((q + n) mod w)%nat
                               else C0)
                         else C0)).
    + rewrite (Csum_n_delta w O
                 (fun n => if Nat.eqb m 0
                           then a ((p + m) mod h)%nat ((q + n) mod w)%nat
                           else C0)) by lia.
      reflexivity.
    + intros n Hn.
      replace (a m n)
        with (if Nat.eqb m 0 && Nat.eqb n 0 then C1 else C0) by reflexivity.
      destruct (Nat.eqb m 0), (Nat.eqb n 0); cbn [andb]; csolve.
Qed.

Lemma impulse_single_peak (h w : nat) : single_peak (impulse h w).
Proof.
  intros p q Hp Hq Hne. cbn [impulse nrows ncols] in Hp, Hq.
  rewrite !autocorr_impulse by lia. cbn [Nat.eqb andb].
  destruct (Nat.eqb_spec p 0) as [->|Hp0];
    destruct (Nat.eqb_spec q 0) as [->|Hq0]; cbn [andb];
    try (exfalso; apply Hne; reflexivity);
    rewrite Cabs_C0, Cabs_C1; lra.
Qed.

(** C8, as stated, fails: for a 4 x 4 impulse and its copy rolled by
    (1, 1), with a window of 4, the estimator does not return (1, 1). *)
Lemma C8_counterexample :
  exists off,
    estimate_offset (impulse 4 4) (apply_offset (impulse 4 4) 1 1) 4
      = inr off /\
    (offset_row off, offset_col off) = (-1, -1)%Z /\
    (offset_row off, offset_col off) <> (1, 1)%Z.
Proof.
  eexists. split.
  - apply (estimate_offset_rolled (impulse 4 4) 1 1 4);
      [cbn; lia|cbn; lia|apply impulse_single_peak].
  - split; [reflexivity|discriminate].
Qed.

Lemma signed_lag (ws : nat) (d : Z) :
  (0 < ws)%nat ->
  (- (Z.of_nat ws - Z.of_nat (ws / 2)) <= - d < Z.of_nat (ws / 2))%Z ->
  signed ws (lag ws (- d) O) = (- d)%Z.
Proof.
  intros Hws [Hlo Hhi]. unfold signed, lag.
  assert (Hhalf : (Z.of_nat (ws / 2) <= Z.of_nat ws)%Z).
  { apply Nat2Z.inj_le. apply Nat.Div0.div_le_upper_bound. lia. }
  cbn [Z.of_nat Z.add].
  destruct (Z_lt_ge_dec (- d) 0) as [Hn|Hp].
  - assert (E : ((- d) mod Z.of_nat ws = - d + Z.of_nat ws)%Z).
    { replace (- d)%Z with ((- d + Z.of_nat ws) + - 1 * Z.of_nat ws)%Z
        at 1 by lia.
      rewrite Z.mod_add by lia. apply Z.mod_small. lia. }
    rewrite E.
    destruct (Nat.ltb_spec (Z.to_nat (- d + Z.of_nat ws)) (ws / 2)); lia.
  - assert (E : ((- d) mod Z.of_nat ws = - d)%Z) by (apply Z.mod_small; lia).
    rewrite E.
    destruct (Nat.ltb_spec (Z.to_nat (- d)) (ws / 2)); lia.
Qed.

Lemma signed_mod (ws p : nat) :
  (p < ws)%nat -> (signed ws p mod Z.of_nat ws = Z.of_nat p)%Z.
Proof.
  intros Hp. unfold signed. destruct (p <? ws / 2)%nat.
  - apply Z.mod_small. lia.
  - replace (Z.of_nat p - Z.of_nat ws)%Z
      with (Z.of_nat p + - 1 * Z.of_nat ws)%Z by lia.
    rewrite Z.mod_add by lia. apply Z.mod_small. lia.
Qed.

Lemma rolled_twice (N : nat) (d r : Z) (i : nat) :
  (0 < N)%nat -> (i < N)%nat -> ((r + d) mod Z.of_nat N = 0)%Z ->
  rolled N d (rolled N r i) = i.
Proof.
  intros HN Hi H. unfold rolled.
  pose proof (Z.mod_pos_bound (Z.of_nat i - r) (Z.of_nat N)) as B.
  rewrite Z2Nat.id by lia. rewrite Zminus_mod_idemp_l.
  apply Z.mod_divide in H; [|lia]. destruct H as [c Hc].
  replace (Z.of_nat i - r - d)%Z with (Z.of_nat i + - c * Z.of_nat N)%Z
    by lia.
  rewrite Z.mod_add, Z.mod_small by lia. apply Nat2Z.id.
Qed.

Lemma signed_lag_undoes (ws : nat) (d : Z) :
  (0 < ws)%nat ->
  ((signed ws (lag ws (- d) O) + d) mod Z.of_nat ws = 0)%Z.
Proof.
  intros Hws.
  rewrite <- Zplus_mod_idemp_l, signed_mod by (apply lag_lt; exact Hws).
  unfold lag. cbn [Z.of_nat Z.add].
  pose proof (Z.mod_pos_bound (- d) (Z.of_nat ws)) as B.
  rewrite Z2Nat.id by lia. rewrite Zplus_mod_idemp_l.
  replace (- d + d)%Z with 0%Z by lia. apply Z.mod_0_l. lia.
Qed.


(** C8, amended.  Let the reference raster fit in the window and let the
    magnitude of its circular autocorrelation be largest at zero lag only;
    let the secondary be the reference rolled by [(dr, dc)].  Then
    [_estimate_offset] returns the position of the correlation peak, which
    is the lag [(-dr, -dc)] taken modulo the raster shape and folded into
    the signed range: for a raster of the window's size this is exactly
    [(-dr, -dc)] when these lie in [[-(ws - ws/2), ws/2)], and rolling the
    secondary by the returned offset (as [_apply_offset] does) gives back
    the reference.  The confidence is the autocorrelation magnitude at zero
    lag divided by the sum of the magnitudes of the correlation surface. *)
Theorem C8_offset_undoes_roll (a : carray) (dr dc : Z) (window_size : nat) :
  (0 < nrows a <= window_size)%nat -> (0 < ncols a <= window_size)%nat ->
  single_peak a ->
  exists off,
    estimate_offset a (apply_offset a dr dc) window_size = inr off /\
    offset_row off = signed window_size (lag (nrows a) (- dr) O) /\
    offset_col off = signed window_size (lag (ncols a) (- dc) O) /\
    correlation off
      = fdiv (Fin (Cabs (autocorr a O O)))
             (Fin (Rsum (map Rabs (flatten (surface a dr dc))))) /\
    (nrows a = window_size -> ncols a = window_size ->
     ((- (Z.of_nat window_size - Z.of_nat (window_size / 2)) <= - dr
       < Z.of_nat (window_size / 2))%Z -> offset_row off = (- dr)%Z) /\
     ((- (Z.of_nat window_size - Z.of_nat (window_size / 2)) <= - dc
       < Z.of_nat (window_size / 2))%Z -> offset_col off = (- dc)%Z) /\
     forall i j, (i < nrows a)%nat -> (j < ncols a)%nat ->
       at_ (apply_offset (apply_offset a dr dc)
              (offset_row off) (offset_col off)) i j
       = at_ a i j).
Proof.
  intros Hh Hw Hpeak.
  eexists. split; [apply estimate_offset_rolled; assumption|].
  cbn [offset_row offset_col correlation].
  repeat split; try reflexivity.
  - rewrite H. apply signed_lag; lia.
  - rewrite H0. apply signed_lag; lia.
  - intros i j Hi Hj. cbn [apply_offset at_ nrows ncols].
    change (at_ a (rolled (nrows a) dr
                     (rolled (nrows a)
                        (signed window_size (lag (nrows a) (- dr) O)) i))
                  (rolled (ncols a) dc
                     (rolled (ncols a)
                        (signed window_size (lag (ncols a) (- dc) O)) j))
            = at_ a i j).
    rewrite !rolled_twice; try reflexivity; try assumption; try lia.
    + rewrite H0. apply signed_lag_undoes. lia.
    + rewrite H. apply signed_lag_undoes. lia.
Qed.

Lemma C8_offset_undoes_roll_witness :
  exists off,
    estimate_offset (impulse 4 4) (apply_offset (impulse 4 4) 1 (-1)) 4
      = inr off /\
    offset_row off = (-1)%Z /\ offset_col off = 1%Z.
Proof.
  destruct (C8_offset_undoes_roll (impulse 4 4) 1 (-1) 4)
    as (off & Hoff & Hr & Hc & _).
  - cbn; lia.
  - cbn; lia.
  - apply impulse_single_peak.
  - exists off. split; [exact Hoff|]. split.
    + rewrite Hr. reflexivity.
    + rewrite Hc. reflexivity.
Defined.

Close Scope R_scope.

(* ================================================================== *)
(** * Further properties of the code *)

(** ** The SBAS network *)

Lemma count_true_partition (v : list bool) :
  (count_true v + count_true (map negb v) = List.length v)%nat.
Proof.
  unfold count_true. induction v as [|b v IH]; cbn; [reflexivity|].
  destruct b; cbn; lia.
Qed.

Lemma forallb_count_true (v : list bool) :
  forallb (fun b => b) v = true <-> count_true (map negb v) = O.
Proof.
  unfold count_true. induction v as [|b v IH]; cbn; [tauto|].
  destruct b; cbn; [exact IH|]. split; intros H; discriminate.
Qed.

Lemma set_nth_true_count (v v' : list bool) (i : nat) :
  set_nth v i true = Some v' -> (1 <= count_true v')%nat.
Proof.
  unfold count_true. revert i v'.
  induction v as [|b v IH]; intros i v' H; cbn in H; [discriminate|].
  destruct i as [|i].
  - inversion H; subst. cbn. lia.
  - destruct (set_nth v i true) as [w|] eqn:E; cbn in H; [|discriminate].
    inversion H; subst. cbn. specialize (IH i w E).
    destruct b; cbn; lia.
Qed.

Lemma scan_neighbors_count (row : list bool) :
  forall nb v q v' q',
    scan_neighbors row nb v q = (v', q') ->
    (count_true v <= count_true v')%nat.
Proof.
  induction row as [|a row IH]; intros nb v q v' q' H; cbn in H.
  - inversion H; subst. lia.
  - destruct (a && negb (nth nb v true)) eqn:E.
    + destruct (set_nth v nb true) as [v1|] eqn:E1.
      * apply IH in H.
        apply andb_true_iff in E. destruct E as [_ E].
        apply negb_true_iff in E.
        pose proof (set_nth_unvisited _ _ E1 E) as Hu.
        pose proof (count_true_partition v) as P1.
        pose proof (count_true_partition v1) as P2.
        rewrite (set_nth_length _ _ _ E1) in P2.
        unfold unvisited in Hu. lia.
      * inversion H; subst. lia.
    + apply IH in H. exact H.
Qed.

Lemma bfs_count (adj : list (list bool)) (fuel : nat) :
  forall v q v', bfs fuel adj v q = Some v' ->
    (count_true v <= count_true v')%nat.
Proof.
  induction fuel as [|fuel IH]; intros v q v' H.
  - destruct q; cbn in H; [inversion H; subst; lia|discriminate].
  - destruct q as [|node q]; cbn in H; [inversion H; subst; lia|].
    destruct (scan_neighbors (nth node adj []) 0 v q) as [v1 q1] eqn:E.
    apply scan_neighbors_count in E. apply IH in H. lia.
Qed.

(** X1.  The breadth-first traversal of [_check_connectivity] terminates:
    started from any marking and a queue holding at most one date, its
    [while] loop ends within [2 * n + 1] iterations, [n] being the length of
    the marking, and returns a marking of the same length. *)
Theorem X1_connectivity_traversal_terminates
    (adj : list (list bool)) (visited : list bool) (queue : list nat) :
  (List.length queue <= 1)%nat ->
  exists v,
    SBASNetwork.bfs (2 * List.length visited + 1) adj visited queue = Some v /\
    List.length v = List.length visited.
Proof.
  intros Hq. apply bfs_fuel_enough.
  pose proof (unvisited_le_length visited). lia.
Qed.

Lemma X1_connectivity_traversal_terminates_witness :
  exists v,
    SBASNetwork.bfs 7
      [[false; true; false]; [true; false; false]; [false; false; false]]
      [true; false; false] [0%nat] = Some v /\
    List.length v = 3%nat.
Proof.
  apply (X1_connectivity_traversal_terminates
           [[false; true; false]; [true; false; false];
            [false; false; false]]
           [true; false; false] [0%nat]).
  cbn. lia.
Defined.

(** X2.  [build_network] returns the completed dictionary exactly when the
    date list is not empty: for an empty list the connectivity check
    indexes an empty array and the call returns an error status. *)
Theorem X2_build_network_completes_iff_nonempty
    (rng : nat -> Q) (max_t : Z) (max_p : Q) (ds : list Z) (thr : Q) :
  (exists info,
     fst (build_network rng max_t max_p (of_datetimes ds thr)) = inr info)
  <-> ds <> [].
Proof.
  split.
  - intros [info H] E. subst ds. discriminate H.
  - apply build_network_completes.
Qed.

Lemma connectivity_counts (self : SBASNetwork.t) (conn : connectivity) :
  check_connectivity self = inr conn ->
  (n_connected conn + n_disconnected conn = n_dates self)%nat /\
  (1 <= n_connected conn)%nat /\
  (is_connected conn = true <-> n_disconnected conn = O).
Proof.
  unfold check_connectivity.
  destruct (fill_adj _ _) as [e|adj]; [discriminate|]. cbn [bind].
  destruct (set_nth (repeat false (n_dates self)) 0 true) as [v0|] eqn:E0;
    [|discriminate].
  cbn [of_option bind ret]. intros H. inversion H; subst conn; clear H.
  cbn [n_connected n_disconnected is_connected].
  destruct (bfs_terminates adj v0 [0%nat]) as (v & Hv & Hrun); [cbn; lia|].
  rewrite Hrun.
  destruct (@bfs_fuel_enough adj (2 * List.length v0 + 1) v0 [0%nat])
    as (v' & Hv' & Hlen).
  { pose proof (unvisited_le_length v0). cbn. lia. }
  rewrite Hv in Hv'. inversion Hv'; subst v'.
  split; [|split].
  - rewrite count_true_partition, Hlen, (set_nth_length _ _ _ E0).
    apply repeat_length.
  - pose proof (set_nth_true_count _ _ _ E0).
    pose proof (bfs_count _ _ _ _ _ Hv). lia.
  - apply forallb_count_true.
Qed.

(** X3.  In every completed [build_network] result the connectivity report
    is consistent: [n_connected + n_disconnected] is the number of dates, at
    least one date (the root) is connected, and [is_connected] holds exactly
    when [n_disconnected] is 0. *)
Theorem X3_connectivity_report_consistent
    (rng : nat -> Q) (max_t : Z) (max_p : Q) (self : SBASNetwork.t)
    (info : network_info) :
  fst (build_network rng max_t max_p self) = inr info ->
  let conn := info_connectivity info in
  (n_connected conn + n_disconnected conn = info_n_dates info)%nat /\
  (1 <= n_connected conn)%nat /\
  (is_connected conn = true <-> n_disconnected conn = O) /\
  info_n_pairs info = List.length (info_pairs info).
Proof.
  unfold build_network.
  destruct (outer_loop _ _ _ _ _ _) as [c ps]. cbn [fst].
  destruct (check_connectivity _) as [e|conn] eqn:E; [discriminate|].
  cbn [bind ret]. intros H. inversion H; subst info; clear H.
  cbn [info_connectivity info_n_dates info_n_pairs info_pairs].
  destruct (connectivity_counts _ _ E) as (H1 & H2 & H3).
  repeat split; try assumption; apply H3.
Qed.

Lemma X3_connectivity_report_consistent_witness :
  exists info,
    fst (build_network (fun _ => 75%Q) 20 150%Q
           (of_datetimes [738521; 738552; 738580]%Z 150%Q)) = inr info /\
    (n_connected (info_connectivity info)
     + n_disconnected (info_connectivity info) = 3)%nat.
Proof.
  eexists. split; [reflexivity|].
  apply (X3_connectivity_report_consistent (fun _ => 75%Q) 20%Z 150%Q
           (of_datetimes [738521; 738552; 738580]%Z 150%Q)).
  reflexivity.
Defined.

Lemma Sorted_nth_le (l : list Z) (i j : nat) :
  Sorted Z.le l -> (i <= j < List.length l)%nat ->
  (nth i l 0 <= nth j l 0)%Z.
Proof.
  intros Hs [Hij Hj]. induction j as [|j IH].
  - replace i with O by lia. lia.
  - destruct (Nat.eq_dec i (S j)) as [->|Hne]; [lia|].
    pose proof (@Sorted_nth_step l Hs j Hj).
    assert (nth i l 0 <= nth j l 0)%Z by (apply IH; lia). lia.
Qed.

Lemma consider_pair_accepted (rng : nat -> Q) (max_t : Z) (max_p : Q)
    (ds : list Z) (i j : nat) (st : nat * list pair) :
  (i < j < List.length ds)%nat ->
  Forall (accepted ds max_t max_p) (snd st) ->
  Forall (accepted ds max_t max_p)
    (snd (consider_pair rng max_t max_p ds i j st)).
Proof.
  intros Hij Hst. destruct st as [c ps]. unfold consider_pair.
  destruct (Z.ltb_spec max_t (nth j ds 0 - nth i ds 0)%Z); [assumption|].
  destruct (Qle_bool (rng c) max_p) eqn:E; cbn [negb snd] in *;
    [|assumption].
  apply Forall_app; split; [assumption|].
  constructor; [|constructor].
  unfold accepted. cbn. repeat split; try lia.
  apply Qle_bool_iff. exact E.
Qed.

Lemma outer_loop_accepted (rng : nat -> Q) (max_t : Z) (max_p : Q)
    (ds : list Z) :
  Forall (accepted ds max_t max_p)
    (snd (outer_loop rng max_t max_p ds (List.length ds) (O, []))).
Proof.
  unfold outer_loop.
  apply fold_left_inv with (Q := fun i => (i < List.length ds)%nat).
  - constructor.
  - apply Forall_seq; lia.
  - intros st i Hst Hi. unfold inner_loop.
    apply fold_left_inv
      with (Q := fun j => (i < j < List.length ds)%nat); trivial.
    + apply Forall_seq; lia.
    + intros st' j Hst' Hj. apply consider_pair_accepted; assumption.
Qed.

(** X4.  Every pair that [build_network] accepts refers to two dates in
    index order ([master_idx < slave_idx < n_dates]), records the difference
    of their dates as its temporal baseline, which lies between 0 and
    [max_temporal_baseline], and has a perpendicular baseline of at most
    [max_perpendicular_baseline]. *)
Theorem X4_accepted_pairs_within_thresholds
    (rng : nat -> Q) (max_t : Z) (max_p : Q) (ds : list Z) (thr : Q)
    (p : pair) :
  let net := snd (build_network rng max_t max_p (of_datetimes ds thr)) in
  In p (pairs net) ->
  (master_idx p < slave_idx p < n_dates net)%nat /\
  temporal_baseline p
    = (nth (slave_idx p) (dates net) 0 - nth (master_idx p) (dates net) 0)%Z /\
  (0 <= temporal_baseline p <= max_t)%Z /\
  (perpendicular_baseline p <= max_p)%Q.
Proof.
  intros net Hin.
  assert (Hd : dates net = sorted ds) by apply build_network_dates.
  assert (Hacc : Forall (accepted (sorted ds) max_t max_p) (pairs net)).
  { subst net. unfold build_network, n_dates.
    cbn [dates of_datetimes].
    pose proof (outer_loop_accepted rng max_t max_p (sorted ds)) as H.
    destruct (outer_loop _ _ _ _ _ _) as [c ps]. exact H. }
  pose proof (proj1 (Forall_forall _ _) Hacc p Hin) as (H1 & H2 & H3 & H4).
  unfold n_dates. rewrite Hd. repeat split; try assumption; try lia.
  rewrite H2.
  pose proof (Sorted_nth_le (sorted ds) (master_idx p) (slave_idx p)
                (sorted_Sorted ds)). lia.
Qed.

Lemma X4_accepted_pairs_within_thresholds_witness :
  (0 <= 31 <= 365)%Z /\ (75 <= 150)%Q.
Proof.
  destruct (X4_accepted_pairs_within_thresholds (fun _ => 75%Q) 365%Z 150%Q
              [738521; 738552; 738580]%Z 150%Q
              (mk_pair 0 1 31 75%Q)) as (_ & _ & H & H').
  - left. reflexivity.
  - split; [exact H|exact H'].
Defined.

Lemma filter_flat_map {A B} (f : B -> bool) (g : A -> list B) (l : list A) :
  filter f (flat_map g l) = flat_map (fun x => filter f (g x)) l.
Proof.
  induction l as [|x l IH]; cbn [flat_map]; [reflexivity|].
  rewrite filter_app, IH. reflexivity.
Qed.

Section AcceptAll.
Variable rng : nat -> Q.
Variable max_t : Z.
Variable max_p : Q.
Hypothesis within : forall k, (rng k <= max_p)%Q.

Lemma inner_fold_idx (ds : list Z) (i : nat) (js : list nat) :
  forall c ps,
    map idx (snd (fold_left (fun st j => consider_pair rng max_t max_p ds i j st)
                    js (c, ps)))
    = map idx ps
      ++ filter (within_temporal ds max_t) (map (fun j => (i, j)) js).
Proof.
  induction js as [|j js IH]; intros c ps; cbn [fold_left map filter].
  - rewrite app_nil_r. reflexivity.
  - unfold within_temporal at 1. cbn [fst snd].
    destruct (Z.leb_spec (nth j ds 0 - nth i ds 0)%Z max_t) as [Hle|Hgt].
    + rewrite consider_pair_accept by (try apply within; exact Hle).
      rewrite IH, map_app, <- app_assoc. reflexivity.
    + rewrite consider_pair_reject by exact Hgt. apply IH.
Qed.

Lemma outer_fold_idx (ds : list Z) (n : nat) (is_ : list nat) :
  forall st,
    map idx (snd (fold_left (fun st i => inner_loop rng max_t max_p ds n i st)
                    is_ st))
    = map idx (snd st)
      ++ flat_map (fun i => filter (within_temporal ds max_t)
                              (map (fun j => (i, j)) (seq (S i) (n - S i))))
           is_.
Proof.
  induction is_ as [|i is_ IH]; intros [c ps]; cbn [fold_left flat_map].
  - rewrite app_nil_r. reflexivity.
  - rewrite IH. unfold inner_loop.
    rewrite inner_fold_idx. cbn [snd]. rewrite <- app_assoc. reflexivity.
Qed.

End AcceptAll.

(** X5.  When every simulated perpendicular baseline stays within its
    threshold, [build_network] accepts exactly the index pairs [(i, j)],
    [i < j], whose dates are at most [max_temporal_baseline] days apart, in
    the order of the two loops (by [i], then by [j]). *)
Theorem X5_accepted_pairs_are_the_close_ones
    (rng : nat -> Q) (max_t : Z) (max_p : Q) (self : SBASNetwork.t) :
  (forall k, (rng k <= max_p)%Q) ->
  map idx (pairs (snd (build_network rng max_t max_p self)))
  = filter (within_temporal (dates self) max_t)
      (candidate_pairs (n_dates self)).
Proof.
  intros H. unfold build_network, outer_loop.
  pose proof (outer_fold_idx rng max_t max_p H (dates self) (n_dates self)
                (seq 0 (n_dates self)) (O, [])) as E.
  destruct (fold_left _ (seq 0 (n_dates self)) (O, [])) as [c ps].
  cbn [snd pairs map app] in *. rewrite E.
  unfold candidate_pairs. rewrite filter_flat_map. reflexivity.
Qed.

Lemma X5_accepted_pairs_are_the_close_ones_witness :
  map idx (pairs (snd (build_network (fun _ => 75%Q) 30 150%Q
                         (of_datetimes [738521; 738552; 738580]%Z 150%Q))))
  = [(1, 2)]%nat.
Proof.
  rewrite (X5_accepted_pairs_are_the_close_ones (fun _ => 75%Q) 30%Z 150%Q).
  - reflexivity.
  - intros k. unfold Qle; cbn; lia.
Defined.

(** ** Phase wrapping and the simple unwrapper of [SARProcessor] *)

Open Scope R_scope.

(** X6.  [_wrap_phase] returns the principal value of its argument: a phase
    in the range (-pi, pi] that differs from the argument by a whole number
    of cycles.  It leaves a phase of that range unchanged, so wrapping twice
    is wrapping once. *)
Theorem X6_wrap_phase_principal_value (x : R) :
  - PI < wrap_phase x <= PI /\
  cong2pi (wrap_phase x) x /\
  (- PI < x <= PI -> wrap_phase x = x) /\
  wrap_phase (wrap_phase x) = wrap_phase x.
Proof.
  change wrap_phase with wrap.
  destruct (wrap_spec x) as [Hc Hr].
  repeat split; try apply Hr; try exact Hc.
  - apply wrap_id.
  - apply wrap_id. exact Hr.
Qed.

Lemma X6_wrap_phase_principal_value_witness : wrap_phase 1 = 1.
Proof.
  apply (X6_wrap_phase_principal_value 1).
  pose proof PI2_1. pose proof PI_RGT_0. lra.
Defined.

Lemma rset_same (a : rarray) (i j : nat) (v : R) : rat (rset a i j v) i j = v.
Proof. cbn. rewrite !Nat.eqb_refl. reflexivity. Qed.

Lemma rset_other (a : rarray) (i j i' j' : nat) (v : R) :
  i' <> i \/ j' <> j -> rat (rset a i j v) i' j' = rat a i' j'.
Proof.
  intros H. cbn.
  destruct (Nat.eqb_spec i' i), (Nat.eqb_spec j' j); cbn [andb];
    try reflexivity.
  destruct H; congruence.
Qed.

(** One row of [_mcf_unwrap], up to column [n]: the cells of row [i] in
    columns 1 to [n] are set from the row above; nothing else moves. *)
Lemma integrate_row_spec (phase : rarray) (i : nat) (u : rarray) (n : nat) :
  (0 < i)%nat ->
  let u' := fold_left (fun u j => integrate_cell phase i j u) (seq 1 n) u in
  rrows u' = rrows u /\ rcols u' = rcols u /\
  forall i' j',
    rat u' i' j'
    = if Nat.eqb i' i && Nat.leb 1 j' && Nat.leb j' n
      then rat u (i - 1) j'
           + wrap_phase (rat phase i j' - rat phase (i - 1) j')
      else rat u i' j'.
Proof.
  intros Hi. induction n as [|n IH]; cbn zeta.
  - cbn [seq fold_left]. repeat split. intros i' j'.
    destruct (Nat.eqb i' i), j'; reflexivity.
  - rewrite seq_S, fold_left_app. cbn [fold_left Nat.add].
    cbn zeta in IH. destruct IH as (Hr & Hc & Hcell).
    set (U := fold_left _ (seq 1 n) u) in *.
    repeat split; try assumption.
    intros i' j'. unfold integrate_cell.
    destruct (Nat.eq_dec i' i) as [->|Hne];
      [destruct (Nat.eq_dec j' (S n)) as [->|Hne]|].
    + rewrite rset_same, Nat.eqb_refl, Nat.leb_refl. cbn [andb Nat.leb].
      rewrite Hcell.
      destruct (Nat.eqb_spec (i - 1) i); [lia|]. reflexivity.
    + rewrite rset_other by (right; exact Hne). rewrite Hcell.
      rewrite Nat.eqb_refl. cbn [andb].
      destruct (Nat.leb_spec 1 j'); cbn [andb]; [|reflexivity].
      destruct (Nat.leb_spec j' n), (Nat.leb_spec j' (S n));
        try reflexivity; lia.
    + rewrite rset_other by (left; exact Hne). rewrite Hcell.
      destruct (Nat.eqb_spec i' i); [contradiction|]. reflexivity.
Qed.

(** The cells of the raster that [_mcf_unwrap] returns. *)
Lemma mcf_unwrap_rows (phase : rarray) (m : nat) :
  let u := fold_left
             (fun unwrapped i =>
                fold_left (fun unwrapped j => integrate_cell phase i j unwrapped)
                  (seq 1 (rcols phase - 1)) unwrapped)
             (seq 1 m) (zeros_like phase) in
  rrows u = rrows phase /\ rcols u = rcols phase /\
  forall i j,
    rat u i j
    = if Nat.leb i m && Nat.leb 1 j && Nat.leb j (rcols phase - 1)
      then wrapped_steps phase i j else 0.
Proof.
  induction m as [|m IH]; cbn zeta.
  - cbn [seq fold_left]. repeat split. intros i j. cbn [zeros_like rat].
    destruct i; cbn [Nat.leb andb wrapped_steps]; [|reflexivity].
    destruct (_ && _); reflexivity.
  - rewrite seq_S, fold_left_app. cbn [fold_left Nat.add].
    cbn zeta in IH. destruct IH as (Hr & Hc & Hcell).
    set (U := fold_left _ (seq 1 m) (zeros_like phase)) in *.
    destruct (integrate_row_spec phase (S m) U (rcols phase - 1))
      as (Hr' & Hc' & Hcell'); [lia|].
    cbn zeta in Hr', Hc', Hcell'.
    repeat split; try congruence.
    intros i j. rewrite Hcell'. replace (S m - 1)%nat with m by lia.
    rewrite !Hcell.
    destruct (Nat.eqb_spec i (S m)), (Nat.leb_spec 1 j),
      (Nat.leb_spec j (rcols phase - 1)), (Nat.leb_spec i m),
      (Nat.leb_spec i (S m)), (Nat.leb_spec m m);
      cbn [andb]; subst; try lia; reflexivity.
Qed.

Lemma mcf_unwrap_cells (phase coherence : rarray) :
  let u := SARProcessor.mcf_unwrap phase coherence in
  rrows u = rrows phase /\ rcols u = rcols phase /\
  forall i j, (i < rrows phase)%nat -> (j < rcols phase)%nat ->
    rat u i j = match j with O => 0 | S _ => wrapped_steps phase i j end.
Proof.
  destruct (mcf_unwrap_rows phase (rrows phase - 1)) as (Hr & Hc & Hcell).
  cbn zeta in *. unfold SARProcessor.mcf_unwrap.
  repeat split; try assumption.
  intros i j Hi Hj. rewrite Hcell.
  destruct (Nat.leb_spec i (rrows phase - 1)); [|lia]. cbn [andb].
  destruct j as [|j]; [reflexivity|].
  destruct (Nat.leb_spec 1 (S j)); [|lia].
  destruct (Nat.leb_spec (S j) (rcols phase - 1)); [reflexivity|lia].
Qed.

Lemma wrapped_steps_cong (phase : rarray) (i j : nat) :
  cong2pi (wrapped_steps phase i j) (rat phase i j - rat phase O j).
Proof.
  induction i as [|i IH]; cbn [wrapped_steps].
  - exists 0%Z. ring.
  - replace (rat phase (S i) j - rat phase O j)
      with ((rat phase i j - rat phase O j)
            + (rat phase (S i) j - rat phase i j)) by ring.
    apply cong2pi_plus; [exact IH|apply wrap_spec].
Qed.

Lemma wrapped_steps_exact (phase : rarray) (i j : nat) :
  (forall k, (k < i)%nat ->
     - PI < rat phase (S k) j - rat phase k j <= PI) ->
  wrapped_steps phase i j = rat phase i j - rat phase O j.
Proof.
  induction i as [|i IH]; intros H; cbn [wrapped_steps].
  - ring.
  - rewrite IH by (intros k Hk; apply H; lia).
    change wrap_phase with wrap. rewrite wrap_id by (apply H; lia). ring.
Qed.

(** X7.  [_mcf_unwrap] returns a raster of the shape of its input whose
    first row and first column are 0.  In every other column it holds the
    phase relative to the first row of that column, up to a whole number of
    cycles, and exactly so when the vertical steps above the pixel are
    within (-pi, pi]. *)
Theorem X7_mcf_unwrap_integrates_columns (phase coherence : rarray)
    (i j : nat) :
  (i < rrows phase)%nat -> (j < rcols phase)%nat ->
  let u := SARProcessor.mcf_unwrap phase coherence in
  rrows u = rrows phase /\ rcols u = rcols phase /\
  (i = O \/ j = O -> rat u i j = 0) /\
  ((0 < j)%nat -> cong2pi (rat u i j) (rat phase i j - rat phase O j)) /\
  ((0 < j)%nat ->
   (forall k, (k < i)%nat ->
      - PI < rat phase (S k) j - rat phase k j <= PI) ->
   rat u i j = rat phase i j - rat phase O j).
Proof.
  intros Hi Hj u.
  destruct (mcf_unwrap_cells phase coherence) as (Hr & Hc & Hcell).
  fold u in Hr, Hc, Hcell. specialize (Hcell i j Hi Hj).
  repeat split; try assumption.
  - intros [-> | ->]; rewrite Hcell; [|reflexivity].
    destruct j; reflexivity.
  - intros Hpos. rewrite Hcell. destruct j; [lia|].
    apply wrapped_steps_cong.
  - intros Hpos Hsteps. rewrite Hcell. destruct j; [lia|].
    apply wrapped_steps_exact, Hsteps.
Qed.

Lemma X7_mcf_unwrap_integrates_columns_witness :
  let phase := mk_rarray 2 2 (fun i j => INR i * INR j) in
  rat (SARProcessor.mcf_unwrap phase phase) 1 1 = 1.
Proof.
  intros phase.
  destruct (X7_mcf_unwrap_integrates_columns phase phase 1 1)
    as (_ & _ & _ & _ & H); [cbn; lia|cbn; lia|].
  cbn zeta in H. rewrite H; [cbn; ring|lia|].
  intros k Hk. replace k with O by lia. cbn.
  pose proof PI2_1. pose proof PI_RGT_0. lra.
Defined.

(** X8.  [unwrap_phase] accepts the methods "mcf" and "snaphu" only, and
    both run the same unwrapper.  The residual it then computes at a pixel
    is the wrapped input phase at the top of the pixel's column, and in the
    first column the wrapped input phase of the pixel itself: the residuals
    depend on the input alone. *)
Theorem X8_unwrap_phase_residuals (phase_data coh_data : rarray)
    (method : string) :
  if String.eqb method "mcf" || String.eqb method "snaphu" then
    exists out,
      unwrap_phase phase_data coh_data method = inr out /\
      unwrapped_phase out = SARProcessor.mcf_unwrap phase_data coh_data /\
      rrows (residuals out) = rrows phase_data /\
      rcols (residuals out) = rcols phase_data /\
      forall i j, (i < rrows phase_data)%nat -> (j < rcols phase_data)%nat ->
        rat (residuals out) i j
        = wrap_phase (rat phase_data (match j with O => i | S _ => O end) j)
  else unwrap_phase phase_data coh_data method = inl ValueError.
Proof.
  unfold unwrap_phase, snaphu_unwrap.
  destruct (mcf_unwrap_cells phase_data coh_data) as (Hr & Hc & Hcell).
  cbn zeta in Hr, Hc, Hcell.
  set (u := SARProcessor.mcf_unwrap phase_data coh_data) in *.
  assert (Hgo : exists res,
             compute_residuals phase_data u = inr res /\
             rrows res = rrows phase_data /\
             rcols res = rcols phase_data /\
             forall i j,
               (i < rrows phase_data)%nat -> (j < rcols phase_data)%nat ->
               rat res i j
               = wrap_phase
                   (rat phase_data (match j with O => i | S _ => O end) j)).
  { unfold compute_residuals. rewrite Hr, Hc, !broadcast_dim_same.
    eexists. split; [reflexivity|]. cbn [rrows rcols rat].
    repeat split. intros i j Hi Hj. unfold rbat. rewrite Hr, Hc.
    assert (Ei : (if Nat.eqb (rrows phase_data) 1 then O else i) = i).
    { destruct (Nat.eqb_spec (rrows phase_data) 1); [lia|reflexivity]. }
    assert (Ej : (if Nat.eqb (rcols phase_data) 1 then O else j) = j).
    { destruct (Nat.eqb_spec (rcols phase_data) 1); [lia|reflexivity]. }
    rewrite Ei, Ej, Hcell by assumption.
    change wrap_phase with wrap. apply cong2pi_wrap_eq.
    destruct j as [|j].
    - exists 0%Z. ring.
    - destruct (wrapped_steps_cong phase_data i (S j)) as [k Hk].
      exists (- k)%Z. rewrite Hk, opp_IZR. ring. }
  destruct Hgo as (res & Eres & Hres).
  destruct (String.eqb method "mcf"); cbn [orb bind ret].
  - rewrite Eres. cbn [bind ret]. eexists. split; [reflexivity|].
    cbn [unwrapped_phase residuals]. split; [reflexivity|exact Hres].
  - destruct (String.eqb method "snaphu"); cbn [bind ret raise].
    + rewrite Eres. cbn [bind ret]. eexists. split; [reflexivity|].
      cbn [unwrapped_phase residuals]. split; [reflexivity|exact Hres].
    + reflexivity.
Qed.

Close Scope R_scope.

(** ** Coregistration: shifts, the offset estimate and the error measure *)

Open Scope R_scope.

(** X9.  [_apply_offset] (a cyclic shift) composes additively: shifting by
    [(r1, c1)] and then by [(r2, c2)] is shifting by [(r1 + r2, c1 + c2)];
    a shift by multiples of the raster's shape changes nothing.  So the
    opposite shift undoes a shift. *)
Theorem X9_apply_offset_composes (data : carray) (r1 c1 r2 c2 : Z)
    (i j : nat) :
  (i < nrows data)%nat -> (j < ncols data)%nat ->
  at_ (apply_offset (apply_offset data r1 c1) r2 c2) i j
    = at_ (apply_offset data (r1 + r2) (c1 + c2)) i j /\
  ((r1 mod Z.of_nat (nrows data) = 0)%Z ->
   (c1 mod Z.of_nat (ncols data) = 0)%Z ->
   at_ (apply_offset data r1 c1) i j = at_ data i j) /\
  at_ (apply_offset (apply_offset data r1 c1) (- r1) (- c1)) i j
    = at_ data i j.
Proof.
  intros Hi Hj.
  assert (Hcomp : forall (N : nat) (a b : Z) (k : nat), (k < N)%nat ->
            Z.to_nat ((Z.of_nat (Z.to_nat ((Z.of_nat k - b) mod Z.of_nat N))
                       - a) mod Z.of_nat N)
            = Z.to_nat ((Z.of_nat k - (a + b)) mod Z.of_nat N)).
  { intros N a b k Hk.
    pose proof (Z.mod_pos_bound (Z.of_nat k - b) (Z.of_nat N)).
    rewrite Z2Nat.id by lia. rewrite Zminus_mod_idemp_l.
    f_equal. f_equal. lia. }
  assert (Hid : forall (N : nat) (a : Z) (k : nat), (k < N)%nat ->
            (a mod Z.of_nat N = 0)%Z ->
            Z.to_nat ((Z.of_nat k - a) mod Z.of_nat N) = k).
  { intros N a k Hk Ha. apply Z.mod_divide in Ha; [|lia].
    destruct Ha as [c Hc].
    replace (Z.of_nat k - a)%Z with (Z.of_nat k + - c * Z.of_nat N)%Z by lia.
    rewrite Z.mod_add, Z.mod_small by lia. apply Nat2Z.id. }
  split; [|split].
  - cbn [apply_offset at_ nrows ncols]. rewrite !Hcomp by assumption.
    reflexivity.
  - intros Hr Hc. cbn [apply_offset at_ nrows ncols].
    rewrite !Hid by assumption. reflexivity.
  - cbn [apply_offset at_ nrows ncols]. rewrite !Hcomp by assumption.
    rewrite !Hid; try assumption; try reflexivity.
    + replace (c1 + - c1)%Z with 0%Z by lia. apply Z.mod_0_l. lia.
    + replace (r1 + - r1)%Z with 0%Z by lia. apply Z.mod_0_l. lia.
Qed.

Lemma X9_apply_offset_composes_witness :
  at_ (apply_offset (apply_offset (impulse 4 4) 1 2) 3 2) 0 0
  = at_ (apply_offset (impulse 4 4) (1 + 3) (2 + 2)) 0 0.
Proof.
  apply (X9_apply_offset_composes (impulse 4 4) 1 2 3 2 0 0); cbn; lia.
Defined.

Lemma Rsum_nonneg (l : list R) : (forall y, In y l -> 0 <= y) -> 0 <= Rsum l.
Proof.
  induction l as [|x l IH]; intros H; cbn [Rsum fold_right]; [lra|].
  pose proof (H x (or_introl eq_refl)).
  assert (0 <= Rsum l) by (apply IH; intros y Hy; apply H; right; exact Hy).
  unfold Rsum in *. lra.
Qed.

Lemma Rsum_member_le (l : list R) (y : R) :
  (forall z, In z l -> 0 <= z) -> In y l -> y <= Rsum l.
Proof.
  induction l as [|x l IH]; intros H Hin; [contradiction|].
  cbn [Rsum fold_right].
  pose proof (H x (or_introl eq_refl)).
  assert (0 <= Rsum l)
    by (apply Rsum_nonneg; intros z Hz; apply H; right; exact Hz).
  destruct Hin as [->|Hin].
  - unfold Rsum in *. lra.
  - assert (y <= Rsum l) by (apply IH; [intros z Hz; apply H; right|]; auto).
    unfold Rsum in *. lra.
Qed.

Lemma Rsum_zero_iff (l : list R) :
  (forall y, In y l -> 0 <= y) ->
  (Rsum l = 0 <-> forall y, In y l -> y = 0).
Proof.
  intros H. split.
  - intros E y Hy. pose proof (Rsum_member_le l y H Hy). pose proof (H y Hy).
    lra.
  - clear H. induction l as [|x l IH]; intros H; cbn [Rsum fold_right];
      [reflexivity|].
    rewrite (H x (or_introl eq_refl)).
    assert (Rsum l = 0) by (apply IH; intros y Hy; apply H; right; exact Hy).
    unfold Rsum in *. lra.
Qed.

Lemma flatten_In (a : rarray) (y : R) :
  In y (flatten a) <->
  exists p q, (p < rrows a)%nat /\ (q < rcols a)%nat /\ y = rat a p q.
Proof.
  unfold flatten. rewrite in_flat_map. split.
  - intros (p & Hp & Hin). apply in_map_iff in Hin.
    destruct Hin as (q & E & Hq). apply in_seq in Hp, Hq.
    exists p, q. repeat split; try lia. symmetry; exact E.
  - intros (p & q & Hp & Hq & ->). exists p. split; [apply in_seq; lia|].
    apply in_map_iff. exists q. split; [reflexivity|apply in_seq; lia].
Qed.

Lemma Cabs_nonneg (z : C) : 0 <= Cabs z.
Proof. unfold Cabs. apply sqrt_pos. Qed.

Lemma map_Rabs_nonneg (l : list R) :
  (forall y, In y l -> 0 <= y) -> map Rabs l = l.
Proof.
  induction l as [|x l IH]; intros H; cbn [map]; [reflexivity|].
  rewrite Rabs_pos_eq by (apply H; left; reflexivity).
  rewrite IH by (intros y Hy; apply H; right; exact Hy). reflexivity.
Qed.

Lemma broadcast_dim_some (a b r : nat) :
  broadcast_dim a b = Some r -> r = a \/ r = b.
Proof.
  unfold broadcast_dim.
  destruct (Nat.eqb a b); [intros H; inversion H; auto|].
  destruct (Nat.eqb a 1); [intros H; inversion H; auto|].
  destruct (Nat.eqb b 1); [intros H; inversion H; auto|discriminate].
Qed.

Lemma signed_range (ws p : nat) :
  (p < ws)%nat ->
  (- (Z.of_nat ws - Z.of_nat (ws / 2)) <= signed ws p < Z.of_nat (ws / 2))%Z.
Proof.
  intros Hp. unfold signed.
  assert (ws / 2 <= ws)%nat by (apply Nat.Div0.div_le_upper_bound; lia).
  destruct (Nat.ltb_spec p (ws / 2)); lia.
Qed.

(** X10.  On two non-empty rasters whose windows can be combined,
    [_estimate_offset] returns; each offset it reports lies in
    [-(n - n // 2), n // 2) for the window size [n] (-32 to 31 for the
    default 64), and the reported correlation is NaN (when the correlation
    surface is zero everywhere) or a number in (0, 1]. *)
Theorem X10_estimate_offset_ranges (ref sec : carray) (window_size : nat) :
  (0 < window_size)%nat ->
  (0 < nrows ref)%nat -> (0 < ncols ref)%nat ->
  (0 < nrows sec)%nat -> (0 < ncols sec)%nat ->
  broadcast_dim (Nat.min (nrows ref) window_size)
                (Nat.min (nrows sec) window_size) <> None ->
  broadcast_dim (Nat.min (ncols ref) window_size)
                (Nat.min (ncols sec) window_size) <> None ->
  exists off,
    estimate_offset ref sec window_size = inr off /\
    (- (Z.of_nat window_size - Z.of_nat (window_size / 2))
       <= offset_row off < Z.of_nat (window_size / 2))%Z /\
    (- (Z.of_nat window_size - Z.of_nat (window_size / 2))
       <= offset_col off < Z.of_nat (window_size / 2))%Z /\
    (correlation off = NaN \/
     exists c, correlation off = Fin c /\ 0 < c <= 1).
Proof.
  intros Hws Hrr Hrc Hsr Hsc Hbr Hbc.
  unfold estimate_offset, cross_correlation, fft2, window.
  cbn [nrows ncols at_].
  rewrite !nonempty_check by (apply Nat.min_glb_lt; assumption).
  cbn [bind ret]. unfold broadcast2. cbn [conj_array nrows ncols at_].
  destruct (broadcast_dim (Nat.min (nrows ref) window_size)
              (Nat.min (nrows sec) window_size)) as [r|] eqn:Er;
    [|congruence].
  destruct (broadcast_dim (Nat.min (ncols ref) window_size)
              (Nat.min (ncols sec) window_size)) as [c|] eqn:Ec;
    [|congruence].
  assert (Hr : (0 < r <= window_size)%nat)
    by (destruct (broadcast_dim_some _ _ _ Er); lia).
  assert (Hc : (0 < c <= window_size)%nat)
    by (destruct (broadcast_dim_some _ _ _ Ec); lia).
  cbn [bind ret]. unfold ifft2. cbn [nrows ncols at_].
  rewrite nonempty_check by lia. cbn [bind ret].
  match goal with
  | |- context [flatten ?a] => set (cc := a)
  end.
  cbn [rcols abs_array].
  change (rcols cc) with c.
  set (L := flatten cc).
  assert (HL : List.length L = (r * c)%nat) by apply flatten_length.
  assert (Hpos : forall y, In y L -> 0 <= y).
  { intros y Hy. apply flatten_In in Hy.
    destruct Hy as (p & q & _ & _ & ->). apply Cabs_nonneg. }
  destruct L as [|x l] eqn:EL; [cbn in HL; nia|].
  cbn [argmax bind ret].
  destruct (argmax_from_max l [x] O x) as [Hpk _];
    [cbn; lia|reflexivity|intros j Hj; cbn in Hj;
     replace j with O by lia; cbn; lra|].
  cbn [List.length] in Hpk. change ([x] ++ l) with (x :: l) in Hpk.
  set (peak := argmax_from l 1 0 x) in *.
  rewrite HL in Hpk.
  eexists. split; [reflexivity|].
  cbn [offset_row offset_col correlation].
  split; [|split].
  - apply signed_range.
    assert (peak / c < r)%nat by (apply Nat.Div0.div_lt_upper_bound; lia).
    lia.
  - apply signed_range.
    assert (peak mod c < c)%nat by (apply Nat.mod_upper_bound; lia).
    lia.
  - rewrite map_Rabs_nonneg by exact Hpos.
    unfold Rmax_list.
    destruct (fold_left_Rmax_spec l x) as (H1 & H2 & H3).
    set (M := fold_left Rmax l x) in *.
    assert (HinM : In M (x :: l))
      by (destruct H3 as [->|H3]; [left|right]; auto).
    assert (HM : M <= Rsum (x :: l)) by (apply Rsum_member_le; assumption).
    assert (HM0 : 0 <= M) by (apply Hpos; exact HinM).
    unfold fdiv, Rzero.
    destruct (Req_EM_T (Rsum (x :: l)) 0) as [E0|Hne].
    + left. destruct (Req_EM_T M 0); [reflexivity|lra].
    + right. eexists. split; [reflexivity|].
      assert (Hs : 0 < Rsum (x :: l)) by lra.
      assert (HMpos : 0 < M).
      { destruct (Rle_lt_dec M 0) as [Hle|Hlt]; [|exact Hlt]. exfalso.
        apply Hne. apply Rsum_zero_iff; [exact Hpos|].
        intros y Hy. pose proof (Hpos y Hy).
        assert (y <= M) by (destruct Hy as [<-|Hy]; [exact H1|apply H2, Hy]).
        lra. }
      split.
      * apply Rdiv_lt_0_compat; assumption.
      * apply Rmult_le_reg_r with (r := Rsum (x :: l)); [exact Hs|].
        unfold Rdiv. rewrite Rmult_assoc, Rinv_l by exact Hne. lra.
Qed.

Lemma X10_estimate_offset_ranges_witness :
  exists off,
    estimate_offset ones_2x2 ones_2x2 64 = inr off /\
    (- 32 <= offset_row off < 32)%Z /\ (- 32 <= offset_col off < 32)%Z.
Proof.
  destruct (X10_estimate_offset_ranges ones_2x2 ones_2x2 64)
    as (off & H & Hr & Hc & _); try (cbn; lia); try discriminate.
  exists off. split; [exact H|]. split; [exact Hr|exact Hc].
Defined.

Lemma Cabs_zero_iff (z : C) : Cabs z = 0 <-> z = mkC 0 0.
Proof.
  split.
  - intros H. pose proof (Cabs_sqr z) as E. rewrite H in E.
    apply C_ext; cbn [re im]; nra.
  - intros ->. unfold Cabs. cbn [re im].
    replace (0 * 0 + 0 * 0) with 0 by ring. apply sqrt_0.
Qed.

Lemma Cabs_Csub_sym (a b : C) : Cabs (Csub a b) = Cabs (Csub b a).
Proof. unfold Cabs, Csub. cbn [re im]. f_equal. ring. Qed.

Lemma Csub_zero_iff (a b : C) : Csub a b = mkC 0 0 <-> a = b.
Proof.
  split.
  - intros H. pose proof (f_equal re H) as H1. pose proof (f_equal im H) as H2.
    cbn [re im Csub] in H1, H2. apply C_ext; lra.
  - intros ->. apply C_ext; cbn [re im Csub]; ring.
Qed.

(** X11.  On two non-empty rasters of the same shape, [_compute_rms_error]
    returns a finite number that is not negative; it does not depend on the
    order of the two rasters, and it is 0 exactly when they agree at every
    cell. *)
Theorem X11_rms_error_zero_iff_equal (ref sec : carray) :
  (0 < nrows ref)%nat -> (0 < ncols ref)%nat ->
  nrows sec = nrows ref -> ncols sec = ncols ref ->
  exists x,
    compute_rms_error ref sec = inr (Fin x) /\
    compute_rms_error sec ref = inr (Fin x) /\
    0 <= x /\
    (x = 0 <->
     forall i j, (i < nrows ref)%nat -> (j < ncols ref)%nat ->
       at_ sec i j = at_ ref i j).
Proof.
  intros Hr Hc Er Ec.
  unfold compute_rms_error, broadcast2. rewrite Er, Ec, !broadcast_dim_same.
  cbn [bind ret nrows ncols at_].
  set (sq := mk_rarray (nrows ref) (ncols ref)
               (fun i j => Cabs (Csub (bat ref i j) (bat sec i j))
                           * Cabs (Csub (bat ref i j) (bat sec i j)))).
  assert (Esym : flatten (mk_rarray (nrows ref) (ncols ref)
                   (fun i j => Cabs (Csub (bat sec i j) (bat ref i j))
                               * Cabs (Csub (bat sec i j) (bat ref i j))))
                 = flatten sq).
  { apply flatten_ext; try reflexivity. intros p q _ _. cbn [rat sq].
    rewrite (Cabs_Csub_sym (bat sec p q)). reflexivity. }
  rewrite Esym.
  assert (Hlen : List.length (flatten sq) = (nrows ref * ncols ref)%nat)
    by apply flatten_length.
  assert (Hn : 0 < IZR (Z.of_nat (List.length (flatten sq)))).
  { apply IZR_lt. rewrite Hlen. nia. }
  assert (Hpos : forall y, In y (flatten sq) -> 0 <= y).
  { intros y Hy. apply flatten_In in Hy.
    destruct Hy as (p & q & _ & _ & ->). cbn [rat sq].
    apply Rmult_le_pos; apply Cabs_nonneg. }
  pose proof (Rsum_nonneg _ Hpos) as Hs.
  set (S := Rsum (flatten sq)) in *.
  set (n := IZR (Z.of_nat (List.length (flatten sq)))) in *.
  assert (Hq : 0 <= S / n)
    by (apply Rmult_le_pos; [exact Hs|apply Rlt_le, Rinv_0_lt_compat, Hn]).
  unfold fdiv, of_int, fsqrt, Rzero, Rneg. fold n.
  destruct (Req_EM_T n 0); [lra|].
  destruct (Rlt_dec (S / n) 0); [lra|].
  exists (sqrt (S / n)). split; [reflexivity|]. split; [reflexivity|].
  split; [apply sqrt_pos|].
  split.
  - intros E0. apply sqrt_eq_0 in E0; [|exact Hq].
    assert (ES : S = 0).
    { unfold Rdiv in E0. apply Rmult_integral in E0.
      destruct E0 as [E0|E0]; [exact E0|].
      pose proof (Rinv_0_lt_compat n Hn). lra. }
    intros i j Hi Hj.
    assert (Hin : In (rat sq i j) (flatten sq)).
    { apply flatten_In. exists i, j. cbn [rrows rcols sq].
      repeat split; assumption. }
    pose proof (proj1 (Rsum_zero_iff _ Hpos) ES _ Hin) as Hz.
    cbn [rat sq] in Hz.
    rewrite !bat_in_range in Hz by lia.
    assert (Hab : Cabs (Csub (at_ ref i j) (at_ sec i j)) = 0) by nra.
    apply (proj1 (Cabs_zero_iff _)) in Hab.
    apply (proj1 (Csub_zero_iff _ _)) in Hab. symmetry. exact Hab.
  - intros Hsame.
    assert (ES : S = 0).
    { apply Rsum_zero_iff; [exact Hpos|]. intros y Hy.
      apply flatten_In in Hy. destruct Hy as (p & q & Hp & Hq' & ->).
      cbn [rrows rcols sq] in Hp, Hq'. cbn [rat sq].
      rewrite !bat_in_range by lia. rewrite (Hsame p q Hp Hq').
      rewrite (proj2 (Cabs_zero_iff _)
                 (proj2 (Csub_zero_iff _ _) eq_refl)). ring. }
    rewrite ES. unfold Rdiv. rewrite Rmult_0_l. apply sqrt_0.
Qed.

Lemma X11_rms_error_zero_iff_equal_witness :
  compute_rms_error ones_2x2 ones_2x2 = inr (Fin 0).
Proof.
  destruct (X11_rms_error_zero_iff_equal ones_2x2 ones_2x2)
    as (x & H & _ & _ & Hx); try (cbn; lia); try reflexivity.
  rewrite H. rewrite (proj2 Hx); [reflexivity|]. intros; reflexivity.
Defined.

Lemma Rsum_map_opp {A} (f : A -> R) (l : list A) :
  Rsum (map (fun k => - f k) l) = - Rsum (map f l).
Proof.
  unfold Rsum. induction l as [|x l IH]; cbn [map fold_right]; [ring|].
  rewrite IH. ring.
Qed.

Lemma uniform_filter1d_opp (n size : nat) (f : nat -> R) (l : nat) :
  uniform_filter1d n size (fun k => - f k) l = - uniform_filter1d n size f l.
Proof.
  unfold uniform_filter1d.
  rewrite (Rsum_map_opp (fun k => f (reflect n (Z.of_nat l
                                       - Z.of_nat (size / 2) + Z.of_nat k)))).
  unfold Rdiv. ring.
Qed.

Lemma uniform_filter_opp (h w size : nat) (f : nat -> nat -> R) (i j : nat) :
  uniform_filter h w size (fun x y => - f x y) i j
  = - uniform_filter h w size f i j.
Proof.
  unfold uniform_filter.
  destruct (size <=? 1)%nat; [reflexivity|].
  rewrite <- uniform_filter1d_opp. apply uniform_filter1d_ext.
  intros y. apply uniform_filter1d_opp.
Qed.

(** X12.  The coherence of [_compute_coherence] does not depend on which of
    the two rasters is the reference: exchanging them gives the same value
    at every pixel. *)
Theorem X12_coherence_symmetric (h w : nat) (ref sec : nat -> nat -> C)
    (window_size i j : nat) :
  compute_coherence h w ref sec window_size i j
  = compute_coherence h w sec ref window_size i j.
Proof.
  assert (Hd : denominator h w ref sec window_size i j
               = denominator h w sec ref window_size i j).
  { unfold denominator. f_equal. ring. }
  assert (Hn : numerator h w ref sec window_size i j
               = numerator h w sec ref window_size i j).
  { unfold numerator, uniform_filter_complex, Cabs. cbn [re im].
    rewrite (uniform_filter_ext h w window_size
               (fun i j => re (Cmul (Cconj (sec i j)) (ref i j)))
               (fun i j => re (Cmul (Cconj (ref i j)) (sec i j))))
      by (intros; cbn [re im Cmul Cconj]; ring).
    rewrite (uniform_filter_ext h w window_size
               (fun i j => im (Cmul (Cconj (sec i j)) (ref i j)))
               (fun i j => - im (Cmul (Cconj (ref i j)) (sec i j))))
      by (intros; cbn [re im Cmul Cconj]; ring).
    rewrite uniform_filter_opp. f_equal. ring. }
  unfold compute_coherence. rewrite Hd, Hn. reflexivity.
Qed.

Close Scope R_scope.

(** ** The column-wise adjustment of the fallback unwrapper *)

Open Scope R_scope.

Lemma np_round_floor (x : R) :
  let f := (up x - 1)%Z in IZR f <= x < IZR f + 1.
Proof.
  cbn zeta. destruct (archimed x) as [H1 H2]. rewrite minus_IZR. lra.
Qed.

Lemma Rabs_le_bounds (x y : R) : Rabs x <= y -> - y <= x <= y.
Proof.
  intros H. pose proof (Rle_abs x). pose proof (Rle_abs (- x)) as H'.
  rewrite Rabs_Ropp in H'. lra.
Qed.

(** [np.round] moves its argument by at most one half. *)
Lemma np_round_near (x : R) : Rabs (x - IZR (np_round x)) <= 1 / 2.
Proof.
  pose proof (np_round_floor x) as Hf. cbn zeta in Hf. unfold np_round.
  set (f := (up x - 1)%Z) in *.
  destruct (Rlt_dec (x - IZR f) (1 / 2)) as [H|H].
  - apply Rabs_le. lra.
  - destruct (Rlt_dec (1 / 2) (x - IZR f)) as [H'|H'].
    + rewrite plus_IZR. apply Rabs_le. lra.
    + destruct (Z.even f); [|rewrite plus_IZR]; apply Rabs_le; lra.
Qed.

Lemma np_round_small (x : R) : - (1 / 2) < x <= 1 / 2 -> np_round x = 0%Z.
Proof.
  intros Hx. pose proof (np_round_floor x) as Hf. cbn zeta in Hf.
  unfold np_round. set (f := (up x - 1)%Z) in *.
  assert (Hlo : (-2 < f)%Z).
  { apply lt_IZR. replace (IZR (-2)) with (-2) by reflexivity. lra. }
  assert (Hhi : (f < 1)%Z) by (apply lt_IZR; lra).
  assert (Hcase : f = (-1)%Z \/ f = 0%Z) by lia.
  destruct Hcase as [E|E]; rewrite E in *; cbn [Z.even Z.add];
    replace (IZR (-1)) with (-1) in * by reflexivity.
  - destruct (Rlt_dec (x - -1) (1 / 2)); [lra|].
    destruct (Rlt_dec (1 / 2) (x - -1)); [reflexivity|lra].
  - destruct (Rlt_dec (x - 0) (1 / 2)); [reflexivity|].
    destruct (Rlt_dec (1 / 2) (x - 0)); [lra|reflexivity].
Qed.

(** A sweep over the columns [l] of row [i] leaves every column outside
    [l] as it was. *)
Lemma row_sweep_untouched (dx : grid) (i : nat) (l : list nat) (j : nat) :
  ~ In j l ->
  forall u i',
    fold_left (fun u j => upd u i j (u i (j - 1)%nat + dx i j)) l u i' j
    = u i' j.
Proof.
  induction l as [|a l IH]; intros Hj u i'; cbn [fold_left]; [reflexivity|].
  rewrite IH by (intros H; apply Hj; right; exact H).
  apply upd_other_col. intros ->. apply Hj. left. reflexivity.
Qed.

Lemma integrate_rows_first_column (height width : nat) (dx : grid) (i : nat) :
  integrate_rows height width dx (fun _ _ => 0) i O = 0.
Proof.
  unfold integrate_rows.
  assert (H : forall l u, (forall i', u i' O = 0) ->
            forall i', fold_left (fun u i => row_sweep width dx i u) l u i' O
                       = 0).
  { induction l as [|a l IH]; intros u Hu i'; cbn [fold_left]; [apply Hu|].
    apply IH. intros i''. unfold row_sweep.
    rewrite row_sweep_untouched; [apply Hu|].
    intros Hin. apply in_seq in Hin. lia. }
  apply H. reflexivity.
Qed.

(** One column of the adjustment, down to row [n]. *)
Lemma col_sweep_spec (dy : grid) (j : nat) (u : grid) (n : nat) :
  let u' := fold_left (fun u i => adjust dy i j u) (seq 1 n) u in
  (forall i' j', j' <> j -> u' i' j' = u i' j') /\
  (forall i', (i' = O \/ n < i')%nat -> u' i' j = u i' j) /\
  (forall i', (1 <= i' <= n)%nat ->
     Rabs (dy i' j - (u' i' j - u' (i' - 1)%nat j)) <= PI) /\
  ((forall i', u i' j = 0) -> (forall i', - PI < dy i' j <= PI) ->
   forall i', u' i' j = 0).
Proof.
  pose proof PI_RGT_0 as Hpi.
  induction n as [|n IH]; cbn zeta.
  - cbn [seq fold_left]. repeat split; try reflexivity.
    + intros i' Hi'. lia.
    + intros H _ i'. apply H.
  - rewrite seq_S, fold_left_app. cbn [fold_left Nat.add].
    cbn zeta in IH. destruct IH as (Hcol & Hrow & Hbound & Hzero).
    set (U := fold_left _ (seq 1 n) u) in *.
    unfold adjust. replace (S n - 1)%nat with n by lia.
    set (x := dy (S n) j - (U (S n) j - U n j)).
    repeat split.
    + intros i' j' Hj'. rewrite upd_other_col by assumption.
      apply Hcol, Hj'.
    + intros i' Hi'. rewrite upd_other_row by lia. apply Hrow. lia.
    + intros i' Hi'. destruct (Nat.eq_dec i' (S n)) as [->|Hne].
      * rewrite upd_same. replace (S n - 1)%nat with n by lia.
        rewrite upd_other_row by lia.
        pose proof (np_round_near (x / (2 * PI))) as Hr.
        apply Rabs_le_bounds in Hr. apply Rabs_le.
        set (k := IZR (np_round (x / (2 * PI)))) in *.
        assert (Ex : x = x / (2 * PI) * (2 * PI)) by (field; lra).
        assert (H1 : (x / (2 * PI) - k) * (2 * PI) <= 1 / 2 * (2 * PI))
          by (apply Rmult_le_compat_r; lra).
        assert (H2 : - (1 / 2) * (2 * PI) <= (x / (2 * PI) - k) * (2 * PI))
          by (apply Rmult_le_compat_r; lra).
        replace (dy (S n) j - (U (S n) j + k * 2 * PI - U n j))
          with ((x / (2 * PI) - k) * (2 * PI))
          by (rewrite Rmult_minus_distr_r, <- Ex; unfold x; ring).
        lra.
      * rewrite !upd_other_row by lia. apply Hbound. lia.
    + intros Hu Hdy i'. specialize (Hzero Hu Hdy).
      destruct (Nat.eq_dec i' (S n)) as [->|Hne].
      * rewrite upd_same. unfold x. rewrite !Hzero.
        rewrite np_round_small; [ring|].
        specialize (Hdy (S n)).
        replace (dy (S n) j - (0 - 0)) with (dy (S n) j) by ring.
        split.
        -- apply Rmult_lt_reg_r with (r := 2 * PI); [lra|].
           unfold Rdiv. rewrite Rmult_assoc, Rinv_l by lra. lra.
        -- apply Rmult_le_reg_r with (r := 2 * PI); [lra|].
           unfold Rdiv. rewrite Rmult_assoc, Rinv_l by lra. lra.
      * rewrite upd_other_row by assumption. apply Hzero.
Qed.

(** The adjustment over the first [m] columns. *)
Lemma adjust_cols_spec (height : nat) (dy u : grid) (m : nat) :
  let u' := fold_left (fun u j => col_sweep height dy j u) (seq 0 m) u in
  (forall i j, (m <= j)%nat -> u' i j = u i j) /\
  (forall i j, (1 <= i <= height - 1)%nat -> (j < m)%nat ->
     Rabs (dy i j - (u' i j - u' (i - 1)%nat j)) <= PI) /\
  ((forall i, u i O = 0) -> (forall i, - PI < dy i O <= PI) ->
   forall i, u' i O = 0).
Proof.
  induction m as [|m IH]; cbn zeta.
  - cbn [seq fold_left]. repeat split; try reflexivity.
    + intros; lia.
    + intros H _ i. apply H.
  - rewrite seq_S, fold_left_app. cbn [fold_left Nat.add].
    cbn zeta in IH. destruct IH as (Hrest & Hbound & Hzero).
    set (U := fold_left _ (seq 0 m) u) in *.
    destruct (col_sweep_spec dy m U (height - 1))
      as (Hcol & _ & Hb & Hz).
    fold (col_sweep height dy m U) in Hcol, Hb, Hz.
    repeat split.
    + intros i j Hj. rewrite Hcol by lia. apply Hrest. lia.
    + intros i j Hi Hj. destruct (Nat.eq_dec j m) as [->|Hne].
      * apply Hb. exact Hi.
      * rewrite !Hcol by assumption. apply Hbound; lia.
    + intros Hu Hdy i. specialize (Hzero Hu Hdy).
      destruct m as [|m].
      * apply Hz; [exact Hzero|exact Hdy].
      * rewrite Hcol by lia. apply Hzero.
Qed.

(** X13.  After the row-wise integration and the column-wise adjustment of
    [SNAPHUUnwrapper._mcf_unwrap], the first column of the estimate is 0 in
    every row, and every vertical step of the estimate is within pi of the
    wrapped vertical gradient of the input. *)
Theorem X13_adjusted_columns (height width : nat) (phase : grid)
    (i j : nat) :
  integrated height width phase i O = 0 /\
  ((0 < i < height)%nat -> (j < width)%nat ->
   Rabs (grad_y phase i j
         - (integrated height width phase i j
            - integrated height width phase (i - 1)%nat j)) <= PI).
Proof.
  unfold integrated, adjust_cols.
  destruct (adjust_cols_spec height (grad_y phase)
              (integrate_rows height width (grad_x phase) (fun _ _ => 0))
              width) as (_ & Hbound & Hzero).
  cbn zeta in Hbound, Hzero. split.
  - apply Hzero.
    + intros i'. apply integrate_rows_first_column.
    + intros i'. unfold grad_y. apply wrap_spec.
  - intros Hi Hj. apply Hbound; lia.
Qed.

Lemma X13_adjusted_columns_witness :
  Rabs (grad_y ramp 1%nat 1%nat
        - (integrated 2 2 ramp 1%nat 1%nat
           - integrated 2 2 ramp (1 - 1)%nat 1%nat)) <= PI.
Proof. apply (X13_adjusted_columns 2 2 ramp 1 1); lia. Defined.

Close Scope R_scope.

(** ** SBAS inversion: mismatched stacks and solved pixels *)

Section InversionFacts.
Variable lstsq : list (list fl) -> list fl -> result (list fl).
Variable self : SBASInversion.t.
Variable phases : array3.
Variable coh : option array3.
Variable reg : fl.

Hypothesis coh_match :
  match coh with
  | Some c => len3 c = len3 phases /\ rows3 c = rows3 phases /\
              cols3 c = cols3 phases
  | None => True
  end.

Lemma weights_ok (i j : nat) :
  (i < rows3 phases)%nat -> (j < cols3 phases)%nat ->
  exists weights,
    match coh with
    | Some c => (w <- column3 c i j ;; ret (map fsquare w))%result
    | None => ret (repeat (Fin 1) (len3 phases))
    end = inr weights /\ List.length weights = len3 phases.
Proof.
  intros Hi Hj. destruct coh as [c|].
  - destruct coh_match as (H1 & H2 & H3).
    rewrite column3_ok by lia. cbn [bind]. eexists. split; [reflexivity|].
    rewrite !length_map, length_seq. exact H1.
  - eexists. split; [reflexivity|]. apply repeat_length.
Qed.

(** With a design matrix whose number of rows is not the number of
    rasters in the stack, a pixel with too few observations is skipped and
    any other pixel raises [IndexError]. *)
Lemma pixel_mismatch (i j : nat) (st : outputs) :
  List.length (design_matrix self) <> len3 phases ->
  (i < rows3 phases)%nat -> (j < cols3 phases)%nat ->
  vel_dims (rows3 phases) (cols3 phases) st ->
  if (n_valid phases i j <? 3)%nat
  then exists st', pixel lstsq self phases coh reg (i, j) st = inr st' /\
                   vel_dims (rows3 phases) (cols3 phases) st'
  else pixel lstsq self phases coh reg (i, j) st = inl IndexError.
Proof.
  intros Hne Hi Hj [Hr Hc]. unfold pixel.
  rewrite (column3_ok _ _ _ Hi Hj). cbn [bind].
  rewrite map_map. fold (n_valid phases i j).
  destruct (Nat.ltb_spec (n_valid phases i j) 3) as [Hlt|Hge].
  - destruct (write2_ok (velocity st) i j NaN) as [vel Hvel]; [lia|lia|].
    rewrite Hvel. cbn [bind].
    destruct (write2_spec _ _ _ _ _ Hvel) as (Hr' & Hc' & _).
    eexists. split; [reflexivity|]. unfold vel_dims. cbn. lia.
  - set (mask := map (fun k => negb (is_nan (cell3 phases k i j)))
                   (seq 0 (len3 phases))).
    assert (Hmask : List.length mask = len3 phases).
    { subst mask. rewrite length_map, length_seq. reflexivity. }
    destruct (weights_ok i j Hi Hj) as (weights & Hw & Hwl).
    rewrite Hw. cbn [bind].
    rewrite (masked_ok weights mask) by congruence. cbn [bind].
    unfold masked at 1. rewrite length_map, Hmask.
    destruct (Nat.eqb_spec (List.length (design_matrix self)) (len3 phases));
      [contradiction|].
    reflexivity.
Qed.

Lemma pixel_loop_mismatch (pixels : list (nat * nat)) :
  List.length (design_matrix self) <> len3 phases ->
  Forall (fun ij => (fst ij < rows3 phases)%nat /\
                    (snd ij < cols3 phases)%nat) pixels ->
  Exists (fun ij => (3 <= n_valid phases (fst ij) (snd ij))%nat) pixels ->
  forall st, vel_dims (rows3 phases) (cols3 phases) st ->
    pixel_loop lstsq self phases coh reg pixels st = inl IndexError.
Proof.
  intros Hne Hall Hex.
  induction Hall as [|[i j] pixels [Hi Hj] Hall IH]; intros st Hst.
  - inversion Hex.
  - cbn [fst snd] in Hi, Hj. cbn [pixel_loop].
    pose proof (pixel_mismatch i j st Hne Hi Hj Hst) as Hp.
    destruct (Nat.ltb_spec (n_valid phases i j) 3) as [Hlt|Hge].
    + destruct Hp as (st' & Hp & Hst'). rewrite Hp. cbn [bind].
      apply IH; [|exact Hst'].
      inversion Hex as [? ? H|? ? H]; subst; [cbn [fst snd] in H; lia|exact H].
    + rewrite Hp. reflexivity.
Qed.

Lemma write3_cells (a a' : array3) (k i j : nat) (v : fl) :
  write3 a k i j v = inr a' ->
  len3 a' = len3 a /\
  forall k' i' j',
    cell3 a' k' i' j'
    = if Nat.eqb k' k && Nat.eqb i' i && Nat.eqb j' j then v
      else cell3 a k' i' j'.
Proof.
  unfold write3. destruct (_ && _); [|discriminate].
  intros H; inversion H; subst; clear H. cbn. split; reflexivity.
Qed.

(** The accumulation loop writes from index [k + 1] on, and keeps the
    length of the series. *)
Lemma accumulate_low (i j : nat) (v : list fl) :
  forall k d d' e, accumulate i j v k d = (d', e) ->
  len3 d' = len3 d /\
  forall k' i' j', (k' <= k)%nat -> cell3 d' k' i' j' = cell3 d k' i' j'.
Proof.
  induction v as [|vk v IH]; intros k d d' e H; cbn in H.
  - inversion H; subst. split; reflexivity.
  - destruct (read3 d k i j) as [e0|x];
      [inversion H; subst; split; reflexivity|].
    destruct (write3 d (S k) i j (fadd x vk)) as [e0|d1] eqn:E;
      [inversion H; subst; split; reflexivity|].
    destruct (write3_cells _ _ _ _ _ _ E) as (Hl & Hcell).
    destruct (IH _ _ _ _ H) as (Hl' & Hlow).
    split; [congruence|].
    intros k' i' j' Hk. rewrite Hlow by lia. rewrite Hcell.
    destruct (Nat.eqb_spec k' (S k)); [lia|reflexivity].
Qed.

(** The body of the [try]: it keeps the series at index 0 at zero; when it
    raises nothing, the velocity at its pixel is the mean velocity of the
    pixel's series. *)
Lemma solve_own (i j : nat) (Av : list (list fl)) (bv : list fl)
    (Aw : list (list fl)) (bw : list fl) (st st' : outputs) (e : option exn) :
  solve lstsq self i j Av bv Aw bw st = (st', e) ->
  len3 (displacement_ts st') = len3 (displacement_ts st) /\
  (starts_at_zero st -> starts_at_zero st') /\
  (e = None -> cell2 (velocity st') i j = mean_velocity self st' i j).
Proof.
  unfold solve, starts_at_zero, mean_velocity.
  destruct (lstsq Aw bw) as [e0|v];
    [intros H; inversion H; subst; repeat split; auto; discriminate|].
  destruct (write3 (displacement_ts st) 0 i j (Fin 0)) as [e0|d0] eqn:E0;
    [intros H; inversion H; subst; repeat split; auto; discriminate|].
  destruct (write3_cells _ _ _ _ _ _ E0) as (Hl0 & Hc0).
  destruct (accumulate i j v 0 d0) as [d1 e1] eqn:E1.
  destruct (accumulate_low _ _ _ _ _ _ _ E1) as (Hl1 & Hlow).
  assert (Hz : (forall i0 j0, cell3 (displacement_ts st) 0 i0 j0 = Fin 0) ->
               forall i0 j0, cell3 d1 0 i0 j0 = Fin 0).
  { intros Hst i0 j0. rewrite Hlow by lia. rewrite Hc0.
    destruct (_ && _); [reflexivity|apply Hst]. }
  assert (Hl : len3 d1 = len3 (displacement_ts st)) by congruence.
  destruct e1 as [e1|];
    [intros H; inversion H; subst; cbn; repeat split; auto; discriminate|].
  destruct (read3 d1 (len3 d1 - 1) i j) as [e0|last] eqn:Er;
    [intros H; inversion H; subst; cbn; repeat split; auto; discriminate|].
  assert (Hlast : last = cell3 d1 (len3 d1 - 1) i j).
  { unfold read3 in Er. destruct (_ && _); [|discriminate].
    inversion Er; reflexivity. }
  cbn [velocity residual displacement_ts].
  destruct (write2 (velocity st) i j _) as [e0|vel] eqn:E2;
    [intros H; inversion H; subst; cbn; repeat split; auto; discriminate|].
  destruct (write2_spec _ _ _ _ _ E2) as (_ & _ & Hv & _).
  destruct (negb _);
    [intros H; inversion H; subst; cbn; repeat split; auto; discriminate|].
  destruct (write2 (residual st) i j _) as [e0|res] eqn:E3;
    [intros H; inversion H; subst; cbn; repeat split; auto; discriminate|].
  intros H; inversion H; subst; cbn; repeat split; auto.
Qed.

Hypothesis rows_match : List.length (design_matrix self) = len3 phases.

(** What one iteration of the pixel loop leaves at its own pixel. *)
Lemma pixel_own (i j : nat) (st st' : outputs) :
  (i < rows3 phases)%nat -> (j < cols3 phases)%nat ->
  vel_dims (rows3 phases) (cols3 phases) st ->
  pixel lstsq self phases coh reg (i, j) st = inr st' ->
  len3 (displacement_ts st') = len3 (displacement_ts st) /\
  (starts_at_zero st -> starts_at_zero st') /\
  velocity_settled self phases st' i j.
Proof.
  intros Hi Hj [Hr Hc]. unfold pixel, velocity_settled.
  rewrite (column3_ok _ _ _ Hi Hj). cbn [bind].
  rewrite map_map. fold (n_valid phases i j).
  destruct (Nat.ltb_spec (n_valid phases i j) 3) as [Hlt|Hge].
  - destruct (write2_ok (velocity st) i j NaN) as [vel Hvel]; [lia|lia|].
    rewrite Hvel. cbn [bind ret].
    destruct (write2_spec _ _ _ _ _ Hvel) as (_ & _ & Hv & _).
    intros H; inversion H; subst; clear H. cbn.
    repeat split; auto.
  - set (mask := map (fun k => negb (is_nan (cell3 phases k i j)))
                   (seq 0 (len3 phases))).
    assert (Hmask : List.length mask = len3 phases).
    { subst mask. rewrite length_map, length_seq. reflexivity. }
    destruct (weights_ok i j Hi Hj) as (weights & Hw & Hwl).
    rewrite Hw. cbn [bind].
    rewrite (masked_ok weights mask) by congruence. cbn [bind].
    rewrite (masked_ok (map (map of_int) (design_matrix self)) mask)
      by (rewrite length_map; congruence).
    cbn [bind].
    rewrite (masked_ok _ mask)
      by (rewrite length_map, length_seq; congruence).
    cbn [bind].
    match goal with
    | |- context [solve ?l ?s ?a ?b ?c ?d ?e ?f ?g] =>
        destruct (solve l s a b c d e f g) as [st1 e1] eqn:Es
    end.
    destruct (solve_frame _ _ _ _ _ _ _ _ _ _ _ Es) as [[Hr1 Hc1] _].
    destruct (solve_own _ _ _ _ _ _ _ _ _ Es) as (Hl1 & Hz1 & Hv1).
    destruct e1 as [e1|].
    + destruct (write2_ok (velocity st1) i j NaN) as [vel Hvel];
        [lia|lia|].
      rewrite Hvel. cbn [bind ret].
      destruct (write2_spec _ _ _ _ _ Hvel) as (_ & _ & Hv & _).
      intros H; inversion H; subst; clear H. cbn.
      repeat split; auto.
    + cbn [ret]. intros H; inversion H; subst; clear H.
      repeat split; auto.
Qed.

Lemma velocity_settled_same (i j : nat) (st st' : outputs) :
  same_at i j st st' ->
  len3 (displacement_ts st') = len3 (displacement_ts st) ->
  velocity_settled self phases st i j ->
  velocity_settled self phases st' i j.
Proof.
  intros (Hv & _ & Hd) Hl. unfold velocity_settled, mean_velocity.
  rewrite Hv, Hl, Hd. trivial.
Qed.

Lemma pixel_loop_settles (pixels : list (nat * nat)) :
  Forall (fun ij => (fst ij < rows3 phases)%nat /\
                    (snd ij < cols3 phases)%nat) pixels ->
  forall st, vel_dims (rows3 phases) (cols3 phases) st ->
  exists st',
    pixel_loop lstsq self phases coh reg pixels st = inr st' /\
    len3 (displacement_ts st') = len3 (displacement_ts st) /\
    (starts_at_zero st -> starts_at_zero st') /\
    forall i0 j0,
      In (i0, j0) pixels \/ velocity_settled self phases st i0 j0 ->
      velocity_settled self phases st' i0 j0.
Proof.
  induction 1 as [|[i j] pixels [Hi Hj] Hall IH]; intros st Hst;
    cbn [pixel_loop].
  - exists st. repeat split; auto. intros i0 j0 [[]|H]; exact H.
  - cbn [fst snd] in Hi, Hj.
    destruct (pixel_ok lstsq self phases coh reg rows_match coh_match
                i j st Hi Hj Hst) as (st1 & H1 & Hd1 & Hf1 & _).
    destruct (pixel_own i j st st1 Hi Hj Hst H1) as (Hl1 & Hz1 & Hv1).
    rewrite H1. cbn [bind].
    destruct (IH st1 Hd1) as (st' & H' & Hl' & Hz' & Hinv).
    exists st'. split; [exact H'|]. split; [congruence|].
    split; [auto|].
    intros i0 j0 Hcase. apply Hinv.
    assert (Hdec : (i0, j0) = (i, j) \/ (i0, j0) <> (i, j)).
    { destruct (Nat.eq_dec i0 i), (Nat.eq_dec j0 j); subst;
        try (left; reflexivity); right; congruence. }
    destruct Hdec as [Heq|Hne].
    + inversion Heq; subst. right. exact Hv1.
    + destruct Hcase as [[Heq|Hin]|Hset].
      * congruence.
      * left. exact Hin.
      * right. apply (velocity_settled_same i0 j0 st st1); auto.
Qed.

End InversionFacts.

(** X14.  When the design matrix does not have one row per raster of the
    phase stack, [invert_velocity] ends in the error report (an
    [IndexError]) as soon as one pixel has at least three observations:
    no pixel is solved. *)
Theorem X14_inversion_rejects_mismatched_stack
    (lstsq : list (list fl) -> list fl -> result (list fl))
    (self : SBASInversion.t) (phases : array3) (coh : option array3)
    (reg : fl) (i j : nat) :
  List.length (design_matrix self) <> len3 phases ->
  match coh with
  | Some c => len3 c = len3 phases /\ rows3 c = rows3 phases /\
              cols3 c = cols3 phases
  | None => True
  end ->
  (i < rows3 phases)%nat -> (j < cols3 phases)%nat ->
  (3 <= n_valid phases i j)%nat ->
  invert_velocity lstsq self phases coh reg = inl IndexError.
Proof.
  intros Hne Hcoh Hi Hj Hn. unfold invert_velocity.
  rewrite (pixel_loop_mismatch lstsq self phases coh reg Hcoh
             (pixel_order (rows3 phases) (cols3 phases)) Hne).
  - reflexivity.
  - apply pixel_order_range.
  - apply Exists_exists. exists (i, j).
    split; [apply pixel_order_in; assumption|exact Hn].
  - split; reflexivity.
Qed.

Lemma X14_inversion_rejects_mismatched_stack_witness :
  invert_velocity failing_lstsq
    {| network := example_network; design_matrix := [] |}
    (mk_array3 3 1 1 (fun _ _ _ => Fin 1)) None (Fin 0)
  = inl IndexError.
Proof.
  apply (X14_inversion_rejects_mismatched_stack failing_lstsq
           {| network := example_network; design_matrix := [] |}
           (mk_array3 3 1 1 (fun _ _ _ => Fin 1)) None (Fin 0) 0 0);
    cbn; try lia; exact I.
Defined.

(** X15.  When the stack matches the design matrix, [invert_velocity]
    completes and, at every pixel, the displacement series starts at zero
    and the velocity is either NaN or, at a pixel with at least three
    observations, the last displacement divided by the time span of the
    dates in days, times 365. *)
Theorem X15_velocity_is_mean_rate
    (lstsq : list (list fl) -> list fl -> result (list fl))
    (self : SBASInversion.t) (phases : array3) (coh : option array3)
    (reg : fl) :
  List.length (design_matrix self) = len3 phases ->
  match coh with
  | Some c => len3 c = len3 phases /\ rows3 c = rows3 phases /\
              cols3 c = cols3 phases
  | None => True
  end ->
  (0 < rows3 phases * cols3 phases)%nat ->
  exists out,
    invert_velocity lstsq self phases coh reg = inr out /\
    len3 (displacement_ts out) = n_dates (network self) /\
    forall i j, (i < rows3 phases)%nat -> (j < cols3 phases)%nat ->
      cell3 (displacement_ts out) 0 i j = Fin 0 /\
      (cell2 (velocity out) i j = NaN \/
       ((3 <= n_valid phases i j)%nat /\
        cell2 (velocity out) i j = mean_velocity self out i j)).
Proof.
  intros Hrows Hcoh Hpos. unfold invert_velocity.
  destruct (pixel_loop_settles lstsq self phases coh reg Hcoh Hrows
              (pixel_order (rows3 phases) (cols3 phases))
              (pixel_order_range _ _)
              (mk_outputs (zeros2 (rows3 phases) (cols3 phases))
                 (zeros3 (n_dates (network self)) (rows3 phases)
                    (cols3 phases))
                 (zeros2 (rows3 phases) (cols3 phases))))
    as (out & Hrun & Hlen & Hzero & Hset); [split; reflexivity|].
  rewrite Hrun. cbn [bind].
  destruct (Nat.eqb_spec (rows3 phases * cols3 phases) 0); [lia|].
  exists out. split; [reflexivity|]. split; [exact Hlen|].
  intros i j Hi Hj. split.
  - apply Hzero. intros i0 j0. reflexivity.
  - apply Hset. left. apply pixel_order_in; assumption.
Qed.

Lemma X15_velocity_is_mean_rate_witness :
  exists inv out,
    SBASInversion.init example_network = inr inv /\
    invert_velocity (fun _ _ => inr [Fin 1; Fin 2]) inv
      (mk_array3 3 1 1 (fun _ _ _ => Fin 1)) None (Fin 0) = inr out /\
    cell3 (displacement_ts out) 0 0 0 = Fin 0.
Proof.
  eexists.
  destruct (X15_velocity_is_mean_rate (fun _ _ => inr [Fin 1; Fin 2])
              {| network := example_network;
                 design_matrix := [[31; 0]; [31; 28]; [0; 28]]%Z |}
              (mk_array3 3 1 1 (fun _ _ _ => Fin 1)) None (Fin 0))
    as (out & Hrun & _ & Hcells); [reflexivity|exact I|cbn; lia|].
  exists out. split; [reflexivity|]. split; [exact Hrun|].
  apply (Hcells 0%nat 0%nat); cbn; lia.
Defined.

(** ** The quality score of an unwrapping *)

Import SNAPHUQualityAssessment.

Open Scope R_scope.

Lemma Rsum_app (l l' : list R) : Rsum (l ++ l') = Rsum l + Rsum l'.
Proof.
  unfold Rsum. induction l as [|x l IH]; cbn [app fold_right]; [ring|].
  rewrite IH. ring.
Qed.

(** A sum over the cells of a raster is monotone in the cells. *)
Lemma Rsum_cells_le (h w : nat) (f g : nat -> nat -> R) :
  (forall i j, (i < h)%nat -> (j < w)%nat -> f i j <= g i j) ->
  Rsum (cells h w f) <= Rsum (cells h w g).
Proof.
  intros H. unfold cells, flatten. cbn [rrows rcols rat].
  assert (Hrow : forall i, (i < h)%nat -> forall (l : list nat),
            (forall j, In j l -> (j < w)%nat) ->
            Rsum (map (fun j => f i j) l) <= Rsum (map (fun j => g i j) l)).
  { intros i Hi l. induction l as [|j l IH]; intros Hl;
      cbn [map Rsum fold_right]; [lra|].
    assert (f i j <= g i j) by (apply H; [exact Hi|apply Hl; left; auto]).
    assert (Rsum (map (fun j => f i j) l) <= Rsum (map (fun j => g i j) l))
      by (apply IH; intros; apply Hl; right; assumption).
    unfold Rsum in *. lra. }
  assert (Hall : forall (l : list nat), (forall i, In i l -> (i < h)%nat) ->
            Rsum (flat_map (fun i => map (fun j => f i j) (seq 0 w)) l)
            <= Rsum (flat_map (fun i => map (fun j => g i j) (seq 0 w)) l)).
  { induction l as [|i l IH]; intros Hl; cbn [flat_map]; [lra|].
    rewrite !Rsum_app.
    assert (Rsum (map (fun j => f i j) (seq 0 w))
            <= Rsum (map (fun j => g i j) (seq 0 w))).
    { apply Hrow; [apply Hl; left; reflexivity|].
      intros j Hj. apply in_seq in Hj. lia. }
    assert (Rsum (flat_map (fun i => map (fun j => f i j) (seq 0 w)) l)
            <= Rsum (flat_map (fun i => map (fun j => g i j) (seq 0 w)) l))
      by (apply IH; intros; apply Hl; right; assumption).
    lra. }
  apply Hall. intros i Hi. apply in_seq in Hi. lia.
Qed.

Lemma Rsum_cells_scale (h w : nat) (c : R) (f : nat -> nat -> R) :
  Rsum (cells h w (fun i j => c * f i j)) = c * Rsum (cells h w f).
Proof.
  unfold cells, flatten. cbn [rrows rcols rat].
  assert (E : forall i (l : list nat),
            Rsum (map (fun j => c * f i j) l)
            = c * Rsum (map (fun j => f i j) l)).
  { intros i l. unfold Rsum.
    induction l as [|j l IH]; cbn [map fold_right]; [ring|].
    rewrite IH. ring. }
  generalize (seq 0 h). intros l.
  induction l as [|i l IH]; cbn [flat_map].
  - cbn. ring.
  - rewrite !Rsum_app, IH, E. ring.
Qed.

Lemma Rsum_cells_zero (h w : nat) (f : nat -> nat -> R) :
  (forall i j, (i < h)%nat -> (j < w)%nat -> f i j = 0) ->
  Rsum (cells h w f) = 0.
Proof.
  intros H. unfold cells.
  rewrite (flatten_ext (mk_rarray h w f)
             (mk_rarray h w (fun i j => 0 * f i j))).
  - fold (cells h w (fun i j => 0 * f i j)). rewrite Rsum_cells_scale. ring.
  - reflexivity.
  - reflexivity.
  - intros p q Hp Hq. cbn in *. rewrite H by assumption. ring.
Qed.

Lemma Rsum_cells_nonneg (h w : nat) (f : nat -> nat -> R) :
  (forall i j, 0 <= f i j) -> 0 <= Rsum (cells h w f).
Proof.
  intros H. apply Rsum_nonneg. intros y Hy. apply flatten_In in Hy.
  destruct Hy as (p & q & _ & _ & ->). apply H.
Qed.

(** X16.  The quality score of [assess_quality] is always a number between
    0 and 100, never NaN.  When the coherence is zero everywhere (or the
    raster is empty) the score is 100 and the level "good", whatever the
    unwrapped phase; otherwise the weighted error lies between 0 and pi and
    the score is 100 * (1 - error / pi) without clamping.  An unwrapped
    phase that differs from the wrapped phase by whole cycles scores 100. *)
Theorem X16_quality_score (height width : nat)
    (wrapped_phase unwrapped_phase coherence : nat -> nat -> R) :
  let q := assess_quality height width wrapped_phase unwrapped_phase
             coherence in
  let total_weight :=
    Rsum (cells height width (fun i j => coherence i j * coherence i j)) in
  (exists s, quality_score q = Fin s /\ 0 <= s <= 100) /\
  (total_weight = 0 ->
   weighted_rmse q = NaN /\ quality_score q = Fin 100 /\
   quality_level q = good) /\
  (total_weight <> 0 ->
   exists e, weighted_rmse q = Fin e /\ 0 <= e <= PI /\
             quality_score q = Fin (100 * (1 - e / PI))) /\
  ((forall i j, (i < height)%nat -> (j < width)%nat ->
      cong2pi (unwrapped_phase i j) (wrapped_phase i j)) ->
   quality_score q = Fin 100 /\ quality_level q = good).
Proof.
  pose proof PI_RGT_0 as Hpi.
  cbn zeta. unfold assess_quality.
  cbn [quality_score quality_level weighted_rmse].
  match goal with
  | |- context [fdiv (Fin ?a) (Fin ?b)] => set (Swr := a); set (Sw := b)
  end.
  assert (Hres : forall i j,
            - PI < wrap (wrapped_phase i j - wrap (unwrapped_phase i j))
            <= PI) by (intros; apply wrap_spec).
  assert (HSw : 0 <= Sw)
    by (subst Sw; apply Rsum_cells_nonneg; intros; nra).
  assert (HSwr : 0 <= Swr).
  { subst Swr. apply Rsum_cells_nonneg. intros i j.
    apply Rmult_le_pos; nra. }
  assert (Hup : Swr <= PI * PI * Sw).
  { subst Sw Swr. rewrite <- Rsum_cells_scale. apply Rsum_cells_le.
    intros i j _ _. pose proof (Hres i j) as Hr.
    set (r := wrap (wrapped_phase i j - wrap (unwrapped_phase i j))) in *.
    assert (r * r <= PI * PI) by nra.
    assert (0 <= coherence i j * coherence i j) by nra.
    nra. }
  assert (Hscore : forall e, 0 <= e <= PI ->
            py_max (Fin 0)
              (py_min (Fin 100)
                 (fmul (Fin 100) (fsub (Fin 1) (fdiv (Fin e) (Fin PI)))))
            = Fin (100 * (1 - e / PI)) /\
            0 <= 100 * (1 - e / PI) <= 100).
  { intros e He.
    assert (Hq : 0 <= e / PI <= 1).
    { split.
      - apply Rmult_le_pos; [lra|]. apply Rlt_le, Rinv_0_lt_compat, Hpi.
      - apply Rmult_le_reg_r with (r := PI); [exact Hpi|].
        unfold Rdiv. rewrite Rmult_assoc, Rinv_l by lra. lra. }
    split; [|lra].
    unfold fdiv, fsub, fopp, fadd, fmul, Rzero.
    destruct (Req_EM_T PI 0); [lra|].
    replace (1 + - (e / PI)) with (1 - e / PI) by ring.
    unfold py_min, py_max, fl_lt.
    destruct (Rlt_dec (100 * (1 - e / PI)) 100) as [Hlt|Hge].
    - destruct (Rlt_dec 0 (100 * (1 - e / PI))) as [Hp|Hn];
        [reflexivity|].
      f_equal. lra.
    - destruct (Rlt_dec 0 100); [|lra]. f_equal. lra. }
  assert (Hgood : forall s, s = 100 ->
            (if fl_lt (Fin 80) (Fin s) then good
             else if fl_lt (Fin 60) (Fin s) then moderate else poor) = good).
  { intros s ->. unfold fl_lt. destruct (Rlt_dec 80 100); [reflexivity|lra]. }
  set (W := fsqrt (fdiv (Fin Swr) (Fin Sw))).
  set (score := py_max (Fin 0)
                  (py_min (Fin 100)
                     (fmul (Fin 100) (fsub (Fin 1) (fdiv W (Fin PI)))))).
  assert (Hnan : Sw = 0 -> W = NaN /\ score = Fin 100).
  { intros E0. assert (Swr = 0) by (rewrite E0 in Hup; lra).
    assert (E1 : W = NaN).
    { subst W. unfold fdiv, Rzero.
      destruct (Req_EM_T Sw 0); [|contradiction].
      destruct (Req_EM_T Swr 0); [|contradiction]. reflexivity. }
    subst score. rewrite E1. split; [reflexivity|].
    cbn [fdiv fsub fopp fadd fmul]. unfold py_min, py_max, fl_lt.
    destruct (Rlt_dec 0 100); [reflexivity|lra]. }
  assert (Hfin : Sw <> 0 ->
            W = Fin (sqrt (Swr / Sw)) /\ 0 <= sqrt (Swr / Sw) <= PI).
  { intros Hne. assert (Hpos : 0 < Sw) by lra.
    assert (Hq : 0 <= Swr / Sw)
      by (apply Rmult_le_pos; [lra|apply Rlt_le, Rinv_0_lt_compat, Hpos]).
    subst W. unfold fdiv, fsqrt, Rzero, Rneg.
    destruct (Req_EM_T Sw 0); [contradiction|].
    destruct (Rlt_dec (Swr / Sw) 0); [lra|].
    split; [reflexivity|]. split; [apply sqrt_pos|].
    rewrite <- (sqrt_square PI) by lra. apply sqrt_le_1_alt.
    apply Rmult_le_reg_r with (r := Sw); [exact Hpos|].
    unfold Rdiv. rewrite Rmult_assoc, Rinv_l by lra. lra. }
  assert (Hrange : exists s, score = Fin s /\ 0 <= s <= 100).
  { destruct (Req_EM_T Sw 0) as [E0|Hne].
    - exists 100. split; [apply Hnan, E0|lra].
    - destruct (Hfin Hne) as (Ee & He). subst score. rewrite Ee.
      destruct (Hscore _ He) as (Es & Hs). eexists. split; eassumption. }
  split; [exact Hrange|]. split; [|split].
  - intros E0. destruct (Hnan E0) as (E1 & E2).
    split; [exact E1|]. split; [exact E2|].
    rewrite E2. apply Hgood. reflexivity.
  - intros Hne. destruct (Hfin Hne) as (Ee & He).
    destruct (Hscore _ He) as (Es & _).
    eexists. split; [exact Ee|]. split; [exact He|].
    subst score. rewrite Ee. exact Es.
  - intros Hcong.
    assert (Hzero : Swr = 0).
    { subst Swr. apply Rsum_cells_zero. intros i j Hi Hj.
      assert (E : wrap (wrapped_phase i j - wrap (unwrapped_phase i j)) = 0).
      { rewrite (cong2pi_wrap_eq
                   (wrapped_phase i j - wrap (unwrapped_phase i j)) 0).
        - apply wrap_id. lra.
        - destruct (Hcong i j Hi Hj) as [k Hk].
          destruct (wrap_spec (unwrapped_phase i j)) as [[l Hl] _].
          exists (- (k + l))%Z. rewrite Hl, Hk, opp_IZR, plus_IZR. ring. }
      rewrite E. ring. }
    destruct (Req_EM_T Sw 0) as [E0|Hne].
    + destruct (Hnan E0) as (_ & E2). rewrite E2.
      split; [reflexivity|]. apply Hgood. reflexivity.
    + destruct (Hfin Hne) as (Ee & He).
      destruct (Hscore _ He) as (Es & _).
      assert (E100 : 100 * (1 - sqrt (Swr / Sw) / PI) = 100).
      { rewrite Hzero. unfold Rdiv at 2. rewrite Rmult_0_l, sqrt_0.
        unfold Rdiv. rewrite Rmult_0_l. ring. }
      assert (E2 : score = Fin 100)
        by (subst score; rewrite Ee, Es, E100; reflexivity).
      rewrite E2. split; [reflexivity|]. apply Hgood. reflexivity.
Qed.

Lemma X16_quality_score_witness :
  quality_score (assess_quality 1 2 ramp ramp (fun _ _ => 0)) = Fin 100 /\
  quality_level (assess_quality 1 2 ramp ramp (fun _ _ => 0)) = good.
Proof.
  destruct (X16_quality_score 1 2 ramp ramp (fun _ _ => 0))
    as (_ & H & _).
  destruct H as (_ & H1 & H2); [cbn; ring|].
  split; [exact H1|exact H2].
Defined.

Close Scope R_scope.

(** ** The breadth-first unwrapper *)

Import MSTUnwrapper.

Open Scope R_scope.

Lemma filter_length_le {A} (g g' : A -> bool) (l : list A) :
  (forall x, g' x = true -> g x = true) ->
  (List.length (filter g' l) <= List.length (filter g l))%nat.
Proof.
  intros H. induction l as [|x l IH]; cbn [filter]; [lia|].
  destruct (g' x) eqn:E'.
  - rewrite (H x E'). cbn [List.length]. lia.
  - destruct (g x); cbn [List.length]; lia.
Qed.

Lemma filter_length_lt {A} (g g' : A -> bool) (l : list A) (p : A) :
  (forall x, g' x = true -> g x = true) ->
  In p l -> g p = true -> g' p = false ->
  (List.length (filter g' l) < List.length (filter g l))%nat.
Proof.
  intros H Hin Hg Hg'. induction l as [|x l IH]; [contradiction|].
  cbn [filter]. destruct Hin as [->|Hin].
  - rewrite Hg, Hg'. cbn [List.length].
    pose proof (filter_length_le g g' l H). lia.
  - specialize (IH Hin). destruct (g' x) eqn:E'.
    + rewrite (H x E'). cbn [List.length]. lia.
    + destruct (g x); cbn [List.length]; lia.
Qed.

(** Marking a pixel of the raster that was not visited leaves fewer
    unvisited pixels. *)
Lemma mark_unvisited (h w : nat) (v : nat -> nat -> bool) (i j : nat) :
  (i < h)%nat -> (j < w)%nat -> v i j = false ->
  (unvisited_pixels h w (mark v i j) < unvisited_pixels h w v)%nat.
Proof.
  intros Hi Hj Hv. unfold unvisited_pixels.
  apply filter_length_lt with (p := (i, j)).
  - intros [a b]. cbn [fst snd]. unfold mark.
    destruct (Nat.eqb a i && Nat.eqb b j); [discriminate|trivial].
  - apply in_prod; apply in_seq; lia.
  - cbn [fst snd]. rewrite Hv. reflexivity.
  - cbn [fst snd]. unfold mark. rewrite !Nat.eqb_refl. reflexivity.
Qed.

Section Traversal.
Variables (h w : nat) (wrapped : grid) (i j : nat).

Lemma extends_refl (st : state) : mst_extends h w st st.
Proof. unfold mst_extends. repeat split; auto. Qed.

Lemma extends_trans (st1 st2 st3 : state) :
  mst_extends h w st1 st2 -> mst_extends h w st2 st3 ->
  mst_extends h w st1 st3.
Proof.
  intros (A1 & A2 & A3 & A4) (B1 & B2 & B3 & B4). unfold mst_extends.
  repeat split; auto; try lia.
  intros a b H. destruct (B3 a b H) as [H'|H']; [|right; exact H'].
  destruct (A3 a b H') as [H''|H'']; [left; exact H''|right; auto].
Qed.

Lemma visit_good (st : state) (d : Z * Z) :
  mst_good h w wrapped i j st ->
  let st' := visit h w wrapped i j st d in
  mst_good h w wrapped i j st' /\ mst_extends h w st st' /\
  mst_reached h w i j st' d.
Proof.
  intros (G1 & G2 & G3). cbn zeta. unfold visit.
  set (ni := (Z.of_nat i + fst d)%Z). set (nj := (Z.of_nat j + snd d)%Z).
  destruct ((0 <=? ni)%Z && (ni <? Z.of_nat h)%Z
            && (0 <=? nj)%Z && (nj <? Z.of_nat w)%Z
            && negb (visited st (Z.to_nat ni) (Z.to_nat nj))) eqn:E.
  - apply andb_true_iff in E. destruct E as [E E5].
    apply andb_true_iff in E. destruct E as [E E4].
    apply andb_true_iff in E. destruct E as [E E3].
    apply andb_true_iff in E. destruct E as [E1 E2].
    apply Z.leb_le in E1, E3. apply Z.ltb_lt in E2, E4.
    apply negb_true_iff in E5.
    set (a0 := Z.to_nat ni) in *. set (b0 := Z.to_nat nj) in *.
    assert (Ha0 : (a0 < h)%nat) by (subst a0; lia).
    assert (Hb0 : (b0 < w)%nat) by (subst b0; lia).
    split; [|split].
    + unfold mst_good. cbn [unwrapped visited queue]. split; [|split].
      * intros a b. unfold mark, upd.
        destruct (Nat.eqb a a0 && Nat.eqb b b0) eqn:Eab.
        -- apply andb_true_iff in Eab. destruct Eab as [Ea Eb].
           apply Nat.eqb_eq in Ea, Eb. subst a b. intros _.
           split; [exact Ha0|]. split; [exact Hb0|].
           eapply cong2pi_trans.
           ++ apply cong2pi_plus;
                [apply (proj2 (proj2 (G1 i j G3)))|apply (proj1 (wrap_spec _))].
           ++ exists 0%Z. ring.
        -- intros Hv. apply G1. exact Hv.
      * intros p Hp. apply in_app_or in Hp. unfold mark.
        destruct Hp as [Hp|[<-|[]]].
        -- rewrite (G2 p Hp). destruct (_ && _); reflexivity.
        -- cbn [fst snd]. rewrite !Nat.eqb_refl. reflexivity.
      * unfold mark. rewrite G3. destruct (_ && _); reflexivity.
    + unfold mst_extends. cbn [unwrapped visited queue]. split; [|split; [|split]].
      * intros a b Hv. unfold mark. rewrite Hv.
        destruct (_ && _); reflexivity.
      * intros p Hp. apply in_or_app. left. exact Hp.
      * intros a b. unfold mark.
        destruct (Nat.eqb a a0 && Nat.eqb b b0) eqn:Eab.
        -- apply andb_true_iff in Eab. destruct Eab as [Ea Eb].
           apply Nat.eqb_eq in Ea, Eb. subst a b. intros _. right.
           apply in_or_app. right. left. reflexivity.
        -- intros Hv. left. exact Hv.
      * rewrite length_app. cbn [List.length].
        pose proof (mark_unvisited h w (visited st) a0 b0 Ha0 Hb0 E5). lia.
    + unfold mst_reached. cbn [visited]. intros a b _ _ Ha Hb. unfold mark.
      replace a with a0 by (subst a0 ni; lia).
      replace b with b0 by (subst b0 nj; lia).
      rewrite !Nat.eqb_refl. reflexivity.
  - split; [split; [|split]; assumption|]. split; [apply extends_refl|].
    unfold mst_reached. intros a b Ha Hb Ea Eb.
    destruct (visited st a b) eqn:Hv; [reflexivity|]. exfalso.
    assert (Et : Z.to_nat ni = a) by (subst ni; lia).
    assert (Eu : Z.to_nat nj = b) by (subst nj; lia).
    rewrite Et, Eu, Hv in E.
    assert (E1 : (0 <=? ni)%Z = true) by (apply Z.leb_le; subst ni; lia).
    assert (E2 : (ni <? Z.of_nat h)%Z = true)
      by (apply Z.ltb_lt; subst ni; lia).
    assert (E3 : (0 <=? nj)%Z = true) by (apply Z.leb_le; subst nj; lia).
    assert (E4 : (nj <? Z.of_nat w)%Z = true)
      by (apply Z.ltb_lt; subst nj; lia).
    rewrite E1, E2, E3, E4 in E. discriminate.
Qed.

Lemma visits_good (ds : list (Z * Z)) :
  forall st, mst_good h w wrapped i j st ->
    let st' := fold_left (visit h w wrapped i j) ds st in
    mst_good h w wrapped i j st' /\ mst_extends h w st st' /\
    forall d, In d ds -> mst_reached h w i j st' d.
Proof.
  induction ds as [|d ds IH]; intros st G; cbn zeta; cbn [fold_left].
  - split; [exact G|]. split; [apply extends_refl|]. intros d [].
  - destruct (visit_good st d G) as (G1 & X1 & R1). cbn zeta in G1, X1, R1.
    destruct (IH _ G1) as (G2 & X2 & R2). cbn zeta in G2, X2, R2.
    split; [exact G2|]. split; [eapply extends_trans; eassumption|].
    intros d' [<-|Hd']; [|apply R2, Hd'].
    intros a b Ha Hb Ea Eb. apply (proj1 X2). apply R1; assumption.
Qed.

End Traversal.

(** A neighbour along a row or a column is reached by one of the four
    offsets. *)
Lemma adjacent4_offset (i j a b : nat) :
  adjacent4 i j a b ->
  exists d, In d neighbors /\
    Z.of_nat a = (Z.of_nat i + fst d)%Z /\
    Z.of_nat b = (Z.of_nat j + snd d)%Z.
Proof.
  unfold neighbors. intros [[-> [->| ->]]|[-> [->| ->]]].
  - exists (0, 1)%Z. cbn [fst snd In]. split; [tauto|lia].
  - exists (0, -1)%Z. cbn [fst snd In]. split; [tauto|lia].
  - exists (1, 0)%Z. cbn [fst snd In]. split; [tauto|lia].
  - exists (-1, 0)%Z. cbn [fst snd In]. split; [tauto|lia].
Qed.

(** One iteration of the loop keeps the invariant and uses up one unit of
    the measure. *)
Lemma mst_step (h w : nat) (wrapped : grid) (st : state) (i j : nat)
    (rest : list (nat * nat)) :
  mst_invariant h w wrapped st ->
  queue st = (i, j) :: rest ->
  let st' := fold_left (visit h w wrapped i j) neighbors
               {| unwrapped := unwrapped st;
                  visited := visited st;
                  queue := rest |} in
  mst_invariant h w wrapped st' /\
  (forall a b, visited st a b = true -> visited st' a b = true) /\
  (unvisited_pixels h w (visited st') + List.length (queue st') + 1
   <= unvisited_pixels h w (visited st) + List.length (queue st))%nat.
Proof.
  intros (I1 & I2 & I3) Hq. cbn zeta.
  set (st1 := {| unwrapped := unwrapped st; visited := visited st;
                 queue := rest |}).
  assert (Hcur : visited st i j = true).
  { apply (I2 (i, j)). rewrite Hq. left. reflexivity. }
  assert (G : mst_good h w wrapped i j st1).
  { unfold mst_good. cbn [unwrapped visited queue st1].
    split; [exact I1|]. split; [|exact Hcur].
    intros p Hp. apply I2. rewrite Hq. right. exact Hp. }
  destruct (visits_good h w wrapped i j neighbors st1 G)
    as ((G1 & G2 & G3) & (X1 & X2 & X3 & X4) & R).
  cbn zeta in *.
  set (st' := fold_left (visit h w wrapped i j) neighbors st1) in *.
  cbn [unwrapped visited queue st1] in X1, X2, X3, X4.
  split; [|split].
  - unfold mst_invariant. split; [exact G1|]. split; [exact G2|].
    intros a b Hv Hnq a' b' Ha' Hb' Hadj.
    destruct (X3 a b Hv) as [Hold|Hin]; [|contradiction].
    assert (Hdec : (a, b) = (i, j) \/ (a, b) <> (i, j)).
    { destruct (Nat.eq_dec a i), (Nat.eq_dec b j); subst;
        try (left; reflexivity); right; congruence. }
    destruct Hdec as [Heq|Hne].
    + inversion Heq; subst a b.
      destruct (adjacent4_offset i j a' b' Hadj) as (d & Hd & Ea & Eb).
      apply (R d Hd a' b' Ha' Hb' Ea Eb).
    + apply X1. apply (I3 a b Hold); try assumption.
      rewrite Hq. intros [Heq|Hin]; [congruence|].
      apply Hnq, X2, Hin.
  - exact X1.
  - rewrite Hq. cbn [List.length]. lia.
Qed.

(** The loop ends with an empty queue within as many iterations as the
    measure allows. *)
Lemma bfs_completes (h w : nat) (wrapped : grid) (fuel : nat) :
  forall st,
    mst_invariant h w wrapped st ->
    (unvisited_pixels h w (visited st) + List.length (queue st) <= fuel)%nat ->
    exists st',
      MSTUnwrapper.bfs fuel h w wrapped st = Some st' /\
      mst_invariant h w wrapped st' /\
      queue st' = [] /\
      forall a b, visited st a b = true -> visited st' a b = true.
Proof.
  induction fuel as [|fuel IH]; intros st Inv Hm.
  - destruct (queue st) as [|p rest] eqn:Hq; [|cbn in Hm; lia].
    exists st. cbn [MSTUnwrapper.bfs]. rewrite Hq. auto.
  - destruct (queue st) as [|[i j] rest] eqn:Hq.
    + exists st. cbn [MSTUnwrapper.bfs]. rewrite Hq. auto.
    + cbn [MSTUnwrapper.bfs]. rewrite Hq.
      destruct (mst_step h w wrapped st i j rest Inv Hq) as (Inv' & Hmono & Hdec).
      cbn zeta in Inv', Hmono, Hdec.
      destruct (IH _ Inv') as (st' & Hrun & Inv'' & Hq' & Hmono');
        [rewrite Hq in Hdec; cbn [List.length] in Hdec, Hm; lia|].
      exists st'. split; [exact Hrun|]. split; [exact Inv''|].
      split; [exact Hq'|]. intros a b Hv. apply Hmono', Hmono, Hv.
Qed.

(** When the queue is empty, every pixel of the raster has been visited
    as soon as one has. *)
Lemma closed_visits_all (h w : nat) (wrapped : grid) (st : state)
    (si sj : nat) :
  mst_invariant h w wrapped st -> queue st = [] ->
  visited st si sj = true ->
  forall i j, (i < h)%nat -> (j < w)%nat -> visited st i j = true.
Proof.
  intros (I1 & _ & I3) Hq Hs.
  destruct (I1 si sj Hs) as (Hsi & Hsj & _).
  assert (Hclosed : forall a b a' b', visited st a b = true ->
            (a' < h)%nat -> (b' < w)%nat -> adjacent4 a b a' b' ->
            visited st a' b' = true).
  { intros a b a' b' Hv. apply (I3 a b Hv). rewrite Hq. intros []. }
  assert (Hrow : forall n i, (i < h)%nat ->
            ((i - si) + (si - i) = n)%nat -> visited st i sj = true).
  { induction n as [|n IH]; intros i Hi Hd.
    - replace i with si by lia. exact Hs.
    - destruct (Nat.lt_ge_cases si i) as [Hlt|Hge].
      + apply (Hclosed (i - 1)%nat sj); try assumption.
        * apply IH; lia.
        * right. split; [reflexivity|]. left. lia.
      + apply (Hclosed (S i) sj); try assumption.
        * apply IH; lia.
        * right. split; [reflexivity|]. right. reflexivity. }
  assert (Hcol : forall n i j, (i < h)%nat -> (j < w)%nat ->
            ((j - sj) + (sj - j) = n)%nat -> visited st i j = true).
  { induction n as [|n IH]; intros i j Hi Hj Hd.
    - replace j with sj by lia. apply (Hrow _ i Hi eq_refl).
    - destruct (Nat.lt_ge_cases sj j) as [Hlt|Hge].
      + apply (Hclosed i (j - 1)%nat); try assumption.
        * apply IH; lia.
        * left. split; [reflexivity|]. left. lia.
      + apply (Hclosed i (S j)); try assumption.
        * apply IH; lia.
        * left. split; [reflexivity|]. right. reflexivity. }
  intros i j Hi Hj. apply (Hcol _ i j Hi Hj eq_refl).
Qed.

(** X17.  On a non-empty raster, [_mst_unwrap] returns, and its result
    differs from the wrapped phase by a whole number of cycles at every
    pixel: wrapping the result again gives back the wrapped input phase
    (for an input in (-pi, pi]). *)
Theorem X17_mst_unwrap_round_trip (height width : nat)
    (wrapped_phase coherence : grid) :
  (0 < height)%nat -> (0 < width)%nat ->
  exists u,
    mst_unwrap height width wrapped_phase coherence = inr u /\
    forall i j, (i < height)%nat -> (j < width)%nat ->
      cong2pi (u i j) (wrapped_phase i j) /\
      wrap (u i j) = wrap (wrapped_phase i j) /\
      (- PI < wrapped_phase i j <= PI -> wrap (u i j) = wrapped_phase i j).
Proof.
  intros Hh Hw. unfold mst_unwrap.
  set (L := flatten (mk_rarray height width coherence)).
  assert (HL : List.length L = (height * width)%nat) by apply flatten_length.
  destruct L as [|x l] eqn:EL; [cbn in HL; nia|].
  cbn [argmax bind ret].
  destruct (argmax_from_max l [x] O x) as [Hpk _];
    [cbn; lia|reflexivity|intros k Hk; cbn in Hk;
     replace k with O by lia; cbn; lra|].
  cbn [List.length] in Hpk. change ([x] ++ l) with (x :: l) in Hpk.
  set (start := argmax_from l 1 0 x) in *. rewrite HL in Hpk.
  set (si := (start / width)%nat). set (sj := (start mod width)%nat).
  assert (Hsi : (si < height)%nat)
    by (apply Nat.Div0.div_lt_upper_bound; lia).
  assert (Hsj : (sj < width)%nat) by (apply Nat.mod_upper_bound; lia).
  set (st0 := {| unwrapped := upd (fun _ _ => 0) si sj (wrapped_phase si sj);
                 visited := mark (fun _ _ => false) si sj;
                 queue := [(si, sj)] |}).
  assert (Inv0 : mst_invariant height width wrapped_phase st0).
  { unfold mst_invariant. cbn [unwrapped visited queue st0].
    split; [|split].
    - intros a b. unfold mark, upd.
      destruct (Nat.eqb a si && Nat.eqb b sj) eqn:E; [|discriminate].
      apply andb_true_iff in E. destruct E as [Ea Eb].
      apply Nat.eqb_eq in Ea, Eb. subst a b. intros _.
      split; [exact Hsi|]. split; [exact Hsj|apply cong2pi_refl].
    - intros p [<-|[]]. cbn [fst snd]. unfold mark.
      rewrite !Nat.eqb_refl. reflexivity.
    - intros a b. unfold mark.
      destruct (Nat.eqb a si && Nat.eqb b sj) eqn:E; [|discriminate].
      apply andb_true_iff in E. destruct E as [Ea Eb].
      apply Nat.eqb_eq in Ea, Eb. subst a b.
      intros _ Hn. exfalso. apply Hn. left. reflexivity. }
  assert (Hm : (unvisited_pixels height width (visited st0)
                + List.length (queue st0) <= height * width + 1)%nat).
  { cbn [queue st0 List.length]. unfold unvisited_pixels.
    pose proof (filter_length_le (fun _ : nat * nat => true)
                  (fun p => negb (visited st0 (fst p) (snd p)))
                  (list_prod (seq 0 height) (seq 0 width))
                  (fun _ _ => eq_refl)) as Hle.
    assert (Eall : filter (fun _ : nat * nat => true)
                     (list_prod (seq 0 height) (seq 0 width))
                   = list_prod (seq 0 height) (seq 0 width)).
    { generalize (list_prod (seq 0 height) (seq 0 width)). intros l0.
      induction l0 as [|y l0 IH]; cbn [filter]; [reflexivity|].
      rewrite IH. reflexivity. }
    rewrite Eall, length_prod, !length_seq in Hle. lia. }
  destruct (bfs_completes height width wrapped_phase (height * width + 1)
              st0 Inv0 Hm) as (st' & Hrun & Inv' & Hq' & Hmono).
  rewrite Hrun. exists (unwrapped st'). split; [reflexivity|].
  intros i j Hi Hj.
  assert (Hstart : visited st' si sj = true).
  { apply Hmono. cbn [visited st0]. unfold mark.
    rewrite !Nat.eqb_refl. reflexivity. }
  pose proof (closed_visits_all height width wrapped_phase st' si sj
                Inv' Hq' Hstart i j Hi Hj) as Hv.
  destruct Inv' as (I1 & _). destruct (I1 i j Hv) as (_ & _ & Hc).
  split; [exact Hc|]. split; [apply cong2pi_wrap_eq, Hc|].
  intros Hr. rewrite (cong2pi_wrap_eq _ _ Hc). apply wrap_id, Hr.
Qed.

Lemma X17_mst_unwrap_round_trip_witness :
  exists u,
    mst_unwrap 1 2 ramp full_coherence = inr u /\
    wrap (u 0%nat 1%nat) = wrap (ramp 0%nat 1%nat).
Proof.
  destruct (X17_mst_unwrap_round_trip 1 2 ramp full_coherence)
    as (u & Hu & Hcells); [lia|lia|].
  exists u. split; [exact Hu|]. apply (Hcells 0%nat 1%nat); lia.
Defined.

Close Scope R_scope.

(** ** The correlation surface in general *)

Open Scope R_scope.

(** X18.  For two non-empty rasters of the same shape that fit in the
    window, the surface that [_estimate_offset] searches is the magnitude
    of the circular cross-correlation of the two rasters: the transforms
    and the inverse transform compute, at each lag [(p, q)], the sum over
    all pixels of [ref[(p + m) mod h, (q + n) mod w] * conj(sec[m, n])]. *)
Theorem X18_correlation_theorem (ref sec : carray) (window_size : nat) :
  (0 < nrows ref <= window_size)%nat -> (0 < ncols ref <= window_size)%nat ->
  nrows sec = nrows ref -> ncols sec = ncols ref ->
  exists cc,
    cross_correlation ref sec window_size = inr cc /\
    rrows cc = nrows ref /\ rcols cc = ncols ref /\
    forall p q, (p < nrows ref)%nat -> (q < ncols ref)%nat ->
      rat cc p q
      = Cabs (circ_corr2 (nrows ref) (ncols ref) (at_ ref) (at_ sec) p q).
Proof.
  intros [Hh Hhw] [Hw Hww] Er Ec.
  unfold cross_correlation, fft2, window.
  cbn [nrows ncols at_]. rewrite Er, Ec.
  rewrite !Nat.min_l by lia. rewrite nonempty_check by assumption.
  cbn [bind ret]. unfold broadcast2. cbn [conj_array nrows ncols].
  rewrite !broadcast_dim_same. cbn [bind ret].
  unfold ifft2. cbn [nrows ncols]. rewrite nonempty_check by assumption.
  cbn [bind ret]. eexists. split; [reflexivity|].
  cbn [abs_array rrows rcols rat nrows ncols at_].
  split; [reflexivity|]. split; [reflexivity|].
  intros p q Hp Hq. f_equal.
  rewrite (fourier_sum_ext 1 (nrows ref) (ncols ref) _
             (fun k l =>
                Cmul (fourier_sum (-1) (nrows ref) (ncols ref) (at_ ref) k l)
                     (Cconj (fourier_sum (-1) (nrows ref) (ncols ref)
                               (at_ sec) k l)))).
  - apply idft_of_product; assumption.
  - intros k l Hk Hl. rewrite !bat_in_range by (cbn; assumption).
    reflexivity.
Qed.

Lemma X18_correlation_theorem_witness :
  exists cc,
    cross_correlation (impulse 2 2) (impulse 2 2) 64 = inr cc /\
    rat cc 0 0 = Cabs (circ_corr2 2 2 (at_ (impulse 2 2))
                         (at_ (impulse 2 2)) 0 0).
Proof.
  destruct (X18_correlation_theorem (impulse 2 2) (impulse 2 2) 64)
    as (cc & H & _ & _ & Hcell); try (cbn; lia); try reflexivity.
  exists cc. split; [exact H|]. apply (Hcell 0%nat 0%nat); cbn; lia.
Defined.

Close Scope R_scope.

(** ** What the connectivity check decides *)

Lemma set_nth2_nth {A} (M M' : list (list A)) (k m : nat) (v d : A) :
  set_nth2 M k m v = Some M' ->
  forall k' m', nth m' (nth k' M' []) d =
    if Nat.eqb k' k && Nat.eqb m' m then v else nth m' (nth k' M []) d.
Proof.
  unfold set_nth2.
  destruct (nth_error M k) as [row|] eqn:E; [|discriminate].
  destruct (set_nth row m v) as [row'|] eqn:E1; [|discriminate].
  intros E2 k' m'. rewrite (@set_nth_nth _ _ _ _ _ [] E2 k').
  destruct (Nat.eqb k' k) eqn:Ek; cbn [andb]; [|reflexivity].
  apply Nat.eqb_eq in Ek; subst k'.
  rewrite (@set_nth_nth _ _ _ _ _ d E1 m').
  rewrite (nth_error_nth _ _ [] E). reflexivity.
Qed.

Lemma linked_cons (p : pair) (ps : list pair) (a b : nat) :
  linked (p :: ps) a b <->
  (master_idx p = a /\ slave_idx p = b) \/
  (master_idx p = b /\ slave_idx p = a) \/ linked ps a b.
Proof.
  unfold linked. split.
  - intros (p' & [<-|Hin] & H); [tauto|]. right. right. exists p'. tauto.
  - intros [H|[H|(p' & Hin & H)]].
    + exists p. split; [left; reflexivity|tauto].
    + exists p. split; [left; reflexivity|tauto].
    + exists p'. split; [right; exact Hin|exact H].
Qed.

(** The adjacency matrix holds exactly the pairs, in both directions. *)
Lemma fill_adj_spec (ps : list pair) :
  forall adj adj', fill_adj adj ps = inr adj' ->
  forall a b, adjacent adj' a b = true <->
              adjacent adj a b = true \/ linked ps a b.
Proof.
  induction ps as [|p ps IH]; intros adj adj' H a b; cbn [fill_adj] in H.
  - inversion H; subst. split; [tauto|].
    intros [H'|(p & [] & _)]. exact H'.
  - destruct (set_nth2 adj (master_idx p) (slave_idx p) true)
      as [adj1|] eqn:E1; [|discriminate].
    destruct (set_nth2 adj1 (slave_idx p) (master_idx p) true)
      as [adj2|] eqn:E2; [|discriminate].
    rewrite (IH _ _ H a b), linked_cons. unfold adjacent.
    rewrite (set_nth2_nth _ _ _ _ _ false E2 a b).
    rewrite (set_nth2_nth _ _ _ _ _ false E1 a b).
    destruct (Nat.eqb_spec a (slave_idx p)), (Nat.eqb_spec b (master_idx p)),
      (Nat.eqb_spec a (master_idx p)), (Nat.eqb_spec b (slave_idx p));
      cbn [andb]; subst; intuition congruence.
Qed.

Lemma adjacent_zeros (n a b : nat) : adjacent (SBASNetwork.zeros2 n n) a b = false.
Proof.
  unfold adjacent, SBASNetwork.zeros2.
  destruct (Nat.lt_ge_cases a n) as [Ha|Ha].
  - rewrite nth_repeat_lt by exact Ha.
    destruct (Nat.lt_ge_cases b n) as [Hb|Hb].
    + apply nth_repeat_lt. exact Hb.
    + apply nth_overflow. rewrite repeat_length. exact Hb.
  - rewrite (nth_overflow (repeat (repeat false n) n) [])
      by (rewrite repeat_length; exact Ha).
    destruct b; reflexivity.
Qed.

(** The scan of one row marks the unmarked neighbours of the row and
    appends them to the queue. *)
Lemma scan_neighbors_spec (row : list bool) :
  forall nb v q v' q',
    scan_neighbors row nb v q = (v', q') ->
    (nb + List.length row <= List.length v)%nat ->
    (forall k, marked v k = true -> marked v' k = true) /\
    (forall k, (nb <= k < nb + List.length row)%nat ->
       nth (k - nb) row false = true -> marked v' k = true) /\
    exists new,
      q' = q ++ new /\
      (forall k, marked v' k = true -> marked v k = true \/ In k new) /\
      (forall k, In k new ->
         marked v' k = true /\
         (nb <= k < nb + List.length row)%nat /\
         nth (k - nb) row false = true).
Proof.
  induction row as [|a row IH]; intros nb v q v' q' H Hlen;
    cbn [scan_neighbors] in H.
  - inversion H; subst. split; [auto|]. split; [cbn; intros; lia|].
    exists []. rewrite app_nil_r. split; [reflexivity|].
    split; [auto|intros k []].
  - cbn [List.length] in *.
    destruct (a && negb (nth nb v true)) eqn:E.
    + apply andb_true_iff in E. destruct E as [Ea Ev]. subst a.
      apply negb_true_iff in Ev.
      destruct (@set_nth_some _ v nb true) as [v1 E1]; [lia|].
      rewrite E1 in H.
      pose proof (@set_nth_nth _ _ _ _ _ false E1) as Hv1.
      pose proof (set_nth_length _ _ _ E1) as Hl1.
      destruct (IH _ _ _ _ _ H) as (Hmono & Hrow & new & Hq & Hnew & Hin);
        [lia|].
      assert (Hm1 : forall k, marked v k = true -> marked v1 k = true).
      { intros k Hk. unfold marked in *. rewrite Hv1, Hk.
        destruct (Nat.eqb k nb); reflexivity. }
      split; [auto|]. split.
      * intros k Hk Hr. destruct (Nat.eq_dec k nb) as [->|Hne].
        -- apply Hmono. unfold marked. rewrite Hv1, Nat.eqb_refl. reflexivity.
        -- apply Hrow; [lia|].
           replace (k - nb)%nat with (S (k - S nb)) in Hr by lia. exact Hr.
      * exists (nb :: new). split; [rewrite Hq, <- app_assoc; reflexivity|].
        split.
        -- intros k Hk. destruct (Hnew k Hk) as [Hk1|Hk1];
             [|right; right; exact Hk1].
           unfold marked in Hk1. rewrite Hv1 in Hk1.
           destruct (Nat.eqb_spec k nb) as [->|Hne];
             [right; left; reflexivity|left; exact Hk1].
        -- intros k [<-|Hk].
           ++ split; [|split; [lia|rewrite Nat.sub_diag; reflexivity]].
              apply Hmono. unfold marked. rewrite Hv1, Nat.eqb_refl.
              reflexivity.
           ++ destruct (Hin k Hk) as (H1 & H2 & H3).
              split; [exact H1|]. split; [lia|].
              replace (k - nb)%nat with (S (k - S nb)) by lia. exact H3.
    + destruct (IH _ _ _ _ _ H) as (Hmono & Hrow & new & Hq & Hnew & Hin);
        [lia|].
      split; [exact Hmono|]. split.
      * intros k Hk Hr. destruct (Nat.eq_dec k nb) as [->|Hne].
        -- rewrite Nat.sub_diag in Hr. cbn [nth] in Hr. subst a.
           cbn [andb] in E. apply negb_false_iff in E.
           apply Hmono. unfold marked.
           rewrite (nth_indep v false true) by lia. exact E.
        -- apply Hrow; [lia|].
           replace (k - nb)%nat with (S (k - S nb)) in Hr by lia. exact Hr.
      * exists new. split; [exact Hq|]. split; [exact Hnew|].
        intros k Hk. destruct (Hin k Hk) as (H1 & H2 & H3).
        split; [exact H1|]. split; [lia|].
        replace (k - nb)%nat with (S (k - S nb)) by lia. exact H3.
Qed.

Section Connectivity.
Variable ps : list pair.
Variable n : nat.
Variable adj : list (list bool).
Hypothesis adj_shape : shape adj n n.
Hypothesis adj_pairs :
  forall a b, adjacent adj a b = true <-> linked ps a b.
Hypothesis in_range :
  Forall (fun p => (master_idx p < n)%nat /\ (slave_idx p < n)%nat) ps.

Lemma linked_in_range (a b : nat) : linked ps a b -> (a < n)%nat /\ (b < n)%nat.
Proof.
  intros (p & Hin & H).
  pose proof (proj1 (Forall_forall _ _) in_range p Hin) as [H1 H2].
  destruct H as [[<- <-]|[<- <-]]; lia.
Qed.

(** One iteration of the [while] loop keeps the invariant. *)
Lemma connectivity_step (v : list bool) (node : nat) (q : list nat)
    (v' : list bool) (q' : list nat) :
  connectivity_invariant ps n v (node :: q) ->
  scan_neighbors (nth node adj []) 0 v q = (v', q') ->
  connectivity_invariant ps n v' q' /\
  (forall k, marked v k = true -> marked v' k = true).
Proof.
  intros (Hl & J1 & J2 & J3) Hscan.
  destruct (J2 node (or_introl eq_refl)) as [Hnode Hn].
  assert (Hrow : List.length (nth node adj []) = n)
    by (apply (proj2 adj_shape); exact Hn).
  destruct (scan_neighbors_spec _ _ _ _ _ _ Hscan)
    as (Hmono & Hmark & new & Hq & Hnew & Hin); [lia|].
  pose proof (scan_neighbors_measure _ _ _ _ Hscan) as [Hl' _].
  rewrite Hrow in *.
  split; [|exact Hmono].
  unfold connectivity_invariant. split; [congruence|]. split; [|split].
  - intros k Hk. destruct (Hnew k Hk) as [Hold|Hk'].
    + apply J1, Hold.
    + destruct (Hin k Hk') as (_ & Hr & Hadj).
      rewrite Nat.sub_0_r in Hadj.
      apply reach_step with (b := node); [apply J1, Hnode|].
      apply adj_pairs. exact Hadj.
  - intros k Hk. rewrite Hq in Hk. apply in_app_or in Hk.
    destruct Hk as [Hk|Hk].
    + destruct (J2 k (or_intror Hk)) as [H1 H2]. split; [auto|exact H2].
    + destruct (Hin k Hk) as (H1 & H2 & _). split; [exact H1|lia].
  - intros k Hk Hnq m Hm Hlink.
    destruct (Hnew k Hk) as [Hold|Hk'];
      [|exfalso; apply Hnq; rewrite Hq; apply in_or_app; right; exact Hk'].
    destruct (Nat.eq_dec k node) as [->|Hne].
    + apply Hmark; [lia|]. rewrite Nat.sub_0_r.
      apply adj_pairs. exact Hlink.
    + apply Hmono. apply (J3 k Hold); try assumption.
      intros [Heq|Hk']; [congruence|].
      apply Hnq. rewrite Hq. apply in_or_app. left. exact Hk'.
Qed.

(** The loop ends with the invariant and an empty queue. *)
Lemma connectivity_run (fuel : nat) :
  forall v q,
    connectivity_invariant ps n v q ->
    (2 * unvisited v + List.length q <= fuel)%nat ->
    exists v',
      SBASNetwork.bfs fuel adj v q = Some v' /\
      connectivity_invariant ps n v' [] /\
      forall k, marked v k = true -> marked v' k = true.
Proof.
  induction fuel as [|fuel IH]; intros v q Inv Hm.
  - destruct q as [|node q]; cbn [List.length] in Hm; [|lia].
    exists v. cbn. auto.
  - destruct q as [|node q]; [exists v; cbn; auto|].
    cbn [SBASNetwork.bfs].
    destruct (scan_neighbors (nth node adj []) 0 v q) as [v1 q1] eqn:E.
    destruct (connectivity_step _ _ _ _ _ Inv E) as (Inv1 & Hmono).
    pose proof (scan_neighbors_measure _ _ _ _ E) as [_ Hdec].
    destruct (IH v1 q1 Inv1) as (v' & Hrun & Inv' & Hmono');
      [cbn [List.length] in Hm; lia|].
    exists v'. split; [exact Hrun|]. split; [exact Inv'|].
    intros k Hk. apply Hmono', Hmono, Hk.
Qed.

End Connectivity.

Lemma forallb_marked (v : list bool) :
  forallb (fun b => b) v = true <->
  forall k, (k < List.length v)%nat -> marked v k = true.
Proof.
  unfold marked. induction v as [|b v IH]; cbn [forallb List.length].
  - split; [intros _ k Hk; lia|reflexivity].
  - rewrite andb_true_iff, IH. split.
    + intros [-> H] [|k] Hk; [reflexivity|]. apply H. lia.
    + intros H. split; [apply (H O); lia|].
      intros k Hk. apply (H (S k)). lia.
Qed.

(** X19.  On a network with at least one date whose pairs refer to dates
    of the network, [_check_connectivity] returns its report, and the
    report says "connected" exactly when every date can be reached from
    the first date along pairs (taken in either direction). *)
Theorem X19_connected_iff_all_reachable (self : SBASNetwork.t) :
  (0 < n_dates self)%nat ->
  Forall (fun p => (master_idx p < n_dates self)%nat /\
                   (slave_idx p < n_dates self)%nat) (pairs self) ->
  exists conn,
    check_connectivity self = inr conn /\
    (is_connected conn = true <->
     forall k, (k < n_dates self)%nat -> reachable (pairs self) O k).
Proof.
  intros Hn Hps. unfold check_connectivity.
  set (n := n_dates self) in *.
  destruct (@fill_adj_ok n (pairs self) Hps (SBASNetwork.zeros2 n n))
    as (adj & Hadj & Hshape); [apply shape_repeat|].
  rewrite Hadj. cbn [bind].
  destruct (@set_nth_some _ (repeat false n) O true) as [v0 Hv0];
    [rewrite repeat_length; exact Hn|].
  rewrite Hv0. cbn [of_option bind ret].
  assert (Hpairs : forall a b, adjacent adj a b = true <-> linked (pairs self) a b).
  { intros a b. rewrite (fill_adj_spec _ _ _ Hadj a b), adjacent_zeros.
    split; [intros [H|H]; [discriminate|exact H]|auto]. }
  assert (Hl0 : List.length v0 = n)
    by (rewrite (set_nth_length _ _ _ Hv0); apply repeat_length).
  assert (Hm0 : forall k, marked v0 k = true <-> k = O).
  { intros k. unfold marked. rewrite (@set_nth_nth _ _ _ _ _ false Hv0 k).
    destruct (Nat.eqb_spec k 0) as [->|Hne]; [tauto|].
    split; [|contradiction]. intros H.
    destruct (Nat.lt_ge_cases k n) as [Hk|Hk].
    - rewrite nth_repeat_lt in H by exact Hk. discriminate.
    - rewrite nth_overflow in H by (rewrite repeat_length; exact Hk).
      discriminate. }
  assert (Inv0 : connectivity_invariant (pairs self) n v0 [O]).
  { unfold connectivity_invariant. split; [exact Hl0|]. split; [|split].
    - intros k Hk. apply Hm0 in Hk. subst k. apply reach_refl.
    - intros k [<-|[]]. split; [apply Hm0; reflexivity|exact Hn].
    - intros k Hk Hnq. apply Hm0 in Hk. subst k.
      exfalso. apply Hnq. left. reflexivity. }
  destruct (connectivity_run (pairs self) n adj Hshape Hpairs
              (2 * List.length v0 + 1) v0 [O] Inv0)
    as (v' & Hrun & (Hl' & J1 & _ & J3) & Hmono).
  { pose proof (unvisited_le_length v0). cbn [List.length]. lia. }
  unfold bfs_run. rewrite Hrun.
  eexists. split; [reflexivity|]. cbn [is_connected].
  rewrite forallb_marked, Hl'. split.
  - intros H k Hk. apply J1, H, Hk.
  - intros H k Hk. specialize (H k Hk).
    induction H as [|b c Hb IH Hlink].
    + apply Hmono, Hm0. reflexivity.
    + destruct (linked_in_range (pairs self) n Hps b c Hlink) as [Hbn Hcn].
      apply (J3 b (IH Hbn)); [intros []|exact Hcn|exact Hlink].
Qed.

Lemma X19_connected_iff_all_reachable_witness :
  exists conn,
    check_connectivity example_network = inr conn /\
    (is_connected conn = true <->
     forall k, (k < 3)%nat -> reachable (pairs example_network) O k).
Proof.
  apply (X19_connected_iff_all_reachable example_network).
  - cbn. lia.
  - repeat constructor.
Defined.

(** ** The interferogram *)

Open Scope R_scope.

Lemma Cabs_Cmul (a b : C) : Cabs (Cmul a b) = Cabs a * Cabs b.
Proof.
  unfold Cabs. rewrite <- sqrt_mult by nra. f_equal.
  cbn [re im Cmul]. ring.
Qed.

Lemma Cabs_Cconj (a : C) : Cabs (Cconj a) = Cabs a.
Proof. unfold Cabs. f_equal. cbn [re im Cconj]. ring. Qed.

(** [np.arctan2] returns an angle of the principal range. *)
Lemma atan2_range (y x : R) : - PI < atan2 y x <= PI.
Proof.
  pose proof PI_RGT_0 as Hpi. unfold atan2.
  destruct (Rlt_dec 0 x) as [Hx|Hx].
  - pose proof (atan_bound (y / x)). lra.
  - destruct (Rlt_dec x 0) as [Hn|Hn].
    + pose proof (atan_bound (y / x)) as Hb.
      assert (Hinv : / x < 0) by (apply Rinv_lt_0_compat; exact Hn).
      destruct (Rle_dec 0 y) as [Hy|Hy].
      * assert (Hq : y / x <= 0) by (unfold Rdiv; nra).
        assert (atan (y / x) <= 0).
        { destruct Hq as [Hq|Hq].
          - pose proof (atan_increasing _ _ Hq) as Hi. rewrite atan_0 in Hi.
            lra.
          - rewrite Hq, atan_0. lra. }
        lra.
      * assert (Hq : 0 < y / x) by (unfold Rdiv; nra).
        pose proof (atan_increasing _ _ Hq) as Hi. rewrite atan_0 in Hi.
        lra.
    + destruct (Rlt_dec 0 y); [lra|]. destruct (Rlt_dec y 0); lra.
Qed.

(** A positive factor does not change the argument. *)
Lemma atan2_scale (r y x : R) : 0 < r -> atan2 (r * y) (r * x) = atan2 y x.
Proof.
  intros Hr. unfold atan2.
  destruct (Rlt_dec 0 x) as [Hx|Hx].
  - destruct (Rlt_dec 0 (r * x)) as [_|H]; [|exfalso; nra].
    f_equal. field. lra.
  - destruct (Rlt_dec 0 (r * x)) as [H|_]; [exfalso; nra|].
    destruct (Rlt_dec x 0) as [Hn|Hn].
    + destruct (Rlt_dec (r * x) 0) as [_|H]; [|exfalso; nra].
      replace (r * y / (r * x)) with (y / x) by (field; lra).
      destruct (Rle_dec 0 y) as [Hy|Hy].
      * destruct (Rle_dec 0 (r * y)) as [_|H]; [reflexivity|exfalso; nra].
      * destruct (Rle_dec 0 (r * y)) as [H|_]; [exfalso; nra|reflexivity].
    + destruct (Rlt_dec (r * x) 0) as [H|_]; [exfalso; nra|].
      destruct (Rlt_dec 0 y) as [Hy|Hy].
      * destruct (Rlt_dec 0 (r * y)) as [_|H]; [reflexivity|exfalso; nra].
      * destruct (Rlt_dec 0 (r * y)) as [H|_]; [exfalso; nra|].
        destruct (Rlt_dec y 0) as [Hy'|Hy'].
        -- destruct (Rlt_dec (r * y) 0) as [_|H];
             [reflexivity|exfalso; nra].
        -- destruct (Rlt_dec (r * y) 0) as [H|_];
             [exfalso; nra|reflexivity].
Qed.

(** Off zero, the signs of the zeros matter on the negative real axis
    only, where they decide between [pi] and [-pi]. *)
Lemma angle_signed_cases (re_neg im_neg : bool) (a : C) :
  a <> mkC 0 0 ->
  angle_signed re_neg im_neg a = angle a \/
  (angle a = PI /\ angle_signed re_neg im_neg a = - PI).
Proof.
  intros Hne. unfold angle_signed, angle, atan2.
  destruct (Req_EM_T (im a) 0) as [Ei|Ei]; [|left; reflexivity].
  rewrite Ei.
  destruct (Rlt_dec 0 (re a)) as [Hp|Hp].
  - left. unfold Rdiv. rewrite Rmult_0_l, atan_0. reflexivity.
  - destruct (Rlt_dec (re a) 0) as [Hn|Hn].
    + destruct (Rle_dec 0 0) as [_|H]; [|exfalso; lra].
      unfold Rdiv. rewrite Rmult_0_l, atan_0, Rplus_0_l.
      destruct im_neg; [right; split; reflexivity|left; reflexivity].
    + exfalso. apply Hne. apply C_ext; cbn [re im]; lra.
Qed.

Lemma angle_signed_range (re_neg im_neg : bool) (a : C) :
  - PI <= angle_signed re_neg im_neg a <= PI.
Proof.
  pose proof PI_RGT_0 as Hpi. unfold angle_signed.
  destruct (Req_EM_T (im a) 0);
    [|pose proof (atan2_range (im a) (re a)); unfold angle; lra].
  destruct (Rlt_dec 0 (re a)); [lra|].
  destruct (Rlt_dec (re a) 0); [destruct im_neg; lra|].
  destruct re_neg; [destruct im_neg; lra|lra].
Qed.

(** X20.  For two rasters of the same shape, the interferogram of
    [generate_interferogram] has, at every pixel, an amplitude equal to the
    product of the two amplitudes and a phase between -pi and pi, whatever
    the signs of the zeros.  Where the secondary image is the reference
    image turned by an angle [t] (and the reference is not zero), the phase
    is [t] up to whole cycles: it is [t] wrapped, except that on the
    negative real axis it may be -pi instead of pi.  The phase of an image
    against itself is 0. *)
Theorem X20_interferogram_phase (ref_data sec_data : carray)
    (re_neg im_neg : nat -> nat -> bool) :
  nrows sec_data = nrows ref_data -> ncols sec_data = ncols ref_data ->
  exists ifg,
    interferogram ref_data sec_data = inr ifg /\
    nrows ifg = nrows ref_data /\ ncols ifg = ncols ref_data /\
    forall i j, (i < nrows ref_data)%nat -> (j < ncols ref_data)%nat ->
      let phase := rat (interferogram_phase re_neg im_neg ifg) i j in
      rat (interferogram_amplitude ifg) i j
        = Cabs (at_ ref_data i j) * Cabs (at_ sec_data i j) /\
      - PI <= phase <= PI /\
      (forall t, at_ ref_data i j <> mkC 0 0 ->
         at_ sec_data i j = Cmul (cis t) (at_ ref_data i j) ->
         cong2pi phase t /\
         (phase = wrap t \/ (wrap t = PI /\ phase = - PI))) /\
      (at_ ref_data i j <> mkC 0 0 -> at_ sec_data i j = at_ ref_data i j ->
       phase = 0).
Proof.
  intros Er Ec. unfold interferogram, broadcast2.
  cbn [conj_array nrows ncols]. rewrite Er, Ec, !broadcast_dim_same.
  eexists. split; [reflexivity|].
  cbn [nrows ncols]. split; [reflexivity|]. split; [reflexivity|].
  intros i j Hi Hj. cbn zeta.
  cbn [interferogram_amplitude interferogram_phase abs_array rat at_
       nrows ncols].
  rewrite !bat_in_range by (cbn [conj_array nrows ncols]; lia).
  cbn [conj_array at_].
  set (a := at_ ref_data i j). set (b := at_ sec_data i j).
  assert (Hr : a <> mkC 0 0 -> 0 < re a * re a + im a * im a).
  { intros Hne.
    destruct (Req_dec (re a) 0) as [E1|E1];
      destruct (Req_dec (im a) 0) as [E2|E2]; try nra.
    exfalso. apply Hne. apply C_ext; assumption. }
  assert (Hprod : forall t, b = Cmul (cis t) a ->
            Cmul (Cconj a) b
            = mkC ((re a * re a + im a * im a) * cos t)
                  ((re a * re a + im a * im a) * sin t)).
  { intros t ->. apply C_ext; cbn [re im Cmul Cconj cis]; ring. }
  assert (Hturn : forall t, a <> mkC 0 0 -> b = Cmul (cis t) a ->
            Cmul (Cconj a) b <> mkC 0 0 /\
            angle (Cmul (Cconj a) b) = wrap t).
  { intros t Hne Hb. rewrite (Hprod t Hb). specialize (Hr Hne). split.
    - intros E. pose proof (f_equal re E) as E1.
      pose proof (f_equal im E) as E2. cbn [re im] in E1, E2.
      pose proof (sin2_cos2 t) as Hsc. unfold Rsqr in Hsc.
      assert (cos t = 0) by nra. assert (sin t = 0) by nra. nra.
    - unfold angle. cbn [re im]. rewrite atan2_scale by exact Hr.
      symmetry. apply wrap_atan2. }
  split; [rewrite Cabs_Cmul, Cabs_Cconj; reflexivity|].
  split; [apply angle_signed_range|]. split.
  - intros t Hne Hb. destruct (Hturn t Hne Hb) as (Hnz & Hang).
    destruct (angle_signed_cases (re_neg i j) (im_neg i j) _ Hnz)
      as [E|[E1 E2]].
    + rewrite E, Hang. split; [apply wrap_spec|left; reflexivity].
    + rewrite E2. rewrite Hang in E1. split; [|right; split; auto].
      destruct (wrap_spec t) as [[k Hk] _]. exists (k - 1)%Z.
      rewrite minus_IZR. lra.
  - intros Hne Esame. specialize (Hr Hne).
    assert (Eprod : Cmul (Cconj a) b
                    = mkC (re a * re a + im a * im a) 0)
      by (rewrite Esame; apply C_ext; cbn [re im Cmul Cconj]; ring).
    rewrite Eprod. unfold angle_signed. cbn [re im].
    destruct (Req_EM_T 0 0) as [_|H]; [|exfalso; lra].
    destruct (Rlt_dec 0 (re a * re a + im a * im a)); [reflexivity|lra].
Qed.

Lemma X20_interferogram_phase_witness :
  exists ifg,
    interferogram ones_2x2 ones_2x2 = inr ifg /\
    rat (interferogram_phase (fun _ _ => true) (fun _ _ => true) ifg) 0 0
    = 0.
Proof.
  destruct (X20_interferogram_phase ones_2x2 ones_2x2
              (fun _ _ => true) (fun _ _ => true) eq_refl eq_refl)
    as (ifg & H & _ & _ & Hcell).
  exists ifg. split; [exact H|].
  destruct (Hcell 0%nat 0%nat) as (_ & _ & _ & Hz); [cbn; lia|cbn; lia|].
  apply Hz; [|reflexivity].
  cbn. intros E. pose proof (f_equal re E) as E'. cbn in E'. lra.
Defined.

Close Scope R_scope.

(** ** The topographic correction *)

Open Scope R_scope.





Close Scope R_scope.
